(** * nostrfetchweb: retrieval, assembly and NIP-44 decryption

    A shallow embedding of the retrieval pipeline of the repository
    ([lib/crypto.ts], [lib/nostr.ts], [lib/types.ts], [lib/fileUtils.ts] and
    the download handlers of the components), followed by the properties
    the specification states about it.

    Conventions.
    - A JavaScript [number] that the code only uses as an integer is a [Z].
    - A [Uint8Array] is a [list byte]; a JavaScript string is a [string]
      (code units above 255 are not represented).
    - A function that can [throw] returns a [result]; the error type lists
      the [throw] sites of the source, one constructor per message.
    - The network ([SimplePool]) and the cryptographic libraries are
      parameters: records of functions the code calls. *)

From Stdlib Require Import ZArith NArith List String Ascii Lia ZifyNat Bool DecimalString.
From Stdlib Require Import Sorting.Sorted.
From Stdlib Require DecimalPos.
From Stdlib.Strings Require Import Byte.
From stdpp Require Import gmap strings.
Import ListNotations.

Open Scope Z_scope.

(** ** Part I: the embedding *)

(** *** JavaScript built-ins *)

Module Js.

(** Outcome of a call that may [throw]. *)
Inductive result (E A : Type) : Type :=
| Ok (a : A)
| Throw (e : E).
Arguments Ok {E A} a.
Arguments Throw {E A} e.

Definition bind {E A B} (r : result E A) (k : A -> result E B) : result E B :=
  match r with
  | Ok a => k a
  | Throw e => Throw e
  end.

(** [Number.isSafeInteger] on an integral number. *)
Definition isSafeInteger (z : Z) : bool := Z.abs z <=? 2 ^ 53 - 1.

(** [ToInt32]: the signed 32-bit wrap-around of the bitwise operators. *)
Definition ToInt32 (z : Z) : Z := (z + 2 ^ 31) mod 2 ^ 32 - 2 ^ 31.

(** [a << k]: the shift count is taken modulo 32, the result is an int32. *)
Definition shl (a k : Z) : Z := ToInt32 (Z.shiftl (ToInt32 a) (k mod 32)).

(** [Math.floor(Math.log2(x))] for a positive integer [x]. *)
Definition floor_log2 (x : Z) : Z := Z.log2 x.

(** The value of a byte as a number. *)
Definition byte_val (b : byte) : Z := Z.of_N (Byte.to_N b).

(** Relative index of [subarray]/[slice]: negative counts from the end,
    everything is clamped to [0, len]. *)
Definition rel_index (len i : Z) : Z :=
  if i <? 0 then Z.max (len + i) 0 else Z.min i len.

(** [a.subarray(b, e)]; [e = None] is the omitted second argument. *)
Definition subarray {A} (l : list A) (b : Z) (e : option Z) : list A :=
  let len := Z.of_nat (length l) in
  let from := rel_index len b in
  let to := match e with Some e => rel_index len e | None => len end in
  firstn (Z.to_nat (to - from)) (skipn (Z.to_nat from) l).

(** [new DataView(..).getUint16(0)]: big-endian, [None] is the RangeError
    of a view shorter than two bytes. *)
Definition getUint16 (l : list byte) : option Z :=
  match l with
  | hi :: lo :: _ => Some (byte_val hi * 256 + byte_val lo)
  | _ => None
  end.

(** **** [atob] and [btoa]

    The two browser built-ins, after RFC 4648 and the forgiving-base64
    decoding of the HTML standard.  A binary string is a [string]: every
    character is one byte, so the InvalidCharacterError of [btoa] (a code
    unit above 255) cannot arise here. *)

(** The code unit of a character, and back. *)
Definition code (c : ascii) : Z := Z.of_N (N_of_ascii c).
Definition char (z : Z) : ascii := ascii_of_N (Z.to_N z).

Definition is_byte (z : Z) : Prop := 0 <= z < 256.
Definition is_sextet (z : Z) : Prop := 0 <= z < 64.

(** The character of a 6-bit value. *)
Definition b64_char (n : Z) : ascii :=
  char (if n <? 26 then n + 65              (* A-Z *)
        else if n <? 52 then n + 71         (* a-z *)
        else if n <? 62 then n - 4          (* 0-9 *)
        else if n =? 62 then 43             (* + *)
        else 47).                           (* / *)

(** The 6-bit value of a character of the alphabet. *)
Definition b64_value (c : ascii) : option Z :=
  let n := code c in
  if (65 <=? n) && (n <=? 90) then Some (n - 65)
  else if (97 <=? n) && (n <=? 122) then Some (n - 71)
  else if (48 <=? n) && (n <=? 57) then Some (n + 4)
  else if n =? 43 then Some 62
  else if n =? 47 then Some 63
  else None.

(** Three bytes give four 6-bit values; a final group of one or two
    bytes gives two or three. *)
Fixpoint sextets (bytes : list Z) : list Z :=
  match bytes with
  | a :: b :: c :: rest =>
      a / 4 :: (a mod 4) * 16 + b / 16 :: (b mod 16) * 4 + c / 64 :: c mod 64
        :: sextets rest
  | [a; b] => [a / 4; (a mod 4) * 16 + b / 16; (b mod 16) * 4]
  | [a] => [a / 4; (a mod 4) * 16]
  | [] => []
  end.

Definition padding (nbytes : nat) : list ascii :=
  match (nbytes mod 3)%nat with
  | 1%nat => ["="; "="]%char
  | 2%nat => ["="]%char
  | _ => []
  end.

Definition btoa (s : string) : string :=
  let bytes := map code (list_ascii_of_string s) in
  string_of_list_ascii (map b64_char (sextets bytes) ++ padding (length bytes)).

Definition is_ascii_whitespace (c : ascii) : bool :=
  let n := code c in
  (n =? 9) || (n =? 10) || (n =? 12) || (n =? 13) || (n =? 32).

(** "If data ends with one or two U+003D (=), remove them." *)
Definition drop_equals (reversed : list ascii) : list ascii :=
  match reversed with
  | c :: r => if code c =? 61 then r else reversed
  | [] => []
  end.

Definition strip_padding (l : list ascii) : list ascii :=
  rev (drop_equals (drop_equals (rev l))).

(** Four 6-bit values give three bytes; a final group of three gives two
    bytes and of two gives one, the spare bits being discarded. *)
Fixpoint unsextets (vals : list Z) : list Z :=
  match vals with
  | s1 :: s2 :: s3 :: s4 :: rest =>
      s1 * 4 + s2 / 16 :: (s2 mod 16) * 16 + s3 / 4 :: (s3 mod 4) * 64 + s4
        :: unsextets rest
  | [s1; s2; s3] => [s1 * 4 + s2 / 16; (s2 mod 16) * 16 + s3 / 4]
  | [s1; s2] => [s1 * 4 + s2 / 16]
  | _ => []
  end.

Fixpoint values_of (l : list ascii) : option (list Z) :=
  match l with
  | [] => Some []
  | c :: r =>
      match b64_value c, values_of r with
      | Some v, Some vs => Some (v :: vs)
      | _, _ => None
      end
  end.

(** [atob]; [None] is its InvalidCharacterError. *)
Definition atob (s : string) : option string :=
  let data := List.filter (fun c => negb (is_ascii_whitespace c))
                          (list_ascii_of_string s) in
  let data := if (length data mod 4 =? 0)%nat then strip_padding data else data in
  if (length data mod 4 =? 1)%nat then None
  else
    match values_of data with
    | None => None
    | Some vals => Some (string_of_list_ascii (map char (unsextets vals)))
    end.

(** **** [parseInt(s, 10)] *)

Definition is_digit (c : ascii) : bool := (48 <=? code c) && (code c <=? 57).

Definition digit_val (c : ascii) : Z := code c - 48.

(** White space that [parseInt] skips (the code units below 256 of
    StrWhiteSpaceChar). *)
Definition is_str_whitespace (c : ascii) : bool :=
  let n := code c in
  (n =? 9) || (n =? 10) || (n =? 11) || (n =? 12) || (n =? 13) || (n =? 32)
  || (n =? 160).

Fixpoint skip_whitespace (l : list ascii) : list ascii :=
  match l with
  | c :: r => if is_str_whitespace c then skip_whitespace r else l
  | [] => []
  end.

(** The value of the longest prefix of decimal digits; [acc = None] while
    no digit has been read. *)
Fixpoint digits (l : list ascii) (acc : option Z) : option Z :=
  match l with
  | c :: r =>
      if is_digit c then digits r (Some (10 * default 0 acc + digit_val c))
      else acc
  | [] => acc
  end.

(** [None] is [NaN].  The value is exact; JavaScript rounds it beyond 2^53. *)
Definition parseInt (s : string) : option Z :=
  match skip_whitespace (list_ascii_of_string s) with
  | c :: r =>
      if code c =? 45 then Z.opp <$> digits r None        (* - *)
      else if code c =? 43 then digits r None             (* + *)
      else digits (c :: r) None
  | [] => None
  end.

(** **** [String.prototype.split] with a one-character separator *)

Fixpoint split_chars (sep : ascii) (l : list ascii) : list (list ascii) :=
  match l with
  | [] => [[]]
  | c :: r =>
      if Ascii.eqb c sep then [] :: split_chars sep r
      else
        match split_chars sep r with
        | h :: t => (c :: h) :: t
        | [] => [[c]]
        end
  end.

Definition split (sep : ascii) (s : string) : list string :=
  map string_of_list_ascii (split_chars sep (list_ascii_of_string s)).

(** [`${n}`] for an integral number. *)
Definition string_of_number (n : Z) : string := NilZero.string_of_int (Z.to_int n).

(** **** [Array.prototype.reduce] without initial value; [None] is the
    TypeError on an empty array. *)
Definition reduce {A} (f : A -> A -> A) (l : list A) : option A :=
  match l with
  | [] => None
  | x :: r => Some (fold_left f r x)
  end.

(** **** [Array.prototype.sort] with a comparator: a stable sort. *)
Fixpoint sort_insert {A} (cmp : A -> A -> Z) (x : A) (l : list A) : list A :=
  match l with
  | [] => [x]
  | y :: r => if cmp x y <=? 0 then x :: y :: r else y :: sort_insert cmp x r
  end.

Definition sort {A} (cmp : A -> A -> Z) (l : list A) : list A :=
  fold_right (sort_insert cmp) [] l.

(** **** [Array.prototype.slice(b, e)] is [subarray] on lists. *)
Definition slice {A} (l : list A) (b e : Z) : list A := subarray l b (Some e).

End Js.

(** A [Map<number, V>]: the keys in insertion order. *)
Module JsMap.

Definition t (V : Type) : Type := list (Z * V).

Definition empty {V} : t V := [].

Definition has {V} (k : Z) (m : t V) : bool := existsb (fun p => fst p =? k) m.

Definition get {V} (k : Z) (m : t V) : option V :=
  snd <$> find (fun p => fst p =? k) m.

(** An existing key keeps its position, a new key goes last. *)
Fixpoint set {V} (k : Z) (v : V) (m : t V) : t V :=
  match m with
  | [] => [(k, v)]
  | (k', v') :: r => if k' =? k then (k, v) :: r else (k', v') :: set k v r
  end.

Definition size {V} (m : t V) : Z := Z.of_nat (length m).

Definition values {V} (m : t V) : list V := map snd m.

Definition keys {V} (m : t V) : list Z := map fst m.

End JsMap.

Import Js.

#[global] Instance byte_eq_decision : EqDecision byte :=
  fun x y =>
    match Byte.eqb x y as b return Byte.eqb x y = b -> {x = y} + {x <> y} with
    | true => fun H => left (Byte.byte_dec_bl x y H)
    | false => fun H => right (Byte.eqb_false H)
    end eq_refl.

#[global] Instance result_bind {E} : MBind (result E) :=
  fun A B k r => Js.bind r k.

(** *** lib/crypto.ts: NIP-44 decryption *)

Module Crypto.

(** The [throw] sites reachable from [decryptChunkBinary]. *)
Inductive Error : Type :=
| ErrPayloadLength (plen : Z)        (* 'invalid payload length: ' + plen *)
| ErrVersionMarker                   (* 'unknown encryption version' *)
| ErrBase64                          (* 'invalid base64: ' + message *)
| ErrDataLength (dlen : Z)           (* 'invalid data length: ' + dlen *)
| ErrVersion (vers : option Z)       (* 'unknown encryption version ' + vers *)
| ErrAadLength                       (* 'AAD associated data must be 32 bytes' *)
| ErrMac                             (* 'invalid MAC' *)
| ErrPadding                         (* 'invalid padding' *)
| ErrPositiveInteger                 (* 'expected positive integer' *)
| ErrRange                           (* RangeError of DataView.getUint16 *)
| ErrConversationKey.                (* thrown by getConversationKey *)

(** The libraries the module imports: [@scure/base], [@noble/hashes],
    [@noble/ciphers] and [nostr-tools/nip44]. *)
Record Primitives : Type := {
  base64_decode : string -> option (list byte);
  hkdfExpand : list byte -> list byte -> Z -> list byte;
  hmac : list byte -> list byte -> list byte;
  chacha20 : list byte -> list byte -> list byte -> list byte;
  getConversationKey : list byte -> string -> option (list byte)
}.

Definition MIN_PLAINTEXT_SIZE : Z := 1.
Definition MAX_PLAINTEXT_SIZE : Z := 65535.

(** [equalBytes] of [@noble/ciphers/utils]: equal lengths, and the OR of
    the byte-wise XORs is zero. *)
Definition equalBytes (a b : list byte) : bool :=
  if negb (length a =? length b)%nat then false
  else
    N.eqb
      (fold_left (fun diff p => N.lor diff (N.lxor (Byte.to_N (fst p)) (Byte.to_N (snd p))))
                 (combine a b) 0%N)
      0%N.

Definition calcPaddedLen (len : Z) : result Error Z :=
  if negb (isSafeInteger len) || (len <? 1) then Throw ErrPositiveInteger
  else if len <=? 32 then Ok 32
  else
    let nextPower := shl 1 (floor_log2 (len - 1) + 1) in
    let chunk := if nextPower <=? 256 then 32 else nextPower / 8 in
    Ok (chunk * ((len - 1) / chunk + 1)).

Record Payload : Type := {
  nonce : list byte;
  ciphertext : list byte;
  mac : list byte
}.

(** The check [typeof payload !== 'string'] cannot fail on a [string]. *)
Definition decodePayload (P : Primitives) (payload : string) : result Error Payload :=
  let plen := Z.of_nat (String.length payload) in
  if (plen <? 132) || (plen >? 87472) then Throw (ErrPayloadLength plen)
  else if bool_decide (String.get 0 payload = Some "#"%char) then Throw ErrVersionMarker
  else
    match base64_decode P payload with
    | None => Throw ErrBase64
    | Some data =>
        let dlen := Z.of_nat (length data) in
        if (dlen <? 99) || (dlen >? 65603) then Throw (ErrDataLength dlen)
        else
          let vers := option_map byte_val (head data) in
          if negb (bool_decide (vers = Some 2)) then Throw (ErrVersion vers)
          else
            Ok {| nonce := subarray data 1 (Some 33);
                  ciphertext := subarray data 33 (Some (-32));
                  mac := subarray data (-32) None |}
    end.

Record MessageKeys : Type := {
  chacha_key : list byte;
  chacha_nonce : list byte;
  hmac_key : list byte
}.

Definition getMessageKeys (P : Primitives) (conversationKey nonce : list byte) : MessageKeys :=
  let keys := hkdfExpand P conversationKey nonce 76 in
  {| chacha_key := subarray keys 0 (Some 32);
     chacha_nonce := subarray keys 32 (Some 44);
     hmac_key := subarray keys 44 (Some 76) |}.

Definition hmacAad (P : Primitives) (key message aad : list byte) : result Error (list byte) :=
  if negb (length aad =? 32)%nat then Throw ErrAadLength
  else Ok (hmac P key (aad ++ message)).

Definition unpadBytes (padded : list byte) : result Error (list byte) :=
  match getUint16 padded with
  | None => Throw ErrRange
  | Some unpaddedLen =>
      let unpadded := subarray padded 2 (Some (2 + unpaddedLen)) in
      if (unpaddedLen <? MIN_PLAINTEXT_SIZE)
         || (unpaddedLen >? MAX_PLAINTEXT_SIZE)
         || negb (Z.of_nat (length unpadded) =? unpaddedLen)
      then Throw ErrPadding
      else
        len ← calcPaddedLen unpaddedLen;
        if negb (Z.of_nat (length padded) =? 2 + len) then Throw ErrPadding
        else Ok unpadded
  end.

Definition decryptNip44ToBytes (P : Primitives) (payload : string)
    (conversationKey : list byte) : result Error (list byte) :=
  d ← decodePayload P payload;
  let k := getMessageKeys P conversationKey (nonce d) in
  calculatedMac ← hmacAad P (hmac_key k) (ciphertext d) (nonce d);
  if negb (equalBytes calculatedMac (mac d)) then Throw ErrMac
  else
    let padded := chacha20 P (chacha_key k) (chacha_nonce k) (ciphertext d) in
    unpadBytes padded.

Definition decryptChunkBinary (P : Primitives) (ciphertext : string)
    (secretKey : list byte) (pubkey : string) : result Error (list byte) :=
  match getConversationKey P secretKey pubkey with
  | None => Throw ErrConversationKey
  | Some conversationKey => decryptNip44ToBytes P ciphertext conversationKey
  end.

(** [base64ToUint8Array]: [atob], then one byte per character. *)
Inductive Base64Error : Type :=
| InvalidCharacterError.

Definition base64ToUint8Array (base64 : string) : result Base64Error (list byte) :=
  match atob base64 with
  | None => Throw InvalidCharacterError
  | Some binaryString => Ok (map byte_of_ascii (list_ascii_of_string binaryString))
  end.

(** [uint8ArrayToBase64]: one character per byte, then [btoa]. *)
Definition uint8ArrayToBase64 (bytes : list byte) : string :=
  let binaryString :=
    fold_left (fun acc b => (acc ++ String (ascii_of_byte b) EmptyString)%string)
              bytes EmptyString in
  btoa binaryString.

End Crypto.

(** *** lib/types.ts *)

Module FileEntry.
Record t : Type := {
  file_hash : string;
  file_name : string;
  file_size : Z;
  uploaded_at : Z;
  encryption : string
}.
End FileEntry.

Module FileIndex.
Record t : Type := {
  version : Z;
  entries : list FileEntry.t;
  archive_number : Z;
  total_archives : Z
}.
End FileIndex.

Module ChunkInfo.
Record t : Type := {
  index : Z;
  event_id : string;
  hash : string
}.
End ChunkInfo.

Module Manifest.
Record t : Type := {
  version : Z;
  file_name : string;
  file_hash : string;
  file_size : Z;
  chunk_size : Z;
  total_chunks : Z;
  created_at : Z;
  pubkey : string;
  encryption : string;
  chunks : list ChunkInfo.t;
  relays : list string;
  mime_type : option string
}.
End Manifest.

Module EVENT_KINDS.
Definition CHUNK : Z := 30078.
Definition MANIFEST : Z := 30079.
Definition INDEX : Z := 30080.
End EVENT_KINDS.

Module D_TAGS.
Definition CURRENT_INDEX : string := "nostrsave-index".
Definition archiveTag (n : Z) : string :=
  ("nostrsave-index-archive-" ++ string_of_number n)%string.
End D_TAGS.

(** *** lib/nostr.ts: index and manifest resolution

    Of the two revisions of the file in the sources, this is the one whose
    [fetchChunks] collects through a live subscription and falls back to
    lookups by id; index and manifest resolution are the same in both. *)

Module Nostr.

(** A record received from a relay (the fields the code reads). *)
Record Event : Type := {
  id : string;
  created_at : Z;
  tags : list (list string);
  content : string
}.

Record Filter : Type := {
  kinds : list Z;
  authors : list string;
  tag_d : option (list string);      (* '#d' *)
  tag_x : option (list string);      (* '#x' *)
  ids : option (list string);
  limit : option Z
}.

(** What a run asks of the network, in order. *)
Inductive NetOp : Type :=
| Query (relays : list string) (filter : Filter)
| Subscribe (call : nat) (relays : list string) (filter : Filter)
| Close (call : nat).

(** [SimplePool.querySync]. *)
Record Pool : Type := {
  querySync : list string -> Filter -> list Event
}.

(** [JSON.parse(content) as T]: [None] is the SyntaxError; a content that
    parses is taken to have the declared shape [T]. *)
Record Json : Type := {
  parseFileIndex : string -> option FileIndex.t;
  parseManifest : string -> option Manifest.t
}.

Inductive Error : Type :=
| UnsupportedIndexVersion (v : Z)      (* 'Unsupported index version ..' *)
| UnsupportedManifestVersion (v : Z)   (* 'Unsupported manifest version ..' *)
| ReduceOfEmptyArray.                  (* TypeError of reduce on [] *)

Definition getDTagForPage (page totalArchives : Z) : string :=
  if page =? 1 then D_TAGS.CURRENT_INDEX
  else
    let archiveNumber := totalArchives + 2 - page in
    D_TAGS.archiveTag archiveNumber.

(** [(a, b) => a.created_at > b.created_at ? a : b] *)
Definition newer (a b : Event) : Event :=
  if created_at a >? created_at b then a else b.

Definition indexFilter (pubkey dTag : string) : Filter :=
  {| kinds := [EVENT_KINDS.INDEX]; authors := [pubkey];
     tag_d := Some [dTag]; tag_x := None; ids := None; limit := Some 1 |}.

(** The part both branches of [fetchFileIndex] share after the query:
    newest event, parse, version gate.  [None] is the [null] result. *)
Definition selectIndex (J : Json) (events : list Event)
    : result Error (option FileIndex.t) :=
  if (length events =? 0)%nat then Ok None
  else
    match reduce newer events with
    | None => Throw ReduceOfEmptyArray
    | Some event =>
        match parseFileIndex J (content event) with
        | None => Ok None
        | Some index =>
            if negb (FileIndex.version index =? 2)
            then Throw (UnsupportedIndexVersion (FileIndex.version index))
            else Ok (Some index)
        end
    end.

(** [fetchFileIndex(pool, relays, pubkey, 1)]: the branch [page === 1]. *)
Definition fetchFileIndex_current (J : Json) (pool : Pool) (relays : list string)
    (pubkey : string) : list NetOp * result Error (option FileIndex.t) :=
  let filter := indexFilter pubkey D_TAGS.CURRENT_INDEX in
  let events := querySync pool relays filter in
  ([Query relays filter], selectIndex J events).

(** [fetchFileIndex]; the recursive call of the archive branch is the
    branch above.  The first component lists the queries issued. *)
Definition fetchFileIndex (J : Json) (pool : Pool) (relays : list string)
    (pubkey : string) (page : Z) : list NetOp * result Error (option FileIndex.t) :=
  if page =? 1 then fetchFileIndex_current J pool relays pubkey
  else
    let '(ops, r) := fetchFileIndex_current J pool relays pubkey in
    match r with
    | Throw e => (ops, Throw e)
    | Ok None => (ops, Ok None)
    | Ok (Some currentIndex) =>
        let dTag := getDTagForPage page (FileIndex.total_archives currentIndex) in
        let filter := indexFilter pubkey dTag in
        let events := querySync pool relays filter in
        (ops ++ [Query relays filter], selectIndex J events)
    end.

Definition manifestFilters (pubkey fileHash : string) : list Filter :=
  [ {| kinds := [EVENT_KINDS.MANIFEST]; authors := [pubkey];
       tag_d := None; tag_x := Some [fileHash]; ids := None; limit := Some 1 |};
    {| kinds := [EVENT_KINDS.MANIFEST]; authors := [pubkey];
       tag_d := Some [fileHash]; tag_x := None; ids := None; limit := Some 1 |} ].

(** [for (const filter of filters) { events = await querySync(..);
    if (events.length > 0) break; }] *)
Fixpoint queryUntilFound (pool : Pool) (relays : list string) (filters : list Filter)
    (events : list Event) : list NetOp * list Event :=
  match filters with
  | [] => ([], events)
  | filter :: rest =>
      let events := querySync pool relays filter in
      if (0 <? length events)%nat then ([Query relays filter], events)
      else
        let '(ops, events) := queryUntilFound pool relays rest events in
        (Query relays filter :: ops, events)
  end.

(** After the loop of [fetchManifest]: newest event, parse, version gate. *)
Definition selectManifest (J : Json) (events : list Event)
    : result Error (option Manifest.t) :=
  if (length events =? 0)%nat then Ok None
  else
    match reduce newer events with
    | None => Throw ReduceOfEmptyArray
    | Some event =>
        match parseManifest J (content event) with
        | None => Ok None
        | Some manifest =>
            if negb (Manifest.version manifest =? 2)
            then Throw (UnsupportedManifestVersion (Manifest.version manifest))
            else Ok (Some manifest)
        end
    end.

Definition fetchManifest (J : Json) (pool : Pool) (relays : list string)
    (pubkey fileHash : string) : list NetOp * result Error (option Manifest.t) :=
  let '(ops, events) := queryUntilFound pool relays (manifestFilters pubkey fileHash) [] in
  (ops, selectManifest J events).

(** **** [fetchChunks]

    [fetchChunks] is an [async] function over a module-level cache, so
    several invocations interleave at their [await]s.  Each invocation is
    a record of its arguments, its closure variables and the [await] it
    is suspended at; a step runs one invocation from one [await] to the
    next, as the event loop does. *)

Module ChunkEvent.
Record t : Type := {
  index : Z;
  content : string;
  encryption : string
}.
End ChunkEvent.

(** [inFlight] holds a promise: it is named by the invocation whose
    [fetchPromise] it is. *)
Record ChunkCacheEntry : Type := {
  chunksByIndex : JsMap.t ChunkEvent.t;
  inFlight : option nat
}.

Definition CHUNK_ID_BATCH_SIZE : Z := 200.

(** [tags.find(t => t[0] === name)] *)
Definition findTag (name : string) (tags : list (list string)) : option (list string) :=
  find (fun t => bool_decide (head t = Some name)) tags.

(** A string used as a condition: [undefined] and [''] are falsy. *)
Definition truthy (s : option string) : option string :=
  match s with
  | Some EmptyString => None
  | _ => s
  end.

Definition parseChunkIndexFromTags (tags : list (list string)) : option Z :=
  let chunkTag := findTag "chunk" tags in
  match truthy (chunkTag ≫= (.!! 1%nat)) ≫= parseInt with
  | Some index => Some index
  | None =>
      match truthy (findTag "d" tags ≫= (.!! 1%nat)) with
      | None => None
      | Some dTag =>
          let parts := split ":" dTag in
          last parts ≫= parseInt
      end
  end.

(** [encryptionTag?.[1] || 'none'] *)
Definition encryptionOf (tags : list (list string)) : string :=
  default "none"%string (truthy (findTag "encryption" tags ≫= (.!! 1%nat))).

(** The arguments of an invocation. *)
Record Args : Type := {
  relays : list string;
  pubkey : string;
  fileHash : string;
  totalChunks : Z;
  chunkInfos : list ChunkInfo.t
}.

Definition cacheKey (a : Args) : string := (pubkey a ++ ":" ++ fileHash a)%string.

(** Its closure variables; [progress] lists the calls of [onProgress]. *)
Record Locals : Type := {
  l_chunksByIndex : JsMap.t ChunkEvent.t;
  seenEventIds : gset string;
  progress : list (Z * Z)
}.

(** The [await] an invocation is suspended at, or how it ended. *)
Inductive Phase : Type :=
| Waiting (p : nat)
    (* await cached.inFlight *)
| Streaming (startTime lastActivity lastSize : Z)
    (* the sleep of the polling loop; the subscription is open *)
| Fallback (indexByEventId : gmap string Z) (batches : list (list string))
    (* await pool.querySync of the first batch of [batches] *)
| Returned (chunks : list ChunkEvent.t)
| Rejected.

Record Call : Type := {
  args : Args;
  locals : Locals;
  phase : Phase
}.

Record World : Type := {
  chunkCache : gmap string ChunkCacheEntry;
  calls : list Call;
  net : list NetOp
}.

(** The module has just been loaded. *)
Definition init : World := {| chunkCache := ∅; calls := []; net := [] |}.

(** [Array.from(m.values()).sort((a, b) => a.index - b.index)] *)
Definition sortedChunks (m : JsMap.t ChunkEvent.t) : list ChunkEvent.t :=
  sort (fun a b => ChunkEvent.index a - ChunkEvent.index b) (JsMap.values m).

(** [if (!chunksByIndex.has(index)) { .. }] of both handlers. *)
Definition addChunk (a : Args) (index : Z) (event : Event)
    (st : Locals * gmap string ChunkCacheEntry) : Locals * gmap string ChunkCacheEntry :=
  let '(l, cache) := st in
  if JsMap.has index (l_chunksByIndex l) then st
  else
    let chunk := {| ChunkEvent.index := index;
                    ChunkEvent.content := content event;
                    ChunkEvent.encryption := encryptionOf (tags event) |} in
    let m := JsMap.set index chunk (l_chunksByIndex l) in
    let cache :=
      match cache !! cacheKey a with
      | Some entry =>
          <[cacheKey a := {| chunksByIndex := JsMap.set index chunk (chunksByIndex entry);
                             inFlight := inFlight entry |}]> cache
      | None => cache
      end in
    ({| l_chunksByIndex := m;
        seenEventIds := seenEventIds l;
        progress := progress l ++ [(JsMap.size m, totalChunks a)] |},
     cache).

Definition markSeen (event : Event) (l : Locals) : Locals :=
  {| l_chunksByIndex := l_chunksByIndex l;
     seenEventIds := {[id event]} ∪ seenEventIds l;
     progress := progress l |}.

(** The [onevent] handler of the subscription. *)
Definition onevent (a : Args) (event : Event)
    (st : Locals * gmap string ChunkCacheEntry) : Locals * gmap string ChunkCacheEntry :=
  let '(l, cache) := st in
  if bool_decide (id event ∈ seenEventIds l) then st
  else
    let l := markSeen event l in
    match parseChunkIndexFromTags (tags event) with
    | None => (l, cache)
    | Some index => addChunk a index event (l, cache)
    end.

(** The body of [for (const event of events)] in the fallback. *)
Definition onFallbackEvent (a : Args) (indexByEventId : gmap string Z)
    (st : Locals * gmap string ChunkCacheEntry) (event : Event)
    : Locals * gmap string ChunkCacheEntry :=
  let '(l, cache) := st in
  if bool_decide (id event ∈ seenEventIds l) then st
  else
    let l := markSeen event l in
    let parsedIndex := parseChunkIndexFromTags (tags event) in
    let index :=
      match parsedIndex with
      | Some i => Some i
      | None => indexByEventId !! id event
      end in
    match index with
    | None => (l, cache)
    | Some index => addChunk a index event (l, cache)
    end.

Definition buildIndexByEventId (infos : list ChunkInfo.t) : gmap string Z :=
  fold_left
    (fun m info =>
       if bool_decide (ChunkInfo.event_id info = EmptyString) then m
       else <[ChunkInfo.event_id info := ChunkInfo.index info]> m)
    infos ∅.

(** [for (let i = 0; i < totalChunks; i++) if (!chunksByIndex.has(i)) ..] *)
Definition missingIndices (total : Z) (m : JsMap.t ChunkEvent.t) : list Z :=
  List.filter (fun i => negb (JsMap.has i m)) (map Z.of_nat (seq 0 (Z.to_nat total))).

Definition missingIds (infos : list ChunkInfo.t) (missing : list Z) : list string :=
  omap
    (fun index =>
       truthy (ChunkInfo.event_id <$> find (fun c => ChunkInfo.index c =? index) infos))
    missing.

(** [for (let i = 0; i < ids.length; i += CHUNK_ID_BATCH_SIZE)
      ids.slice(i, i + CHUNK_ID_BATCH_SIZE)] *)
Definition idBatches (ids : list string) : list (list string) :=
  let len := Z.of_nat (length ids) in
  let starts :=
    map (fun k => Z.of_nat k * CHUNK_ID_BATCH_SIZE)
        (seq 0 (Z.to_nat ((len + CHUNK_ID_BATCH_SIZE - 1) / CHUNK_ID_BATCH_SIZE))) in
  map (fun i => slice ids i (i + CHUNK_ID_BATCH_SIZE)) starts.

Definition subscriptionFilter (a : Args) : Filter :=
  {| kinds := [EVENT_KINDS.CHUNK]; authors := [pubkey a];
     tag_d := None; tag_x := Some [fileHash a]; ids := None; limit := None |}.

Definition batchFilter (a : Args) (batch : list string) : Filter :=
  {| kinds := [EVENT_KINDS.CHUNK]; authors := [pubkey a];
     tag_d := None; tag_x := None; ids := Some batch; limit := None |}.

(** [current.inFlight = undefined] *)
Definition clearInFlight (key : string) (cache : gmap string ChunkCacheEntry)
    : gmap string ChunkCacheEntry :=
  match cache !! key with
  | Some current =>
      <[key := {| chunksByIndex := chunksByIndex current; inFlight := None |}]> cache
  | None => cache
  end.

(** What one invocation does between two [await]s: its new state, the
    cache and the network log. *)
Definition Outcome : Type := Call * gmap string ChunkCacheEntry * list NetOp.

(** [fetchPromise] is fulfilled: the [finally] clears the marker and the
    sorted chunks are returned. *)
Definition finish (a : Args) (l : Locals) (cache : gmap string ChunkCacheEntry)
    (ops : list NetOp) : Outcome :=
  ({| args := a; locals := l; phase := Returned (sortedChunks (l_chunksByIndex l)) |},
   clearInFlight (cacheKey a) cache, ops).

(** [fetchPromise] is rejected: the [finally] clears the marker and the
    error propagates. *)
Definition fail (a : Args) (l : Locals) (cache : gmap string ChunkCacheEntry)
    (ops : list NetOp) : Outcome :=
  ({| args := a; locals := l; phase := Rejected |},
   clearInFlight (cacheKey a) cache, ops).

(** After the polling loop: [sub.close()], then the fallback by id up to
    its first [await], or the end of the collection. *)
Definition afterStream (me : nat) (a : Args) (l : Locals)
    (cache : gmap string ChunkCacheEntry) (ops : list NetOp) : Outcome :=
  let ops := ops ++ [Close me] in
  if JsMap.size (l_chunksByIndex l) <? totalChunks a then
    let indexByEventId := buildIndexByEventId (chunkInfos a) in
    let missing := missingIndices (totalChunks a) (l_chunksByIndex l) in
    match idBatches (missingIds (chunkInfos a) missing) with
    | [] => finish a l cache ops
    | batch :: rest =>
        ({| args := a; locals := l; phase := Fallback indexByEventId (batch :: rest) |},
         cache, ops ++ [Query (relays a) (batchFilter a batch)])
    end
  else finish a l cache ops.

(** From [new Map(cached?.chunksByIndex ?? [])] to [await fetchPromise]:
    the subscription is opened and the marker set before anything else
    can run. *)
Definition startCollection (me : nat) (now : Z) (a : Args)
    (cache : gmap string ChunkCacheEntry) (ops : list NetOp) : Outcome :=
  let cached := cache !! cacheKey a in
  let m := default JsMap.empty (chunksByIndex <$> cached) in
  let l := {| l_chunksByIndex := m;
              seenEventIds := ∅;
              progress := if JsMap.size m >? 0 then [(JsMap.size m, totalChunks a)] else [] |} in
  let ops := ops ++ [Subscribe me (relays a) (subscriptionFilter a)] in
  let entry := {| chunksByIndex := default JsMap.empty (chunksByIndex <$> cached);
                  inFlight := Some me |} in
  let cache := <[cacheKey a := entry]> cache in
  if JsMap.size m <? totalChunks a then
    ({| args := a; locals := l; phase := Streaming now now 0 |}, cache, ops)
  else afterStream me a l cache ops.

(** [cached.chunksByIndex.size === totalChunks], and the sorted copy. *)
Definition cacheHit (a : Args) (cache : gmap string ChunkCacheEntry)
    : option (list ChunkEvent.t) :=
  match cache !! cacheKey a with
  | Some cached =>
      if JsMap.size (chunksByIndex cached) =? totalChunks a
      then Some (sortedChunks (chunksByIndex cached))
      else None
  | None => None
  end.

Definition noLocals : Locals :=
  {| l_chunksByIndex := JsMap.empty; seenEventIds := ∅; progress := [] |}.

(** The call itself, up to its first [await]. *)
Definition enter (me : nat) (now : Z) (a : Args)
    (cache : gmap string ChunkCacheEntry) (ops : list NetOp) : Outcome :=
  match cacheHit a cache with
  | Some chunks => ({| args := a; locals := noLocals; phase := Returned chunks |}, cache, ops)
  | None =>
      match cache !! cacheKey a ≫= inFlight with
      | Some p => ({| args := a; locals := noLocals; phase := Waiting p |}, cache, ops)
      | None => startCollection me now a cache ops
      end
  end.

(** After [await cached.inFlight]: the cache is read again. *)
Definition resume (me : nat) (now : Z) (a : Args)
    (cache : gmap string ChunkCacheEntry) (ops : list NetOp) : Outcome :=
  match cacheHit a cache with
  | Some chunks => ({| args := a; locals := noLocals; phase := Returned chunks |}, cache, ops)
  | None => startCollection me now a cache ops
  end.

(** [await cached.inFlight] throws when the awaited promise is rejected:
    the error propagates, the cache is not touched. *)
Definition rethrow (a : Args) (l : Locals) (cache : gmap string ChunkCacheEntry)
    (ops : list NetOp) : Outcome :=
  ({| args := a; locals := l; phase := Rejected |}, cache, ops).

Definition INACTIVITY_TIMEOUT : Z := 5000.
Definition MAX_TOTAL_TIMEOUT : Z := 300000.

(** One round of the polling loop, woken at time [now]. *)
Definition tick (me : nat) (now : Z) (a : Args) (l : Locals)
    (startTime lastActivity lastSize : Z)
    (cache : gmap string ChunkCacheEntry) (ops : list NetOp) : Outcome :=
  let size := JsMap.size (l_chunksByIndex l) in
  let '(lastActivity, lastSize) :=
    if size >? lastSize then (now, size) else (lastActivity, lastSize) in
  if now - lastActivity >? INACTIVITY_TIMEOUT then afterStream me a l cache ops
  else if now - startTime >? MAX_TOTAL_TIMEOUT then afterStream me a l cache ops
  else if size <? totalChunks a then
    ({| args := a; locals := l; phase := Streaming startTime lastActivity lastSize |},
     cache, ops)
  else afterStream me a l cache ops.

(** [pool.querySync] of the current batch has answered. *)
Definition queryDone (a : Args) (l : Locals) (indexByEventId : gmap string Z)
    (rest : list (list string)) (events : list Event)
    (cache : gmap string ChunkCacheEntry) (ops : list NetOp) : Outcome :=
  let '(l, cache) := fold_left (onFallbackEvent a indexByEventId) events (l, cache) in
  match rest with
  | [] => finish a l cache ops
  | batch :: _ =>
      ({| args := a; locals := l; phase := Fallback indexByEventId rest |},
       cache, ops ++ [Query (relays a) (batchFilter a batch)])
  end.

(** The subscription delivers a record while the loop sleeps. *)
Definition deliver (a : Args) (l : Locals) (event : Event)
    (startTime lastActivity lastSize : Z)
    (cache : gmap string ChunkCacheEntry) (ops : list NetOp) : Outcome :=
  let '(l, cache) := onevent a event (l, cache) in
  ({| args := a; locals := l; phase := Streaming startTime lastActivity lastSize |},
   cache, ops).

(** What the event loop runs next. *)
Inductive Label : Type :=
| LCall (now : Z) (a : Args)               (* fetchChunks(..) is called *)
| LEvent (c : nat) (event : Event)         (* the subscription of [c] delivers *)
| LTick (c : nat) (now : Z)                (* the sleep of [c] ends *)
| LQueryDone (c : nat) (events : list Event)
| LQueryFailed (c : nat)
| LResume (c : nat) (now : Z).             (* the promise [c] awaits is settled *)


Definition commit (w : World) (c : nat) (o : Outcome) : World :=
  let '(call, cache, ops) := o in
  {| chunkCache := cache; calls := <[c := call]> (calls w); net := ops |}.

(** One step; [None] when the label is not enabled. *)
Definition step (w : World) (lbl : Label) : option World :=
  match lbl with
  | LCall now a =>
      let me := length (calls w) in
      let '(call, cache, ops) := enter me now a (chunkCache w) (net w) in
      Some {| chunkCache := cache; calls := calls w ++ [call]; net := ops |}
  | LEvent c event =>
      call ← calls w !! c;
      match phase call with
      | Streaming st la ls =>
          Some (commit w c (deliver (args call) (locals call) event st la ls
                                    (chunkCache w) (net w)))
      | _ => None
      end
  | LTick c now =>
      call ← calls w !! c;
      match phase call with
      | Streaming st la ls =>
          Some (commit w c (tick c now (args call) (locals call) st la ls (chunkCache w) (net w)))
      | _ => None
      end
  | LQueryDone c events =>
      call ← calls w !! c;
      match phase call with
      | Fallback ibe (_ :: rest) =>
          Some (commit w c (queryDone (args call) (locals call) ibe rest events
                                      (chunkCache w) (net w)))
      | _ => None
      end
  | LQueryFailed c =>
      call ← calls w !! c;
      match phase call with
      | Fallback _ (_ :: _) =>
          Some (commit w c (fail (args call) (locals call) (chunkCache w) (net w)))
      | _ => None
      end
  | LResume c now =>
      call ← calls w !! c;
      match phase call with
      | Waiting p =>
          match phase <$> calls w !! p with
          | Some (Returned _) =>
              Some (commit w c (resume c now (args call) (chunkCache w) (net w)))
          | Some Rejected =>
              Some (commit w c (rethrow (args call) (locals call) (chunkCache w) (net w)))
          | _ => None
          end
      | _ => None
      end
  end.

Fixpoint run (w : World) (trace : list Label) : option World :=
  match trace with
  | [] => Some w
  | lbl :: rest => w' ← step w lbl; run w' rest
  end.

End Nostr.

(** *** lib/fileUtils.ts and components/DownloadModal.tsx: assembly

    Both functions are modelled from the point where [await fetchChunks]
    has returned [chunks]; [aborted] is the value of the abort flag from
    there on (no [await] follows, so it cannot change). *)

Module Assemble.

Inductive Error : Type :=
| Aborted                                     (* 'Aborted' *)
| MissingChunks (got total : Z)               (* 'Missing chunks: got ../..' *)
| InvalidBase64 (i : nat)                     (* atob throws on chunk i *)
| DecryptChunkFailed (i : nat) (e : Crypto.Error).
                                              (* 'Failed to decrypt chunk i: ..' *)

(** [chunks.map(f)] for an [f] that may throw; [i] is the index of the
    first element. *)
Fixpoint mapParts {E} (f : nat -> string -> result E (list byte)) (i : nat)
    (chunks : list Nostr.ChunkEvent.t) : result E (list (list byte)) :=
  match chunks with
  | [] => Ok []
  | chunk :: rest =>
      part ← f i (Nostr.ChunkEvent.content chunk);
      parts ← mapParts f (S i) rest;
      Ok (part :: parts)
  end.

(** [fileData.set(part, offset)] for every part, in order. *)
Definition reassemble (parts : list (list byte)) : list byte := concat parts.

(** [fetchFileBytes], from the abort check after [fetchChunks]. *)
Definition fetchFileBytes (aborted : bool) (manifest : Manifest.t)
    (chunks : list Nostr.ChunkEvent.t) : result Error (list byte) :=
  if aborted then Throw Aborted
  else if negb (Z.of_nat (length chunks) =? Manifest.total_chunks manifest)
  then Throw (MissingChunks (Z.of_nat (length chunks)) (Manifest.total_chunks manifest))
  else
    parts ← mapParts
               (fun i content =>
                  match Crypto.base64ToUint8Array content with
                  | Ok part => Ok part
                  | Throw _ => Throw (InvalidBase64 i)
                  end)
               0%nat chunks;
    Ok (reassemble parts).

(** How [downloadEncrypted] leaves the dialog. *)
Inductive Status : Type :=
| Fetching                          (* the state it had while fetching *)
| Decrypting (done total : nat)
| Complete
| Failed (e : Error).

(** The last [setState] and the argument of [triggerDownload], if it is
    called. *)
Record Download : Type := {
  status : Status;
  saved : option (list byte)
}.

(** The loop [for (let i = 0; i < chunks.length; i++)]: the decrypted
    parts, or the state of the early [return]. *)
Fixpoint decryptLoop (P : Crypto.Primitives) (aborted : bool)
    (secretKey : list byte) (pubkey : string) (total : nat) (i : nat)
    (chunks : list Nostr.ChunkEvent.t) (current : Status)
    : Status + list (list byte) :=
  match chunks with
  | [] => inr []
  | chunk :: rest =>
      if aborted then inl current
      else
        match Crypto.decryptChunkBinary P (Nostr.ChunkEvent.content chunk) secretKey pubkey with
        | Throw e => inl (Failed (DecryptChunkFailed i e))
        | Ok decrypted =>
            match decryptLoop P aborted secretKey pubkey total (S i) rest
                              (Decrypting (S i) total) with
            | inl s => inl s
            | inr parts => inr (decrypted :: parts)
            end
        end
  end.

(** [downloadEncrypted], from the abort check after [fetchChunks]. *)
Definition downloadEncrypted (P : Crypto.Primitives) (aborted : bool)
    (secretKey : list byte) (pubkey : string) (manifest : Manifest.t)
    (chunks : list Nostr.ChunkEvent.t) : Download :=
  if aborted then {| status := Fetching; saved := None |}
  else if negb (Z.of_nat (length chunks) =? Manifest.total_chunks manifest)
  then {| status := Failed (MissingChunks (Z.of_nat (length chunks))
                                          (Manifest.total_chunks manifest));
          saved := None |}
  else
    match decryptLoop P aborted secretKey pubkey (length chunks) 0%nat chunks
                      (Decrypting 0 (length chunks)) with
    | inl s => {| status := s; saved := None |}
    | inr decryptedParts =>
        {| status := Complete; saved := Some (reassemble decryptedParts) |}
    end.

End Assemble.

(** *** String and object built-ins of the file-name helpers *)

Module JsString.

(** [toLowerCase] of one code unit below 256: A-Z, and the Latin-1
    capitals U+00C0 to U+00DE except the multiplication sign U+00D7. *)
Definition lower (c : ascii) : ascii :=
  let n := code c in
  if ((65 <=? n) && (n <=? 90))
     || ((192 <=? n) && (n <=? 222) && negb (n =? 215))
  then char (n + 32)
  else c.

Definition toLowerCase (s : string) : string :=
  string_of_list_ascii (map lower (list_ascii_of_string s)).

(** [s.startsWith(p)] *)
Definition startsWith (s p : string) : bool := String.prefix p s.

(** [s.includes(p)] *)
Definition includes (s p : string) : bool :=
  match String.index 0 p s with
  | Some _ => true
  | None => false
  end.

End JsString.

(** An object literal whose own properties are strings, read with
    [obj[key]]: a key that is no own property is looked up in
    [Object.prototype], whose members are functions (and, for
    [__proto__], an object). *)
Module JsObject.

Inductive Value : Type :=
| Str (s : string)
| Inherited (name : string).

Definition objectPrototype : list string :=
  [ "constructor"; "__defineGetter__"; "__defineSetter__"; "hasOwnProperty";
    "__lookupGetter__"; "__lookupSetter__"; "isPrototypeOf";
    "propertyIsEnumerable"; "toString"; "valueOf"; "__proto__";
    "toLocaleString" ]%string.

Definition get (own : list (string * string)) (key : string) : option Value :=
  match find (fun p => String.eqb (fst p) key) own with
  | Some p => Some (Str (snd p))
  | None =>
      if existsb (String.eqb key) objectPrototype then Some (Inherited key)
      else None
  end.

(** [v || null]: the empty string is falsy, a function or an object is
    truthy. *)
Definition orNull (v : option Value) : option Value :=
  match v with
  | Some (Str EmptyString) => None
  | _ => v
  end.

End JsObject.

(** *** lib/fileUtils.ts: the whole of [fetchFileBytes]

    [fetchChunks] is a parameter here: the value its promise settles to
    for the arguments it is called with, [None] when it rejects.
    [aborted n] is the value of [abortSignal?.aborted] at the [n]-th place
    that reads it. *)

Module FileUtils.

Import JsObject.

(** [DEFAULT_INDEX_RELAYS] of lib/nostr.ts. *)
Definition DEFAULT_INDEX_RELAYS : list string :=
  [ "wss://nos.lol"; "wss://relay.nostr.net"; "wss://relay.primal.net";
    "wss://relay.snort.social" ]%string.

Definition mimeTypes : list (string * string) :=
  [ ("jpg", "image/jpeg"); ("jpeg", "image/jpeg"); ("png", "image/png");
    ("gif", "image/gif"); ("webp", "image/webp"); ("svg", "image/svg+xml");
    ("mp4", "video/mp4"); ("webm", "video/webm"); ("mp3", "audio/mpeg");
    ("aac", "audio/aac"); ("m4a", "audio/mp4"); ("wav", "audio/wav");
    ("ogg", "audio/ogg"); ("pdf", "application/pdf"); ("txt", "text/plain");
    ("md", "text/markdown"); ("json", "application/json");
    ("js", "text/javascript"); ("ts", "text/typescript"); ("css", "text/css");
    ("html", "text/html") ]%string.

(** [fileName.split('.').pop()?.toLowerCase()], then [map[ext] || null]. *)
Definition getMimeTypeFromName (fileName : string) : option Value :=
  match Nostr.truthy (JsString.toLowerCase <$> last (split "." fileName)) with
  | None => None
  | Some ext => orNull (get mimeTypes ext)
  end.

Record FileFetchResult : Type := {
  data : list byte;
  mimeType : Value;
  fileName : string
}.

Inductive Error : Type :=
| ManifestNotFound                     (* 'Manifest not found' *)
| ManifestFailed (e : Nostr.Error)     (* thrown by fetchManifest *)
| ChunksFailed                         (* fetchChunks rejects *)
| Thrown (e : Assemble.Error).         (* 'Aborted', 'Missing chunks: ..', atob *)

(** What the function does with the pool it creates. *)
Inductive PoolOp : Type :=
| CreatePool
| Net (op : Nostr.NetOp)
| FetchChunks (a : Nostr.Args)
| ClosePool (relays : list string).

(** [manifest.relays?.length > 0 ? manifest.relays : DEFAULT_INDEX_RELAYS] *)
Definition dataRelays (manifest : Manifest.t) : list string :=
  if (0 <? length (Manifest.relays manifest))%nat then Manifest.relays manifest
  else DEFAULT_INDEX_RELAYS.

(** [manifest.mime_type || getMimeTypeFromName(manifest.file_name)
     || 'application/octet-stream'] *)
Definition mimeTypeOf (manifest : Manifest.t) : Value :=
  match Nostr.truthy (Manifest.mime_type manifest) with
  | Some mime_type => Str mime_type
  | None =>
      default (Str "application/octet-stream")
              (getMimeTypeFromName (Manifest.file_name manifest))
  end.

Definition fetchFileBytes (J : Nostr.Json) (pool : Nostr.Pool)
    (fetchChunks : Nostr.Args -> option (list Nostr.ChunkEvent.t))
    (aborted : nat -> bool) (pubkey fileHash : string)
    : list PoolOp * result Error FileFetchResult :=
  if aborted 0%nat then ([], Throw (Thrown Assemble.Aborted))
  else
    let '(queries, found) :=
      Nostr.fetchManifest J pool DEFAULT_INDEX_RELAYS pubkey fileHash in
    let ops := CreatePool :: map Net queries in
    let '(ops, outcome) :=
      match found with
      | Throw e => (ops, Throw (ManifestFailed e))
      | Ok None => (ops, Throw ManifestNotFound)
      | Ok (Some manifest) =>
          if aborted 1%nat then (ops, Throw (Thrown Assemble.Aborted))
          else
            let a := {| Nostr.relays := dataRelays manifest;
                        Nostr.pubkey := pubkey;
                        Nostr.fileHash := fileHash;
                        Nostr.totalChunks := Manifest.total_chunks manifest;
                        Nostr.chunkInfos := Manifest.chunks manifest |} in
            let ops := ops ++ [FetchChunks a] in
            match fetchChunks a with
            | None => (ops, Throw ChunksFailed)
            | Some chunks =>
                match Assemble.fetchFileBytes (aborted 2%nat) manifest chunks with
                | Throw e => (ops, Throw (Thrown e))
                | Ok fileData =>
                    (ops, Ok {| data := fileData;
                                mimeType := mimeTypeOf manifest;
                                fileName := Manifest.file_name manifest |})
                end
            end
      end in
    (* finally *)
    (ops ++ [ClosePool DEFAULT_INDEX_RELAYS], outcome).

End FileUtils.

(** *** components/FileDetail.tsx: what can be previewed *)

Module FileDetail.

Import JsObject JsString.

Definition MAX_PREVIEW_BYTES : Z := 5 * 1024 * 1024.

Definition mimeTypes : list (string * string) :=
  [ ("jpg", "image/jpeg"); ("jpeg", "image/jpeg"); ("png", "image/png");
    ("gif", "image/gif"); ("webp", "image/webp"); ("svg", "image/svg+xml");
    ("mp4", "video/mp4"); ("webm", "video/webm"); ("mp3", "audio/mpeg");
    ("wav", "audio/wav"); ("ogg", "audio/ogg"); ("pdf", "application/pdf");
    ("txt", "text/plain"); ("md", "text/markdown"); ("json", "application/json");
    ("js", "text/javascript"); ("ts", "text/typescript"); ("css", "text/css");
    ("html", "text/html") ]%string.

Definition getMimeTypeFromName (fileName : string) : option Value :=
  match Nostr.truthy (toLowerCase <$> last (split "." fileName)) with
  | None => None
  | Some ext => orNull (get mimeTypes ext)
  end.

(** Calling [startsWith] on a value that is no string. *)
Inductive TypeError : Type :=
| NotAFunction.

Definition isPreviewableMime (mimeType : Value) : result TypeError bool :=
  match mimeType with
  | Str EmptyString => Ok false
  | Str s =>
      Ok (startsWith s "image/" || startsWith s "text/" || startsWith s "video/"
          || startsWith s "audio/" || String.eqb s "application/pdf"
          || String.eqb s "application/json" || includes s "javascript")
  | Inherited _ => Throw NotAFunction
  end.

(** [manifest.mime_type || getMimeTypeFromName(manifest.file_name) || ''] *)
Definition mimeTypeGuess (manifest : Manifest.t) : Value :=
  match Nostr.truthy (Manifest.mime_type manifest) with
  | Some mime_type => Str mime_type
  | None => default (Str "") (getMimeTypeFromName (Manifest.file_name manifest))
  end.

(** The memo [isPreviewable] for a manifest that has been loaded. *)
Definition isPreviewable (manifest : Manifest.t) : result TypeError bool :=
  if String.eqb (Manifest.encryption manifest) "nip44" then Ok false
  else if Manifest.file_size manifest >? MAX_PREVIEW_BYTES then Ok false
  else isPreviewableMime (mimeTypeGuess manifest).

End FileDetail.

(** *** components/FileList.tsx: the pager *)

Module FileList.

(** [index ? index.total_archives + 1 : 1] *)
Definition totalPages (index : option FileIndex.t) : Z :=
  match index with
  | Some index => FileIndex.total_archives index + 1
  | None => 1
  end.

(** The buttons "Newer" and "Older": [Math.max(1, p - 1)] and
    [Math.min(totalPages, p + 1)]. *)
Definition newerPage (p : Z) : Z := Z.max 1 (p - 1).

Definition olderPage (totalPages p : Z) : Z := Z.min totalPages (p + 1).

Inductive Click : Type :=
| Newer
| Older.

Definition click (totalPages p : Z) (b : Click) : Z :=
  match b with
  | Newer => newerPage p
  | Older => olderPage totalPages p
  end.

(** The state of the component once a load has ended: the page, and the
    index on display ([null] while an error is shown). *)
Record State : Type := {
  page : Z;
  index : option FileIndex.t
}.

(** What [loadIndex(pageNum)] hands to [setIndex]: the result of
    [fetchFileIndex], and [null] when it finds nothing or throws. *)
Definition loadIndex (J : Nostr.Json) (pool : Nostr.Pool) (pubkey : string)
    (pageNum : Z) : option FileIndex.t :=
  match snd (Nostr.fetchFileIndex J pool FileUtils.DEFAULT_INDEX_RELAYS pubkey pageNum) with
  | Ok (Some result) => Some result
  | Ok None | Throw _ => None
  end.

(** [useState(1)] and the first run of the effect. *)
Definition mount (J : Nostr.Json) (pool : Nostr.Pool) (pubkey : string) : State :=
  {| page := 1; index := loadIndex J pool pubkey 1 |}.

(** A click on a button of the pager.  The pager is rendered when an
    index is on display and [totalPages > 1], with [totalPages] computed
    from that index; a [setPage] that leaves the page as it is renders
    nothing anew; otherwise the effect loads the new page. *)
Definition press (J : Nostr.Json) (pool : Nostr.Pool) (pubkey : string)
    (s : State) (b : Click) : State :=
  match index s with
  | None => s
  | Some shown =>
      if totalPages (Some shown) >? 1 then
        let p := click (totalPages (Some shown)) (page s) b in
        if p =? page s then s
        else {| page := p; index := loadIndex J pool pubkey p |}
      else s
  end.

End FileList.

(** *** lib/nostr.ts, the revision without cache

    In this revision [fetchChunks] keeps no cache and opens no
    subscription: it asks for the manifest's event ids in batches, then
    for the records tagged with the content hash.  Its loop bodies are the
    handlers above, run on an empty cache. *)

Module NostrQuery.

Import Nostr.

(** [Array.from(indexByEventId.keys())]: the keys of a [Map], in the
    order of their first insertion. *)
Definition eventIds (infos : list ChunkInfo.t) : list string :=
  fold_left
    (fun ids info =>
       let event_id := ChunkInfo.event_id info in
       if bool_decide (event_id = EmptyString) then ids
       else if bool_decide (event_id ∈ ids) then ids
       else ids ++ [event_id])
    infos [].

(** One round of [for (let i = 0; i < ids.length; i += CHUNK_ID_BATCH_SIZE)]. *)
Definition queryBatch (pool : Pool) (a : Args) (indexByEventId : gmap string Z)
    (st : list NetOp * Locals) (batch : list string) : list NetOp * Locals :=
  let '(ops, l) := st in
  let filter := batchFilter a batch in
  let events := querySync pool (relays a) filter in
  (ops ++ [Query (relays a) filter],
   fst (fold_left (onFallbackEvent a indexByEventId) events (l, ∅))).

(** The queries issued, the closure variables at the end and the chunks
    returned. *)
Definition fetchChunks (pool : Pool) (a : Args)
    : list NetOp * Locals * list ChunkEvent.t :=
  let indexByEventId := buildIndexByEventId (chunkInfos a) in
  let ids := eventIds (chunkInfos a) in
  let '(ops, l) :=
    if (0 <? length ids)%nat
    then fold_left (queryBatch pool a indexByEventId) (idBatches ids) ([], noLocals)
    else ([], noLocals) in
  let '(ops, l) :=
    if JsMap.size (l_chunksByIndex l) <? totalChunks a then
      let filter := subscriptionFilter a in
      let events := querySync pool (relays a) filter in
      (ops ++ [Query (relays a) filter],
       fst (fold_left (fun st event => onevent a event st) events (l, ∅)))
    else (ops, l) in
  (ops, l, sortedChunks (l_chunksByIndex l)).

(** The records the pool answers a list of queries with. *)
Definition answers (pool : Pool) (ops : list NetOp) : list Event :=
  concat (map (fun op =>
                 match op with
                 | Query relays filter => querySync pool relays filter
                 | _ => []
                 end) ops).

End NostrQuery.

(** *** Notions used to state further properties of [fetchChunks] *)

Module Runs.

Import Nostr.

(** The reports of [onProgress] so far are [first, first + 1, ..], each
    with the expected total, and the last one is the number of chunks the
    invocation holds. *)
Definition reportsOk (total : Z) (l : Locals) : Prop :=
  exists first n : nat,
    progress l = map (fun i => (Z.of_nat i, total)) (seq first n)
    /\ (1 <= first)%nat
    /\ JsMap.size (l_chunksByIndex l)
       = if (n =? 0)%nat then 0 else Z.of_nat (first + n - 1).

Definition isSubscribeOf (c : nat) (op : NetOp) : bool :=
  match op with
  | Subscribe c' _ _ => (c =? c')%nat
  | _ => false
  end.

Definition isCloseOf (c : nat) (op : NetOp) : bool :=
  match op with
  | Close c' => (c =? c')%nat
  | _ => false
  end.

(** How often invocation [c] has opened, and closed, a subscription. *)
Definition opened (c : nat) (ops : list NetOp) : nat :=
  length (List.filter (isSubscribeOf c) ops).

Definition closed (c : nat) (ops : list NetOp) : nat :=
  length (List.filter (isCloseOf c) ops).

(** The numbers of subscriptions opened and closed that go with the
    [await] an invocation is at ([None]: it has not been called). *)
Definition expected (at_ : option Phase) (nopened nclosed : nat) : Prop :=
  match at_ with
  | Some (Streaming _ _ _) => nopened = 1%nat /\ nclosed = 0%nat
  | Some (Fallback _ _) => nopened = 1%nat /\ nclosed = 1%nat
  | Some (Returned _) | Some Rejected => (nopened <= 1)%nat /\ nclosed = nopened
  | Some (Waiting _) | None => nopened = 0%nat /\ nclosed = 0%nat
  end.

Definition accounted (w : World) (c : nat) : Prop :=
  expected (phase <$> calls w !! c) (opened c (net w)) (closed c (net w)).

(** A look-up of one record of [kind] by [pubkey], sent to [relays]. *)
Definition scopedQuery (relays : list string) (kind : Z) (pubkey : string) (op : NetOp)
    : Prop :=
  match op with
  | Query r f =>
      r = relays /\ kinds f = [kind] /\ authors f = [pubkey]
      /\ limit f = Some 1 /\ ids f = None
  | _ => False
  end.

(** Every cache entry is still there, with at least the indices it had. *)
Definition grows (cache cache' : gmap string ChunkCacheEntry) : Prop :=
  forall key entry,
    cache !! key = Some entry ->
    exists entry',
      cache' !! key = Some entry'
      /\ forall i, JsMap.has i (chunksByIndex entry) = true ->
                   JsMap.has i (chunksByIndex entry') = true.

(** [chunk] was built from [event]: its content and encryption are those
    of the record, and so is its index whenever the tags give one. *)
Definition derived (event : Event) (chunk : ChunkEvent.t) : Prop :=
  ChunkEvent.content chunk = content event
  /\ ChunkEvent.encryption chunk = encryptionOf (tags event)
  /\ forall i, parseChunkIndexFromTags (tags event) = Some i -> ChunkEvent.index chunk = i.

Definition received (events : list Event) (chunk : ChunkEvent.t) : Prop :=
  exists event, In event events /\ derived event chunk.

(** The records a step hands to the code. *)
Definition delivered (lbl : Label) : list Event :=
  match lbl with
  | LEvent _ event => [event]
  | LQueryDone _ events => events
  | _ => []
  end.

(** Every chunk in the cache, in a closure or in a result was built from
    one of [events]. *)
Definition sourcedMap (events : list Event) (m : JsMap.t ChunkEvent.t) : Prop :=
  Forall (received events) (JsMap.values m).

Definition sourcedCache (events : list Event) (cache : gmap string ChunkCacheEntry)
    : Prop :=
  forall key entry, cache !! key = Some entry -> sourcedMap events (chunksByIndex entry).

Definition sourcedCall (events : list Event) (c : Call) : Prop :=
  sourcedMap events (l_chunksByIndex (locals c))
  /\ match phase c with
     | Returned chunks => Forall (received events) chunks
     | _ => True
     end.

Definition sourced (events : list Event) (w : World) : Prop :=
  sourcedCache events (chunkCache w) /\ Forall (sourcedCall events) (calls w).

(** Three calls for the same file: the second and the third arrive while
    the first collects; the first gives up at [late]; then both resume. *)
Definition threeCalls (a : Args) (t0 t1 t2 late : Z) : list Label :=
  [ LCall t0 a; LCall t1 a; LCall t2 a; LTick 0 late; LResume 1 late; LResume 2 late ].

End Runs.

(** *** The specification's own definitions

    Written from the words of the specification, to be compared with the
    code above. *)

Module Spec.

(** "round n up to the next power of two p" *)
Definition nextPowerOfTwo (n : Z) : Z := 2 ^ Z.log2_up n.

(** "paddedLength(n) = 32 if n <= 32, otherwise [..] let bucket = p/8 if
    p > 256 else 32, and return bucket * floor((n-1)/bucket + 1)" *)
Definition paddedLength (n : Z) : Z :=
  if n <=? 32 then 32
  else
    let p := nextPowerOfTwo n in
    let bucket := if p >? 256 then p / 8 else 32 in
    bucket * ((n - 1) / bucket + 1).

(** The subkinds of [DecryptionFailure]. *)
Inductive DecryptionFailure : Type :=
| InvalidPayloadLength
| UnknownVersion
| InvalidBase64
| InvalidMac
| InvalidPadding.

(** The subkind a [throw] of the code stands for; [None] is an error
    outside the taxonomy. *)
Definition failureOf (e : Crypto.Error) : option DecryptionFailure :=
  match e with
  | Crypto.ErrPayloadLength _ | Crypto.ErrDataLength _ => Some InvalidPayloadLength
  | Crypto.ErrVersionMarker | Crypto.ErrVersion _ => Some UnknownVersion
  | Crypto.ErrBase64 => Some InvalidBase64
  | Crypto.ErrMac => Some InvalidMac
  | Crypto.ErrPadding => Some InvalidPadding
  | Crypto.ErrAadLength | Crypto.ErrPositiveInteger | Crypto.ErrRange
  | Crypto.ErrConversationKey => None
  end.

(** "the first 2 bytes of the padded buffer as a big-endian unsigned
    16-bit length" *)
Definition lengthPrefix (padded : list byte) : Z :=
  256 * byte_val (nth 0 padded x00) + byte_val (nth 1 padded x00).

(** Step 10. *)
Definition unpad (padded : list byte) : DecryptionFailure + list byte :=
  let L := lengthPrefix padded in
  let payload := firstn (Z.to_nat L) (skipn 2 padded) in
  if (1 <=? L) && (L <=? 65535)
     && (Z.of_nat (length payload) =? L)
     && (Z.of_nat (length padded) =? 2 + paddedLength L)
  then inr payload
  else inl InvalidPadding.

(** Steps 1 to 10 of the Decryptor, in order, for a conversation key
    that step 6 has derived. *)
Definition decrypt (P : Crypto.Primitives) (payload : string)
    (conversationKey : list byte) : DecryptionFailure + list byte :=
  let plen := Z.of_nat (String.length payload) in
  (* 1 *)
  if negb ((132 <=? plen) && (plen <=? 87472)) then inl InvalidPayloadLength
  (* 2 *)
  else if bool_decide (String.get 0 payload = Some "#"%char) then inl UnknownVersion
  else
    (* 3 *)
    match Crypto.base64_decode P payload with
    | None => inl InvalidBase64
    | Some data =>
        let dlen := Z.of_nat (length data) in
        (* 4 *)
        if negb ((99 <=? dlen) && (dlen <=? 65603)) then inl InvalidPayloadLength
        else
          (* 5 *)
          let nonce := firstn 32 (skipn 1 data) in
          let ciphertext := firstn (Z.to_nat (dlen - 65)) (skipn 33 data) in
          let tag := skipn (Z.to_nat (dlen - 32)) data in
          if negb (bool_decide (head data = Some x02)) then inl UnknownVersion
          else
            (* 7 *)
            let okm := Crypto.hkdfExpand P conversationKey nonce 76 in
            let cipherKey := firstn 32 okm in
            let cipherNonce := firstn 12 (skipn 32 okm) in
            let macKey := firstn 32 (skipn 44 okm) in
            (* 8 *)
            if negb (bool_decide (Crypto.hmac P macKey (nonce ++ ciphertext) = tag))
            then inl InvalidMac
            else
              (* 9, 10 *)
              unpad (Crypto.chacha20 P cipherKey cipherNonce ciphertext)
    end.

End Spec.

(** *** Notions used to state the properties of [fetchChunks] *)

Module Collect.

Import Nostr.

(** Strictly ascending chunk indices. *)
Definition ascending (a b : ChunkEvent.t) : Prop :=
  ChunkEvent.index a < ChunkEvent.index b.

(** Every chunk is filed under its own index, and no key occurs twice. *)
Definition wfMap (m : JsMap.t ChunkEvent.t) : Prop :=
  Forall (fun p => ChunkEvent.index (snd p) = fst p) m /\ NoDup (JsMap.keys m).

Definition wfCache (cache : gmap string ChunkCacheEntry) : Prop :=
  forall key entry, cache !! key = Some entry -> wfMap (chunksByIndex entry).



(** The state of a handler: the closure's map and the cache. *)
Definition wfState (st : Locals * gmap string ChunkCacheEntry) : Prop :=
  wfMap (l_chunksByIndex (fst st)) /\ wfCache (snd st).


(** The invocation has returned or thrown. *)
Definition finished (c : Call) : bool :=
  match phase c with
  | Returned _ | Rejected => true
  | _ => false
  end.

(** The subscription of the invocation is open. *)
Definition streaming (c : Call) : bool :=
  match phase c with
  | Streaming _ _ _ => true
  | _ => false
  end.

Definition live (w : World) : nat := length (List.filter streaming (calls w)).

(** The in-flight marker of a cache key. *)
Definition inFlightOf (cache : gmap string ChunkCacheEntry) (key : string) : option nat :=
  cache !! key ≫= inFlight.









End Collect.

(** *** Sample data

    Concrete primitives, payloads and events on which the properties
    below are instantiated.  The sample primitives are not the real
    ciphers: a constant tag, the identity as stream cipher. *)

Module Sample.

Definition primitives : Crypto.Primitives :=
  {| Crypto.base64_decode s :=
       match Crypto.base64ToUint8Array s with
       | Ok bytes => Some bytes
       | Throw _ => None
       end;
     Crypto.hkdfExpand _ _ n := repeat x00 (Z.to_nat n);
     Crypto.hmac _ _ := repeat x00 32;
     Crypto.chacha20 _ _ data := data;
     Crypto.getConversationKey secretKey _ := Some secretKey |}.

(** Version 2, a zero nonce, the padded one-byte plaintext "a", [tag]. *)
Definition envelope (tag : list byte) : string :=
  Crypto.uint8ArrayToBase64
    (x02 :: repeat x00 32 ++ (x00 :: x01 :: x61 :: repeat x00 31) ++ tag).

Definition sealed : string := envelope (repeat x00 32).

Definition tampered : string := envelope (repeat x00 31 ++ [x01]).

Definition decoded (payload : string) : Crypto.Payload :=
  match Crypto.decodePayload primitives payload with
  | Ok d => d
  | Throw _ => {| Crypto.nonce := []; Crypto.ciphertext := []; Crypto.mac := [] |}
  end.

(** A parser that reads only the version, and a relay set that holds a
    current index (twice), one archive and a version-1 manifest. *)
Definition json : Nostr.Json :=
  {| Nostr.parseFileIndex s :=
       (fun v => {| FileIndex.version := v; FileIndex.entries := [];
                    FileIndex.archive_number := 0; FileIndex.total_archives := 3 |})
         <$> parseInt s;
     Nostr.parseManifest s :=
       (fun v => {| Manifest.version := v; Manifest.file_name := "f";
                    Manifest.file_hash := "h"; Manifest.file_size := 0;
                    Manifest.chunk_size := 0; Manifest.total_chunks := 5;
                    Manifest.created_at := 0; Manifest.pubkey := "pk";
                    Manifest.encryption := "none"; Manifest.chunks := [];
                    Manifest.relays := []; Manifest.mime_type := None |})
         <$> parseInt s |}.

(** A parser that reads one number: the archive number of an index, the
    file size of a manifest.  Documents of version 2 that differ from
    record to record. *)
Definition numbered : Nostr.Json :=
  {| Nostr.parseFileIndex s :=
       (fun n => {| FileIndex.version := 2; FileIndex.entries := [];
                    FileIndex.archive_number := n; FileIndex.total_archives := 3 |})
         <$> parseInt s;
     Nostr.parseManifest s :=
       (fun n => {| Manifest.version := 2; Manifest.file_name := "f";
                    Manifest.file_hash := "h"; Manifest.file_size := n;
                    Manifest.chunk_size := 0; Manifest.total_chunks := 5;
                    Manifest.created_at := 0; Manifest.pubkey := "pk";
                    Manifest.encryption := "none"; Manifest.chunks := [];
                    Manifest.relays := []; Manifest.mime_type := None |})
         <$> parseInt s |}.

Definition record (id : string) (created_at : Z) (content : string) : Nostr.Event :=
  {| Nostr.id := id; Nostr.created_at := created_at; Nostr.tags := [];
     Nostr.content := content |}.

(** A parser that reads the number of archives, nothing else. *)
Definition totals : Nostr.Json :=
  {| Nostr.parseFileIndex s :=
       (fun n => {| FileIndex.version := 2; FileIndex.entries := [];
                    FileIndex.archive_number := 0; FileIndex.total_archives := n |})
         <$> parseInt s;
     Nostr.parseManifest _ := None |}.

(** Relays on which every page exists, and relays on which the current
    index counts one archive while the record of archive 1 counts five. *)
Definition everyPage : Nostr.Pool :=
  {| Nostr.querySync _ _ := [record "r" 1 "3"] |}.

Definition drifting : Nostr.Pool :=
  {| Nostr.querySync _ filter :=
       match Nostr.tag_d filter with
       | Some [d] =>
           if String.eqb d "nostrsave-index" then [record "i" 1 "1"]
           else if String.eqb d "nostrsave-index-archive-1" then [record "a" 1 "5"]
           else []
       | _ => []
       end |}.

Definition pool : Nostr.Pool :=
  {| Nostr.querySync _ filter :=
       match Nostr.tag_d filter, Nostr.tag_x filter with
       | Some [d], _ =>
           if String.eqb d "nostrsave-index"
           then [record "i1" 100 "2"; record "i2" 200 "2"]
           else if String.eqb d "nostrsave-index-archive-3" then [record "a3" 50 "1"]
           else []
       | _, Some [x] => if String.eqb x "h" then [record "m1" 10 "1"] else []
       | _, _ => []
       end |}.

(** The chunk records [(a,0), (b,1), (b,1), (c,2), (d,4)] of a file of
    five chunks, and a run in which they arrive before the subscription
    times out. *)
Definition chunkRecord (id index : string) : Nostr.Event :=
  {| Nostr.id := id; Nostr.created_at := 0;
     Nostr.tags := [["x"; "h"]; ["chunk"; index]];
     Nostr.content := ("content-" ++ id)%string |}.

Definition fiveChunks : Nostr.Args :=
  {| Nostr.relays := ["wss://relay"]; Nostr.pubkey := "pk"; Nostr.fileHash := "h";
     Nostr.totalChunks := 5; Nostr.chunkInfos := [] |}.

Definition collection : list Nostr.Label :=
  [ Nostr.LCall 0 fiveChunks;
    Nostr.LEvent 0 (chunkRecord "a" "0");
    Nostr.LEvent 0 (chunkRecord "b" "1");
    Nostr.LEvent 0 (chunkRecord "b" "1");
    Nostr.LTick 0 100;
    Nostr.LEvent 0 (chunkRecord "c" "2");
    Nostr.LEvent 0 (chunkRecord "d" "4");
    Nostr.LTick 0 200;
    Nostr.LTick 0 5300 ].

(** What the run returns to call 0. *)
Definition collected : list Nostr.ChunkEvent.t :=
  match Nostr.run Nostr.init collection with
  | Some w =>
      match Nostr.phase <$> Nostr.calls w !! 0%nat with
      | Some (Nostr.Returned chunks) => chunks
      | _ => []
      end
  | None => []
  end.

(** Two calls for the same file, the second while the first collects:
    the first times out with one chunk, then the second resumes. *)
Definition firstCall : list Nostr.Label :=
  [ Nostr.LCall 0 fiveChunks;
    Nostr.LEvent 0 (chunkRecord "a" "0") ].

Definition secondCall : list Nostr.Label :=
  [ Nostr.LCall 50 fiveChunks;
    Nostr.LTick 0 100;
    Nostr.LTick 0 5200;
    Nostr.LResume 1 5200 ].

Definition afterFirstCall : Nostr.World :=
  default Nostr.init (Nostr.run Nostr.init firstCall).

Definition afterSecondCall : Nostr.World :=
  default Nostr.init (Nostr.run afterFirstCall secondCall).

End Sample.

(** ** Part II: properties *)

(** *** Arrays and numbers *)

Lemma subarray_between {A} (l : list A) (b e : Z) :
  0 <= b <= e ->
  subarray l b (Some e) = firstn (Z.to_nat (e - b)) (skipn (Z.to_nat b) l).
Proof.
  intros Hbe. unfold subarray, rel_index.
  assert (Hb : (b <? 0) = false) by lia. assert (He : (e <? 0) = false) by lia.
  rewrite Hb, He.
  destruct (Z_le_gt_dec (Z.of_nat (length l)) b) as [Hlen | Hlen].
  - rewrite !(skipn_all2 l) by lia. now rewrite !firstn_nil.
  - replace (Z.min b (Z.of_nat (length l))) with b by lia.
    destruct (Z_le_gt_dec e (Z.of_nat (length l))) as [Hel | Hel].
    + now replace (Z.min e (Z.of_nat (length l))) with e by lia.
    + replace (Z.min e (Z.of_nat (length l))) with (Z.of_nat (length l)) by lia.
      rewrite !firstn_all2; [reflexivity | |]; rewrite length_skipn; lia.
Qed.

Lemma subarray_upto_tail {A} (l : list A) (b e : Z) :
  0 <= b -> e < 0 -> b - e <= Z.of_nat (length l) ->
  subarray l b (Some e)
  = firstn (length l - Z.to_nat (b - e)) (skipn (Z.to_nat b) l).
Proof.
  intros Hb He Hlen. unfold subarray, rel_index.
  assert (Hb' : (b <? 0) = false) by lia. assert (He' : (e <? 0) = true) by lia.
  rewrite Hb', He'.
  replace (Z.min b (Z.of_nat (length l))) with b by lia.
  f_equal. lia.
Qed.

Lemma subarray_tail {A} (l : list A) (b : Z) :
  b < 0 -> - b <= Z.of_nat (length l) ->
  subarray l b None = skipn (length l - Z.to_nat (- b)) l.
Proof.
  intros Hb Hlen. unfold subarray, rel_index.
  assert (Hb' : (b <? 0) = true) by lia. rewrite Hb'.
  replace (Z.to_nat (Z.max (Z.of_nat (length l) + b) 0))
    with (length l - Z.to_nat (- b))%nat by lia.
  apply firstn_all2. rewrite length_skipn. lia.
Qed.

Lemma byte_val_range (b : byte) : 0 <= byte_val b < 256.
Proof.
  unfold byte_val. pose proof (Byte.to_N_bounded b) as H. lia.
Qed.

Lemma shl_one (k : Z) : 0 <= k <= 30 -> shl 1 k = 2 ^ k.
Proof.
  intros Hk. unfold shl, ToInt32.
  rewrite (Z.mod_small k 32) by lia.
  change ((1 + 2 ^ 31) mod 2 ^ 32 - 2 ^ 31) with 1.
  rewrite Z.shiftl_1_l.
  assert (0 < 2 ^ k <= 2 ^ 30).
  { split; [apply Z.pow_pos_nonneg; lia | apply Z.pow_le_mono_r; lia]. }
  rewrite Z.mod_small; lia.
Qed.

(** *** The padded length *)

Lemma calcPaddedLen_paddedLength (n : Z) :
  1 <= n <= 2 ^ 30 -> Crypto.calcPaddedLen n = Ok (Spec.paddedLength n).
Proof.
  intros Hn. unfold Crypto.calcPaddedLen, Spec.paddedLength, isSafeInteger.
  assert (H1 : (Z.abs n <=? 2 ^ 53 - 1) = true) by lia.
  assert (H2 : (n <? 1) = false) by lia.
  rewrite H1, H2. cbn [negb orb].
  destruct (n <=? 32) eqn:H32; [reflexivity |].
  apply Z.leb_gt in H32.
  assert (Hup : Z.log2_up n = floor_log2 (n - 1) + 1).
  { unfold Z.log2_up, floor_log2. replace (1 ?= n) with Lt by (symmetry; apply Z.compare_lt_iff; lia).
    rewrite <- Z.sub_1_r. lia. }
  assert (Hk : 0 <= floor_log2 (n - 1) + 1 <= 30).
  { unfold floor_log2. pose proof (Z.log2_nonneg (n - 1)).
    assert (Z.log2 (n - 1) < 30) by (apply Z.log2_lt_pow2; lia). lia. }
  unfold Spec.nextPowerOfTwo. rewrite Hup, shl_one by exact Hk.
  set (p := 2 ^ (floor_log2 (n - 1) + 1)).
  destruct (p <=? 256) eqn:Hp.
  - replace (p >? 256) with false by lia. reflexivity.
  - replace (p >? 256) with true by lia. reflexivity.
Qed.

(** C1, as amended: the table of the specification with [paddedLength(500)
    = 512], and for every length from 1 to 2^30 the result of
    [calcPaddedLen] is the specification's formula: 32 up to 32, otherwise
    [bucket * floor((n-1)/bucket + 1)] with [bucket = p/8] when the power
    of two [p] that [n] rounds up to exceeds 256, and 32 otherwise. *)
Theorem calcPaddedLen_table_and_formula :
  Crypto.calcPaddedLen 1 = Ok 32
  /\ Crypto.calcPaddedLen 32 = Ok 32
  /\ Crypto.calcPaddedLen 33 = Ok 64
  /\ Crypto.calcPaddedLen 500 = Ok 512
  /\ forall n, 1 <= n <= 2 ^ 30 -> Crypto.calcPaddedLen n = Ok (Spec.paddedLength n).
Proof.
  repeat split; try reflexivity.
  apply calcPaddedLen_paddedLength.
Qed.

Lemma calcPaddedLen_table_and_formula_witness :
  1 <= 700 <= 2 ^ 30 /\ Crypto.calcPaddedLen 700 = Ok (Spec.paddedLength 700).
Proof.
  assert (H : 1 <= 700 <= 2 ^ 30) by lia.
  split; [exact H |].
  exact (proj2 (proj2 (proj2 (proj2 calcPaddedLen_table_and_formula))) 700 H).
Defined.

(** C1 as stated fails at 500: the code pads 500 bytes to 512, not 768. *)
Lemma calcPaddedLen_500_not_768 :
  Crypto.calcPaddedLen 500 = Ok 512 /\ Crypto.calcPaddedLen 500 <> Ok 768.
Proof.
  split; [reflexivity | discriminate].
Qed.

(** *** Unpadding *)

Lemma lengthPrefix_cons (hi lo : byte) (rest : list byte) :
  Spec.lengthPrefix (hi :: lo :: rest) = byte_val hi * 256 + byte_val lo.
Proof. unfold Spec.lengthPrefix. cbn [nth]. lia. Qed.

Lemma lengthPrefix_range (padded : list byte) : 0 <= Spec.lengthPrefix padded <= 65535.
Proof.
  unfold Spec.lengthPrefix.
  pose proof (byte_val_range (nth 0 padded x00)).
  pose proof (byte_val_range (nth 1 padded x00)). lia.
Qed.

(** On a buffer that holds its two length bytes, [unpadBytes] is step 10. *)
Lemma unpadBytes_unpad (padded : list byte) :
  (2 <= length padded)%nat ->
  Crypto.unpadBytes padded
  = match Spec.unpad padded with
    | inr payload => Ok payload
    | inl _ => Throw Crypto.ErrPadding
    end.
Proof.
  intros Hlen.
  destruct padded as [| hi [| lo rest]]; cbn [length] in Hlen; try lia.
  unfold Crypto.unpadBytes, Spec.unpad. cbn [getUint16].
  rewrite <- (lengthPrefix_cons hi lo rest).
  pose proof (lengthPrefix_range (hi :: lo :: rest)) as HL.
  set (L := Spec.lengthPrefix (hi :: lo :: rest)) in *.
  rewrite subarray_between by lia.
  replace (Z.to_nat (2 + L - 2)) with (Z.to_nat L) by lia.
  change (Z.to_nat 2) with 2%nat.
  set (payload := firstn (Z.to_nat L) (skipn 2 (hi :: lo :: rest))).
  unfold Crypto.MIN_PLAINTEXT_SIZE, Crypto.MAX_PLAINTEXT_SIZE.
  destruct (Z.ltb_spec L 1) as [H1 | H1].
  { replace (1 <=? L) with false by lia. reflexivity. }
  replace (1 <=? L) with true by lia.
  replace (L >? 65535) with false by lia.
  replace (L <=? 65535) with true by lia.
  cbn [orb andb].
  destruct (Z.of_nat (length payload) =? L); cbn [negb andb]; [| reflexivity].
  rewrite calcPaddedLen_paddedLength by lia.
  cbn [mbind result_bind Js.bind].
  destruct (Z.of_nat (length (hi :: lo :: rest)) =? 2 + Spec.paddedLength L); reflexivity.
Qed.

(** C3: on a padded buffer, which holds at least its two length bytes,
    [unpadBytes] reads them as a big-endian length [L] and returns exactly
    the [L] bytes that follow, provided [L] is in [1, 65535], the slice has
    [L] bytes and the buffer has [2 + paddedLength(L)] bytes; in every
    other case it fails with 'invalid padding'. *)
Theorem unpadBytes_correct (padded : list byte) :
  (2 <= length padded)%nat ->
  let L := Spec.lengthPrefix padded in
  let payload := firstn (Z.to_nat L) (skipn 2 padded) in
  let valid :=
    1 <= L <= 65535
    /\ Z.of_nat (length payload) = L
    /\ Z.of_nat (length padded) = 2 + Spec.paddedLength L in
  (valid -> Crypto.unpadBytes padded = Ok payload)
  /\ (~ valid -> Crypto.unpadBytes padded = Throw Crypto.ErrPadding).
Proof.
  intros Hlen L payload valid.
  rewrite (unpadBytes_unpad padded Hlen). unfold Spec.unpad.
  fold L. fold payload.
  destruct ((1 <=? L) && (L <=? 65535) && (Z.of_nat (length payload) =? L)
            && (Z.of_nat (length padded) =? 2 + Spec.paddedLength L)) eqn:Hb.
  - split; [reflexivity |]. intros Hn. exfalso. apply Hn. unfold valid. lia.
  - split; [| reflexivity]. intros Hv. exfalso. unfold valid in Hv. lia.
Qed.

Lemma unpadBytes_correct_witness :
  Crypto.unpadBytes (x00 :: x01 :: x61 :: repeat x00 31) = Ok [x61].
Proof.
  assert (Hlen : (2 <= length (x00 :: x01 :: x61 :: repeat x00 31))%nat)
    by (vm_compute; lia).
  apply (proj1 (unpadBytes_correct _ Hlen)).
  vm_compute. repeat split; discriminate.
Defined.

(** *** Decryption *)

Lemma to_N_inj (x y : byte) : Byte.to_N x = Byte.to_N y -> x = y.
Proof.
  intros H. pose proof (Byte.of_to_N x) as Hx. rewrite H, Byte.of_to_N in Hx.
  now inversion Hx.
Qed.

Lemma byte_val_inj (x y : byte) : byte_val x = byte_val y -> x = y.
Proof. unfold byte_val. intros H. apply to_N_inj. lia. Qed.

Lemma xor_fold_zero (a b : list byte) (d : N) :
  length a = length b ->
  fold_left (fun diff p => N.lor diff (N.lxor (Byte.to_N (fst p)) (Byte.to_N (snd p))))
            (combine a b) d = 0%N
  <-> d = 0%N /\ a = b.
Proof.
  revert b d. induction a as [| x a IH]; intros [| y b] d Hlen; try discriminate.
  - cbn. intuition.
  - cbn [combine fold_left fst snd]. injection Hlen as Hlen.
    rewrite (IH b _ Hlen), N.lor_eq_0_iff, N.lxor_eq_0_iff. split.
    + intros [[Hd Hxy] Hab]. apply to_N_inj in Hxy. now subst.
    + intros [Hd Hab]. injection Hab as -> ->. auto.
Qed.

Lemma equalBytes_eq (a b : list byte) : Crypto.equalBytes a b = true <-> a = b.
Proof.
  unfold Crypto.equalBytes.
  destruct (Nat.eqb_spec (length a) (length b)) as [Hlen | Hlen]; cbn [negb].
  - rewrite N.eqb_eq, (xor_fold_zero a b 0%N Hlen). intuition.
  - split; [discriminate | intros ->; contradiction].
Qed.

Lemma unpad_failure (padded : list byte) (k : Spec.DecryptionFailure) :
  Spec.unpad padded = inl k -> k = Spec.InvalidPadding.
Proof.
  unfold Spec.unpad. destruct (_ && _); [discriminate | congruence].
Qed.

(** The layout of a payload that [decodePayload] accepts. *)
Lemma decodePayload_layout (P : Crypto.Primitives) (payload : string) (d : Crypto.Payload) :
  Crypto.decodePayload P payload = Ok d ->
  exists data,
    132 <= Z.of_nat (String.length payload) <= 87472
    /\ String.get 0 payload <> Some "#"%char
    /\ Crypto.base64_decode P payload = Some data
    /\ 99 <= Z.of_nat (length data) <= 65603
    /\ head data = Some x02
    /\ Crypto.nonce d = firstn 32 (skipn 1 data)
    /\ Crypto.ciphertext d = firstn (Z.to_nat (Z.of_nat (length data) - 65)) (skipn 33 data)
    /\ Crypto.mac d = skipn (Z.to_nat (Z.of_nat (length data) - 32)) data.
Proof.
  unfold Crypto.decodePayload. cbv zeta.
  destruct (_ || _) eqn:Hp; [discriminate |].
  destruct (bool_decide _) eqn:Hm; [discriminate |].
  apply bool_decide_eq_false in Hm.
  destruct (Crypto.base64_decode P payload) as [data |]; [| discriminate].
  destruct ((Z.of_nat (length data) <? 99) || _) eqn:Hd; [discriminate |].
  destruct (bool_decide (option_map byte_val (head data) = Some 2)) eqn:Hv;
    cbn [negb]; [| discriminate].
  apply bool_decide_eq_true in Hv.
  intros [= <-]. exists data. cbn [Crypto.nonce Crypto.ciphertext Crypto.mac].
  assert (Hlen : 99 <= Z.of_nat (length data) <= 65603) by lia.
  split; [lia |]. split; [exact Hm |]. split; [reflexivity |]. split; [exact Hlen |].
  split; [| split; [| split]].
  - destruct data as [| b data]; [discriminate |]. cbn in Hv |- *.
    injection Hv as Hv. f_equal. apply byte_val_inj. rewrite Hv. reflexivity.
  - now rewrite subarray_between by lia.
  - rewrite subarray_upto_tail by lia. f_equal. lia.
  - rewrite subarray_tail by lia. f_equal. lia.
Qed.

Lemma getMessageKeys_layout (P : Crypto.Primitives) (ck nonce : list byte) :
  let okm := Crypto.hkdfExpand P ck nonce 76 in
  Crypto.getMessageKeys P ck nonce
  = {| Crypto.chacha_key := firstn 32 okm;
       Crypto.chacha_nonce := firstn 12 (skipn 32 okm);
       Crypto.hmac_key := firstn 32 (skipn 44 okm) |}.
Proof.
  cbv zeta. unfold Crypto.getMessageKeys.
  now rewrite !subarray_between by lia.
Qed.

(** A payload that [decodePayload] rejects fails at the first of steps 1
    to 5 that it violates. *)
Lemma decodePayload_rejects (P : Crypto.Primitives) (payload : string)
    (ck : list byte) (e : Crypto.Error) :
  Crypto.decodePayload P payload = Throw e ->
  exists k, Spec.failureOf e = Some k /\ Spec.decrypt P payload ck = inl k.
Proof.
  unfold Crypto.decodePayload, Spec.decrypt. cbv zeta.
  set (plen := Z.of_nat (String.length payload)).
  destruct ((plen <? 132) || (plen >? 87472)) eqn:Hp.
  { intros [= <-]. replace ((132 <=? plen) && (plen <=? 87472)) with false by lia.
    eexists; split; reflexivity. }
  replace ((132 <=? plen) && (plen <=? 87472)) with true by lia. cbn [negb].
  destruct (bool_decide (String.get 0 payload = Some "#"%char)).
  { intros [= <-]. eexists; split; reflexivity. }
  destruct (Crypto.base64_decode P payload) as [data |].
  2: { intros [= <-]. eexists; split; reflexivity. }
  set (dlen := Z.of_nat (length data)).
  destruct ((dlen <? 99) || (dlen >? 65603)) eqn:Hd.
  { intros [= <-]. replace ((99 <=? dlen) && (dlen <=? 65603)) with false by lia.
    eexists; split; reflexivity. }
  replace ((99 <=? dlen) && (dlen <=? 65603)) with true by lia. cbn [negb].
  destruct (bool_decide (option_map byte_val (head data) = Some 2)) eqn:Hv; cbn [negb];
    [discriminate |].
  intros [= <-]. apply bool_decide_eq_false in Hv.
  rewrite bool_decide_eq_false_2; [eexists; split; reflexivity |].
  intros Hh. apply Hv. now rewrite Hh.
Qed.

(** The code computes the ten steps of the Decryptor. *)
Lemma decryptNip44ToBytes_refines (P : Crypto.Primitives) (payload : string)
    (ck : list byte) :
  (forall key nonce data, length (Crypto.chacha20 P key nonce data) = length data) ->
  match Crypto.decryptNip44ToBytes P payload ck with
  | Ok plaintext => Spec.decrypt P payload ck = inr plaintext
  | Throw e => exists k, Spec.failureOf e = Some k /\ Spec.decrypt P payload ck = inl k
  end.
Proof.
  intros Hcipher. unfold Crypto.decryptNip44ToBytes.
  destruct (Crypto.decodePayload P payload) as [d | e] eqn:Hdec;
    cbn [mbind result_bind Js.bind].
  2: { now apply decodePayload_rejects. }
  destruct (decodePayload_layout P payload d Hdec)
    as (data & Hplen & Hmark & Hb64 & Hdlen & Hvers & Hn & Hc & Hm).
  assert (Hnlen : length (Crypto.nonce d) = 32%nat).
  { rewrite Hn, length_firstn, length_skipn. lia. }
  assert (Hclen : (34 <= length (Crypto.ciphertext d))%nat).
  { rewrite Hc, length_firstn, length_skipn. lia. }
  unfold Crypto.hmacAad. rewrite Hnlen. cbn [Nat.eqb negb mbind result_bind Js.bind].
  rewrite getMessageKeys_layout.
  cbn [Crypto.chacha_key Crypto.chacha_nonce Crypto.hmac_key].
  unfold Spec.decrypt. rewrite Hb64.
  replace ((132 <=? Z.of_nat (String.length payload))
           && (Z.of_nat (String.length payload) <=? 87472)) with true by lia.
  replace ((99 <=? Z.of_nat (length data)) && (Z.of_nat (length data) <=? 65603))
    with true by lia.
  rewrite (bool_decide_eq_false_2 _ Hmark), (bool_decide_eq_true_2 _ Hvers).
  cbn [negb]. rewrite <- Hn, <- Hc, <- Hm.
  set (okm := Crypto.hkdfExpand P ck (Crypto.nonce d) 76).
  set (tag := Crypto.hmac P (firstn 32 (skipn 44 okm)) (Crypto.nonce d ++ Crypto.ciphertext d)).
  destruct (Crypto.equalBytes tag (Crypto.mac d)) eqn:Heq; cbn [negb].
  - apply equalBytes_eq in Heq. rewrite (bool_decide_eq_true_2 _ Heq). cbn [negb].
    rewrite unpadBytes_unpad by (rewrite Hcipher; lia).
    destruct (Spec.unpad _) as [k | plaintext] eqn:Hu; [| reflexivity].
    apply unpad_failure in Hu. subst k. eexists; split; reflexivity.
  - rewrite bool_decide_eq_false_2.
    + eexists; split; reflexivity.
    + intros Ht. apply equalBytes_eq in Ht. congruence.
Qed.

(** A payload that decrypts carries the tag the code computes. *)
Lemma decrypt_ok_mac (P : Crypto.Primitives) (payload : string) (ck : list byte)
    (d : Crypto.Payload) (plaintext : list byte) :
  Crypto.decodePayload P payload = Ok d ->
  Crypto.decryptNip44ToBytes P payload ck = Ok plaintext ->
  Crypto.mac d
  = Crypto.hmac P (Crypto.hmac_key (Crypto.getMessageKeys P ck (Crypto.nonce d)))
                (Crypto.nonce d ++ Crypto.ciphertext d).
Proof.
  intros Hdec. unfold Crypto.decryptNip44ToBytes. rewrite Hdec.
  cbn [mbind result_bind Js.bind]. unfold Crypto.hmacAad.
  destruct (negb (length (Crypto.nonce d) =? 32)%nat); cbn [mbind result_bind Js.bind];
    [discriminate |].
  destruct (Crypto.equalBytes _ _) eqn:Heq; cbn [negb]; [| discriminate].
  intros _. symmetry. now apply equalBytes_eq.
Qed.

(** C2: whatever the payload, [decryptNip44ToBytes] ends as the ten
    ordered steps of the Decryptor end: it returns the plaintext when all
    of them pass, and otherwise throws the error of the first step that
    fails, which is always one of the five [DecryptionFailure] subkinds;
    a decoded payload whose stored tag differs from
    HMAC-SHA256(MAC key, nonce || ciphertext) gets 'invalid MAC', never a
    plaintext; so does a payload that differs only in its tag from one
    that decrypts; and [decryptChunkBinary] is [decryptNip44ToBytes] under
    the conversation key of its two keys.  The stream cipher is assumed
    to preserve lengths. *)
Theorem decrypt_failure_order (P : Crypto.Primitives) (payload : string) (ck : list byte) :
  (forall key nonce data, length (Crypto.chacha20 P key nonce data) = length data) ->
  match Crypto.decryptNip44ToBytes P payload ck with
  | Ok plaintext => Spec.decrypt P payload ck = inr plaintext
  | Throw e => exists k, Spec.failureOf e = Some k /\ Spec.decrypt P payload ck = inl k
  end
  /\ (forall d,
        Crypto.decodePayload P payload = Ok d ->
        Crypto.mac d
        <> Crypto.hmac P (Crypto.hmac_key (Crypto.getMessageKeys P ck (Crypto.nonce d)))
                       (Crypto.nonce d ++ Crypto.ciphertext d) ->
        Crypto.decryptNip44ToBytes P payload ck = Throw Crypto.ErrMac)
  /\ (forall original d0 d plaintext,
        Crypto.decodePayload P original = Ok d0 ->
        Crypto.decryptNip44ToBytes P original ck = Ok plaintext ->
        Crypto.decodePayload P payload = Ok d ->
        Crypto.nonce d = Crypto.nonce d0 ->
        Crypto.ciphertext d = Crypto.ciphertext d0 ->
        Crypto.mac d <> Crypto.mac d0 ->
        Crypto.decryptNip44ToBytes P payload ck = Throw Crypto.ErrMac)
  /\ (forall secretKey pubkey,
        Crypto.getConversationKey P secretKey pubkey = Some ck ->
        Crypto.decryptChunkBinary P payload secretKey pubkey
        = Crypto.decryptNip44ToBytes P payload ck).
Proof.
  intros Hcipher.
  assert (Htag : forall d,
             Crypto.decodePayload P payload = Ok d ->
             Crypto.mac d
             <> Crypto.hmac P (Crypto.hmac_key (Crypto.getMessageKeys P ck (Crypto.nonce d)))
                            (Crypto.nonce d ++ Crypto.ciphertext d) ->
             Crypto.decryptNip44ToBytes P payload ck = Throw Crypto.ErrMac).
  { intros d Hdec Hmac. unfold Crypto.decryptNip44ToBytes.
    rewrite Hdec. cbn [mbind result_bind Js.bind].
    destruct (decodePayload_layout P payload d Hdec)
      as (data & _ & _ & _ & Hdlen & _ & Hn & _ & _).
    unfold Crypto.hmacAad.
    replace (length (Crypto.nonce d)) with 32%nat
      by (rewrite Hn, length_firstn, length_skipn; lia).
    cbn [Nat.eqb negb mbind result_bind Js.bind].
    destruct (Crypto.equalBytes _ _) eqn:Heq; [| reflexivity].
    apply equalBytes_eq in Heq. congruence. }
  split; [now apply decryptNip44ToBytes_refines |]. split; [exact Htag |]. split.
  - intros original d0 d plaintext Hdec0 Hok Hdec Hn Hc Hm.
    apply (Htag d Hdec). rewrite Hn, Hc.
    rewrite <- (decrypt_ok_mac P original ck d0 plaintext Hdec0 Hok). exact Hm.
  - intros secretKey pubkey Hck. unfold Crypto.decryptChunkBinary. now rewrite Hck.
Qed.

Lemma decrypt_failure_order_witness :
  Spec.decrypt Sample.primitives Sample.sealed [] = inr [x61]
  /\ Crypto.decryptNip44ToBytes Sample.primitives Sample.tampered [] = Throw Crypto.ErrMac.
Proof.
  assert (Hcipher : forall key nonce data : list byte,
             length (Crypto.chacha20 Sample.primitives key nonce data) = length data)
    by reflexivity.
  split.
  - pose proof (proj1 (decrypt_failure_order Sample.primitives Sample.sealed [] Hcipher)) as H.
    rewrite H. vm_compute. reflexivity.
  - apply (proj1 (proj2 (decrypt_failure_order Sample.primitives Sample.tampered []
                                                Hcipher))
                 (Sample.decoded Sample.tampered)).
    + vm_compute. reflexivity.
    + vm_compute. discriminate.
Defined.

(** *** Base64 *)

Lemma code_range (c : ascii) : 0 <= code c < 256.
Proof. unfold code. pose proof (N_ascii_bounded c). lia. Qed.

Lemma char_code (c : ascii) : char (code c) = c.
Proof. unfold char, code. rewrite N2Z.id. apply ascii_N_embedding. Qed.

Lemma code_char (z : Z) : 0 <= z < 256 -> code (char z) = z.
Proof. intros Hz. unfold char, code. rewrite N_ascii_embedding; lia. Qed.

Lemma b64_value_char (n : Z) : 0 <= n < 64 -> b64_value (b64_char n) = Some n.
Proof.
  intros Hn. unfold b64_value, b64_char.
  destruct (Z.ltb_spec n 26).
  { rewrite code_char by lia.
    replace ((65 <=? n + 65) && (n + 65 <=? 90)) with true by lia. f_equal. lia. }
  destruct (Z.ltb_spec n 52).
  { rewrite code_char by lia.
    replace ((65 <=? n + 71) && (n + 71 <=? 90)) with false by lia.
    replace ((97 <=? n + 71) && (n + 71 <=? 122)) with true by lia. f_equal. lia. }
  destruct (Z.ltb_spec n 62).
  { rewrite code_char by lia.
    replace ((65 <=? n - 4) && (n - 4 <=? 90)) with false by lia.
    replace ((97 <=? n - 4) && (n - 4 <=? 122)) with false by lia.
    replace ((48 <=? n - 4) && (n - 4 <=? 57)) with true by lia. f_equal. lia. }
  destruct (Z.eqb_spec n 62) as [-> | Hne]; [reflexivity |].
  assert (n = 63) as -> by lia. reflexivity.
Qed.

(** A character of the alphabet is neither white space nor [=]. *)
Lemma b64_value_plain (c : ascii) (v : Z) :
  b64_value c = Some v -> is_ascii_whitespace c = false /\ (code c =? 61) = false.
Proof.
  unfold b64_value, is_ascii_whitespace. generalize (code c). intros m Hv.
  destruct ((65 <=? m) && (m <=? 90)) eqn:H1; [lia |].
  destruct ((97 <=? m) && (m <=? 122)) eqn:H2; [lia |].
  destruct ((48 <=? m) && (m <=? 57)) eqn:H3; [lia |].
  destruct (m =? 43) eqn:H4; [lia |].
  destruct (m =? 47) eqn:H5; [lia | discriminate].
Qed.

Lemma list_ind3 {A} (P : list A -> Prop) :
  P [] -> (forall a, P [a]) -> (forall a b, P [a; b]) ->
  (forall a b c r, P r -> P (a :: b :: c :: r)) ->
  forall l, P l.
Proof.
  intros H0 H1 H2 H3 l.
  assert (H : forall n l, (length l <= n)%nat -> P l).
  { clear l. induction n as [| n IH]; intros [| a [| b [| c r]]] Hlen; auto;
      cbn [length] in Hlen; try lia.
    apply H3, IH. lia. }
  now apply (H (length l)).
Qed.

Lemma sextets_range (bytes : list Z) :
  Forall is_byte bytes -> Forall is_sextet (sextets bytes).
Proof.
  unfold is_byte, is_sextet.
  induction bytes as [| a | a b | a b c r IH] using list_ind3; intros Hb; cbn [sextets].
  - constructor.
  - inversion_clear Hb. repeat constructor; lia.
  - inversion_clear Hb as [| ? ? Ha Hb']. inversion_clear Hb'.
    repeat constructor; lia.
  - inversion_clear Hb as [| ? ? Ha Hb']. inversion_clear Hb' as [| ? ? Hb Hc'].
    inversion_clear Hc' as [| ? ? Hc Hr].
    repeat (constructor; [lia |]). now apply IH.
Qed.

Lemma unsextets_sextets (bytes : list Z) :
  Forall is_byte bytes -> unsextets (sextets bytes) = bytes.
Proof.
  unfold is_byte.
  induction bytes as [| a | a b | a b c r IH] using list_ind3; intros Hb;
    cbn [sextets unsextets].
  - reflexivity.
  - inversion_clear Hb. f_equal. lia.
  - inversion_clear Hb as [| ? ? Ha Hb']. inversion_clear Hb'.
    f_equal; [lia |]. f_equal. lia.
  - inversion_clear Hb as [| ? ? Ha Hb']. inversion_clear Hb' as [| ? ? Hb Hc'].
    inversion_clear Hc' as [| ? ? Hc Hr].
    rewrite (IH Hr). f_equal; [lia |]. f_equal; [lia |]. f_equal. lia.
Qed.

Lemma values_of_chars (vals : list Z) :
  Forall is_sextet vals -> values_of (map b64_char vals) = Some vals.
Proof.
  induction 1 as [| v vals Hv _ IH]; cbn [map values_of]; [reflexivity |].
  now rewrite (b64_value_char v Hv), IH.
Qed.

Lemma chars_plain (vals : list Z) :
  Forall is_sextet vals ->
  Forall (fun c => is_ascii_whitespace c = false /\ (code c =? 61) = false)
         (map b64_char vals).
Proof.
  intros H. apply Forall_map. eapply Forall_impl; [exact H |].
  intros v Hv. exact (b64_value_plain _ _ (b64_value_char v Hv)).
Qed.

Lemma filter_plain (l : list ascii) :
  Forall (fun c => is_ascii_whitespace c = false) l ->
  List.filter (fun c => negb (is_ascii_whitespace c)) l = l.
Proof.
  induction 1 as [| c l Hc _ IH]; cbn [List.filter]; [reflexivity |].
  rewrite Hc. cbn [negb]. now rewrite IH.
Qed.

Lemma padding_cases (n : nat) :
  padding n = [] \/ padding n = ["="%char] \/ padding n = ["="%char; "="%char].
Proof.
  unfold padding. destruct (n mod 3)%nat as [| [| [| k]]]; auto.
Qed.

Lemma padding_plain (n : nat) :
  Forall (fun c => is_ascii_whitespace c = false) (padding n).
Proof.
  destruct (padding_cases n) as [-> | [-> | ->]]; repeat constructor.
Qed.

Lemma drop_equals_plain (l : list ascii) :
  Forall (fun c => (code c =? 61) = false) l -> drop_equals l = l.
Proof.
  destruct 1 as [| c l Hc _]; cbn [drop_equals]; [reflexivity |]. now rewrite Hc.
Qed.

Lemma strip_padding_app (body : list ascii) (n : nat) :
  Forall (fun c => (code c =? 61) = false) body ->
  strip_padding (body ++ padding n) = body.
Proof.
  intros Hb. unfold strip_padding. rewrite rev_app_distr.
  assert (Hr : drop_equals (rev body) = rev body).
  { apply drop_equals_plain. now apply List.Forall_rev. }
  destruct (padding_cases n) as [-> | [-> | ->]]; cbn [rev app drop_equals].
  - now rewrite !Hr, rev_involutive.
  - change (code "=" =? 61) with true. cbn iota. now rewrite Hr, rev_involutive.
  - change (code "=" =? 61) with true. cbn iota. apply rev_involutive.
Qed.

Lemma sextets_length (bytes : list Z) :
  ((length (sextets bytes) + length (padding (length bytes))) mod 4 = 0
   /\ length (sextets bytes) mod 4 <> 1)%nat.
Proof.
  induction bytes as [| a | a b | a b c r IH] using list_ind3;
    try (cbn; split; [reflexivity | discriminate]).
  cbn [sextets length]. unfold padding in *.
  replace (S (S (S (length r))) mod 3)%nat with (length r mod 3)%nat by lia.
  lia.
Qed.

Lemma atob_btoa_chars (bytes : list Z) :
  Forall is_byte bytes ->
  atob (string_of_list_ascii
          (map b64_char (sextets bytes) ++ padding (length bytes)))
  = Some (string_of_list_ascii (map char bytes)).
Proof.
  intros Hb. unfold atob. rewrite list_ascii_of_string_of_list_ascii.
  pose proof (chars_plain _ (sextets_range bytes Hb)) as Hplain.
  pose proof (sextets_length bytes) as [Hlen Hne].
  rewrite filter_plain.
  2: { apply Forall_app. split; [| apply padding_plain].
       eapply Forall_impl; [exact Hplain |]. now intros c [Hc _]. }
  rewrite length_app, length_map.
  replace (((length (sextets bytes) + length (padding (length bytes))) mod 4 =? 0)%nat)
    with true by (symmetry; now apply Nat.eqb_eq).
  rewrite strip_padding_app.
  2: { eapply Forall_impl; [exact Hplain |]. now intros c [_ Hc]. }
  rewrite length_map.
  replace ((length (sextets bytes) mod 4 =? 1)%nat) with false
    by (symmetry; now apply Nat.eqb_neq).
  now rewrite (values_of_chars _ (sextets_range bytes Hb)), (unsextets_sextets bytes Hb).
Qed.

Lemma append_cons_assoc (s t : string) (c : ascii) :
  ((s ++ String c EmptyString) ++ t = s ++ String c t)%string.
Proof.
  induction s as [| d s IH]; [reflexivity |].
  change (String d ((s ++ String c EmptyString) ++ t) = String d (s ++ String c t))%string.
  now rewrite IH.
Qed.

Lemma binaryString_of_bytes (bytes : list byte) (acc : string) :
  fold_left (fun acc b => (acc ++ String (ascii_of_byte b) EmptyString)%string) bytes acc
  = (acc ++ string_of_list_ascii (map ascii_of_byte bytes))%string.
Proof.
  revert acc. induction bytes as [| b bytes IH]; intros acc; cbn [fold_left map].
  - cbn [string_of_list_ascii]. clear.
    induction acc as [| c acc IH]; [reflexivity |].
    change (String c acc = String c (acc ++ EmptyString))%string. now rewrite <- IH.
  - rewrite IH. cbn [string_of_list_ascii]. apply append_cons_assoc.
Qed.

(** C10: [base64ToUint8Array] undoes [uint8ArrayToBase64] on every byte
    array. *)
Theorem base64_round_trip (bytes : list byte) :
  Crypto.base64ToUint8Array (Crypto.uint8ArrayToBase64 bytes) = Ok bytes.
Proof.
  unfold Crypto.base64ToUint8Array, Crypto.uint8ArrayToBase64, btoa.
  rewrite binaryString_of_bytes.
  change (EmptyString ++ string_of_list_ascii (map ascii_of_byte bytes))%string
    with (string_of_list_ascii (map ascii_of_byte bytes)).
  rewrite list_ascii_of_string_of_list_ascii.
  rewrite atob_btoa_chars.
  2: { apply Forall_map, Forall_map, Forall_forall. intros b _. apply code_range. }
  rewrite list_ascii_of_string_of_list_ascii. f_equal.
  rewrite !map_map. rewrite <- (map_id bytes) at 2. apply map_ext.
  intros b. now rewrite char_code, byte_of_ascii_of_byte.
Qed.

(** *** Index and manifest resolution *)

Lemma fold_newer (l : list Nostr.Event) (x : Nostr.Event) :
  exists pre post,
    x :: l = pre ++ fold_left Nostr.newer l x :: post
    /\ Forall (fun a => Nostr.created_at a <= Nostr.created_at (fold_left Nostr.newer l x)) pre
    /\ Forall (fun a => Nostr.created_at a < Nostr.created_at (fold_left Nostr.newer l x)) post.
Proof.
  induction l as [| y l IH] using rev_ind.
  - exists [], []. cbn. auto.
  - destruct IH as (pre & post & Heq & Hpre & Hpost).
    rewrite fold_left_app. cbn [fold_left]. set (e := fold_left Nostr.newer l x) in *.
    unfold Nostr.newer. destruct (Z.gtb_spec (Nostr.created_at e) (Nostr.created_at y)).
    + exists pre, (post ++ [y]). split; [| split; [exact Hpre |]].
      * rewrite app_comm_cons, Heq, <- app_assoc. reflexivity.
      * apply Forall_app. split; [exact Hpost |]. repeat constructor. lia.
    + exists (x :: l), []. split; [| split; [| constructor]].
      * now rewrite app_comm_cons.
      * rewrite Heq. apply Forall_app. split.
        -- eapply Forall_impl; [exact Hpre |]. cbn. intros; lia.
        -- constructor; [lia |]. eapply Forall_impl; [exact Hpost |]. cbn. intros; lia.
Qed.

(** C8: among the records returned for one identifier, index and manifest
    resolution select a record [e] with the greatest creation timestamp,
    and of several with that timestamp the last one returned.  What
    resolution returns is the document of [e] and of no other record: the
    index (the manifest) parsed from the content of [e] when it has
    version 2, nothing when the content does not parse, the version error
    otherwise.  This is so for [fetchFileIndex] on page 1 and on an archive
    page, and for [fetchManifest] whichever of its two look-ups finds the
    records. *)
Theorem newest_record_wins (J : Nostr.Json) (events : list Nostr.Event) :
  events <> [] ->
  exists e pre post,
    let indexOf :=
      match Nostr.parseFileIndex J (Nostr.content e) with
      | None => Ok None
      | Some index =>
          if FileIndex.version index =? 2 then Ok (Some index)
          else Throw (Nostr.UnsupportedIndexVersion (FileIndex.version index))
      end in
    let manifestOf :=
      match Nostr.parseManifest J (Nostr.content e) with
      | None => Ok None
      | Some manifest =>
          if Manifest.version manifest =? 2 then Ok (Some manifest)
          else Throw (Nostr.UnsupportedManifestVersion (Manifest.version manifest))
      end in
    reduce Nostr.newer events = Some e
    /\ events = pre ++ e :: post
    /\ Forall (fun a => Nostr.created_at a <= Nostr.created_at e) pre
    /\ Forall (fun a => Nostr.created_at a < Nostr.created_at e) post
    /\ Nostr.selectIndex J events = Nostr.selectIndex J [e]
    /\ Nostr.selectManifest J events = Nostr.selectManifest J [e]
    /\ Nostr.selectIndex J events = indexOf
    /\ Nostr.selectManifest J events = manifestOf
    /\ (forall pool relays pubkey,
          Nostr.querySync pool relays (Nostr.indexFilter pubkey D_TAGS.CURRENT_INDEX)
          = events ->
          snd (Nostr.fetchFileIndex J pool relays pubkey 1) = indexOf)
    /\ (forall pool relays pubkey page current,
          page <> 1 ->
          snd (Nostr.fetchFileIndex J pool relays pubkey 1) = Ok (Some current) ->
          Nostr.querySync pool relays
            (Nostr.indexFilter pubkey
               (Nostr.getDTagForPage page (FileIndex.total_archives current)))
          = events ->
          snd (Nostr.fetchFileIndex J pool relays pubkey page) = indexOf)
    /\ (forall pool relays pubkey fileHash,
          Nostr.querySync pool relays
            {| Nostr.kinds := [EVENT_KINDS.MANIFEST]; Nostr.authors := [pubkey];
               Nostr.tag_d := None; Nostr.tag_x := Some [fileHash];
               Nostr.ids := None; Nostr.limit := Some 1 |}
          = events ->
          snd (Nostr.fetchManifest J pool relays pubkey fileHash) = manifestOf)
    /\ (forall pool relays pubkey fileHash,
          Nostr.querySync pool relays
            {| Nostr.kinds := [EVENT_KINDS.MANIFEST]; Nostr.authors := [pubkey];
               Nostr.tag_d := None; Nostr.tag_x := Some [fileHash];
               Nostr.ids := None; Nostr.limit := Some 1 |}
          = [] ->
          Nostr.querySync pool relays
            {| Nostr.kinds := [EVENT_KINDS.MANIFEST]; Nostr.authors := [pubkey];
               Nostr.tag_d := Some [fileHash]; Nostr.tag_x := None;
               Nostr.ids := None; Nostr.limit := Some 1 |}
          = events ->
          snd (Nostr.fetchManifest J pool relays pubkey fileHash) = manifestOf).
Proof.
  destruct events as [| x l]; [congruence | intros _].
  destruct (fold_newer l x) as (pre & post & Heq & Hpre & Hpost).
  set (e := fold_left Nostr.newer l x) in *.
  exists e, pre, post. cbv zeta.
  assert (Hi : Nostr.selectIndex J (x :: l)
               = match Nostr.parseFileIndex J (Nostr.content e) with
                 | None => Ok None
                 | Some index =>
                     if FileIndex.version index =? 2 then Ok (Some index)
                     else Throw (Nostr.UnsupportedIndexVersion (FileIndex.version index))
                 end).
  { unfold Nostr.selectIndex. cbn [length Nat.eqb reduce]. fold e.
    destruct (Nostr.parseFileIndex J (Nostr.content e)) as [index |]; [| reflexivity].
    destruct (FileIndex.version index =? 2); reflexivity. }
  assert (Hm : Nostr.selectManifest J (x :: l)
               = match Nostr.parseManifest J (Nostr.content e) with
                 | None => Ok None
                 | Some manifest =>
                     if Manifest.version manifest =? 2 then Ok (Some manifest)
                     else Throw (Nostr.UnsupportedManifestVersion
                                   (Manifest.version manifest))
                 end).
  { unfold Nostr.selectManifest. cbn [length Nat.eqb reduce]. fold e.
    destruct (Nostr.parseManifest J (Nostr.content e)) as [manifest |]; [| reflexivity].
    destruct (Manifest.version manifest =? 2); reflexivity. }
  split; [reflexivity |]. split; [exact Heq |]. split; [exact Hpre |].
  split; [exact Hpost |]. split; [reflexivity |]. split; [reflexivity |].
  split; [exact Hi |]. split; [exact Hm |].
  split; [| split; [| split]].
  - intros pool relays pubkey Hq.
    unfold Nostr.fetchFileIndex, Nostr.fetchFileIndex_current.
    cbn [Z.eqb Pos.eqb snd]. rewrite Hq. exact Hi.
  - intros pool relays pubkey page current Hpage Hcur Hq.
    unfold Nostr.fetchFileIndex in *. cbn [Z.eqb Pos.eqb] in Hcur.
    destruct (Z.eqb_spec page 1) as [-> | _]; [contradiction |].
    destruct (Nostr.fetchFileIndex_current J pool relays pubkey) as [ops r].
    cbn [snd] in Hcur. subst r. cbn [snd]. rewrite Hq. exact Hi.
  - intros pool relays pubkey fileHash Hq.
    unfold Nostr.fetchManifest, Nostr.manifestFilters. cbn [Nostr.queryUntilFound].
    rewrite Hq. cbn [length Nat.ltb Nat.leb snd]. exact Hm.
  - intros pool relays pubkey fileHash Hq1 Hq2.
    unfold Nostr.fetchManifest, Nostr.manifestFilters. cbn [Nostr.queryUntilFound].
    rewrite Hq1, Hq2. cbn [length Nat.ltb Nat.leb snd]. exact Hm.
Qed.

Lemma newest_record_wins_witness :
  Nostr.selectIndex Sample.numbered
    [Sample.record "i1" 100 "7"; Sample.record "i2" 200 "9"]
  = Ok (Some {| FileIndex.version := 2; FileIndex.entries := [];
                FileIndex.archive_number := 9; FileIndex.total_archives := 3 |})
  /\ Nostr.selectIndex Sample.numbered
       [Sample.record "i2" 200 "9"; Sample.record "i1" 100 "7"]
     = Ok (Some {| FileIndex.version := 2; FileIndex.entries := [];
                   FileIndex.archive_number := 9; FileIndex.total_archives := 3 |}).
Proof.
  assert (H1 : [Sample.record "i1" 100 "7"; Sample.record "i2" 200 "9"] <> [])
    by discriminate.
  assert (H2 : [Sample.record "i2" 200 "9"; Sample.record "i1" 100 "7"] <> [])
    by discriminate.
  destruct (newest_record_wins Sample.numbered _ H1)
    as (e1 & _ & _ & E1 & _ & _ & _ & _ & _ & S1 & _).
  destruct (newest_record_wins Sample.numbered _ H2)
    as (e2 & _ & _ & E2 & _ & _ & _ & _ & _ & S2 & _).
  vm_compute in E1, E2. injection E1 as <-. injection E2 as <-.
  split; [rewrite S1 | rewrite S2]; vm_compute; reflexivity.
Defined.

Lemma reduce_nonempty {A} (f : A -> A -> A) (l : list A) (x : A) :
  reduce f l = Some x -> (length l =? 0)%nat = false.
Proof. destruct l; [discriminate | reflexivity]. Qed.

Lemma selectIndex_unsupported (J : Nostr.Json) (events : list Nostr.Event)
    (event : Nostr.Event) (index : FileIndex.t) :
  reduce Nostr.newer events = Some event ->
  Nostr.parseFileIndex J (Nostr.content event) = Some index ->
  FileIndex.version index <> 2 ->
  Nostr.selectIndex J events
  = Throw (Nostr.UnsupportedIndexVersion (FileIndex.version index)).
Proof.
  intros Hr Hp Hv. unfold Nostr.selectIndex.
  rewrite (reduce_nonempty _ _ _ Hr), Hr, Hp.
  now replace (FileIndex.version index =? 2) with false by lia.
Qed.

(** C6: when the record located for the current index, for an archive
    page or for a manifest parses to a version other than 2, resolution
    throws the unsupported-version error carrying that version: it neither
    returns the document nor the null of "not found"; a bad current index
    also stops the resolution of every archive page. *)
Theorem unsupported_version_is_fatal (J : Nostr.Json) (pool : Nostr.Pool)
    (relays : list string) (pubkey : string) :
  (forall event index page,
      reduce Nostr.newer
        (Nostr.querySync pool relays (Nostr.indexFilter pubkey D_TAGS.CURRENT_INDEX))
      = Some event ->
      Nostr.parseFileIndex J (Nostr.content event) = Some index ->
      FileIndex.version index <> 2 ->
      snd (Nostr.fetchFileIndex J pool relays pubkey page)
      = Throw (Nostr.UnsupportedIndexVersion (FileIndex.version index)))
  /\ (forall currentIndex event index page,
         page <> 1 ->
         snd (Nostr.fetchFileIndex J pool relays pubkey 1) = Ok (Some currentIndex) ->
         reduce Nostr.newer
           (Nostr.querySync pool relays
              (Nostr.indexFilter pubkey
                 (Nostr.getDTagForPage page (FileIndex.total_archives currentIndex))))
         = Some event ->
         Nostr.parseFileIndex J (Nostr.content event) = Some index ->
         FileIndex.version index <> 2 ->
         snd (Nostr.fetchFileIndex J pool relays pubkey page)
         = Throw (Nostr.UnsupportedIndexVersion (FileIndex.version index)))
  /\ (forall fileHash event manifest,
         reduce Nostr.newer
           (snd (Nostr.queryUntilFound pool relays (Nostr.manifestFilters pubkey fileHash) []))
         = Some event ->
         Nostr.parseManifest J (Nostr.content event) = Some manifest ->
         Manifest.version manifest <> 2 ->
         snd (Nostr.fetchManifest J pool relays pubkey fileHash)
         = Throw (Nostr.UnsupportedManifestVersion (Manifest.version manifest))).
Proof.
  split; [| split].
  - intros event index page Hr Hp Hv.
    pose proof (selectIndex_unsupported J _ event index Hr Hp Hv) as Hs.
    unfold Nostr.fetchFileIndex, Nostr.fetchFileIndex_current.
    destruct (page =? 1); cbn [snd]; rewrite Hs; reflexivity.
  - intros currentIndex event index page Hpage Hcur Hr Hp Hv.
    pose proof (selectIndex_unsupported J _ event index Hr Hp Hv) as Hs.
    unfold Nostr.fetchFileIndex in *. cbn [Z.eqb Pos.eqb] in Hcur.
    unfold Nostr.fetchFileIndex_current in *. cbn [snd] in Hcur.
    replace (page =? 1) with false by lia. rewrite Hcur. cbn [snd]. exact Hs.
  - intros fileHash event manifest Hr Hp Hv.
    unfold Nostr.fetchManifest.
    destruct (Nostr.queryUntilFound _ _ _ _) as [ops events]. cbn [snd] in *.
    unfold Nostr.selectManifest. rewrite (reduce_nonempty _ _ _ Hr), Hr, Hp.
    now replace (Manifest.version manifest =? 2) with false by lia.
Qed.

Lemma unsupported_version_is_fatal_witness :
  snd (Nostr.fetchManifest Sample.json Sample.pool [] "pk" "h")
  = Throw (Nostr.UnsupportedManifestVersion 1)
  /\ snd (Nostr.fetchFileIndex Sample.json Sample.pool [] "pk" 2)
     = Throw (Nostr.UnsupportedIndexVersion 1).
Proof.
  pose proof (unsupported_version_is_fatal Sample.json Sample.pool [] "pk")
    as (_ & Harchive & Hmanifest).
  split.
  - apply (Hmanifest "h"%string (Sample.record "m1" 10 "1")
                     {| Manifest.version := 1; Manifest.file_name := "f";
                        Manifest.file_hash := "h"; Manifest.file_size := 0;
                        Manifest.chunk_size := 0; Manifest.total_chunks := 5;
                        Manifest.created_at := 0; Manifest.pubkey := "pk";
                        Manifest.encryption := "none"; Manifest.chunks := [];
                        Manifest.relays := []; Manifest.mime_type := None |});
      [reflexivity | reflexivity | cbn; lia].
  - apply (Harchive {| FileIndex.version := 2; FileIndex.entries := [];
                       FileIndex.archive_number := 0; FileIndex.total_archives := 3 |}
                    (Sample.record "a3" 50 "1")
                    {| FileIndex.version := 1; FileIndex.entries := [];
                       FileIndex.archive_number := 0; FileIndex.total_archives := 3 |}
                    2);
      [lia | reflexivity | reflexivity | reflexivity | cbn; lia].
Defined.



(** *** Assembly *)

Section DecryptLoop.

Variables (P : Crypto.Primitives) (secretKey : list byte) (pubkey : string).

Let decrypts (chunk : Nostr.ChunkEvent.t) (part : list byte) : Prop :=
  Crypto.decryptChunkBinary P (Nostr.ChunkEvent.content chunk) secretKey pubkey = Ok part.

(** When the loop ends normally every chunk has been decrypted, in order. *)
Lemma decryptLoop_parts (aborted : bool) (total i : nat)
    (chunks : list Nostr.ChunkEvent.t) (current : Assemble.Status)
    (parts : list (list byte)) :
  Assemble.decryptLoop P aborted secretKey pubkey total i chunks current = inr parts ->
  Forall2 decrypts chunks parts.
Proof using Type.
  revert i current parts.
  induction chunks as [| chunk rest IH]; intros i current parts; cbn [Assemble.decryptLoop].
  - intros [= <-]. constructor.
  - destruct aborted; [discriminate |].
    destruct (Crypto.decryptChunkBinary P _ secretKey pubkey) as [part | e] eqn:Hd;
      [| discriminate].
    destruct (Assemble.decryptLoop P false secretKey pubkey total (S i) rest _)
      as [s | parts'] eqn:Hl; [discriminate |].
    intros [= <-]. constructor; [exact Hd | eapply IH; exact Hl].
Qed.

(** Without an abort, an early exit reports the first chunk that fails. *)
Lemma decryptLoop_failure (total i : nat) (chunks : list Nostr.ChunkEvent.t)
    (current s : Assemble.Status) :
  Assemble.decryptLoop P false secretKey pubkey total i chunks current = inl s ->
  exists j chunk e,
    chunks !! j = Some chunk
    /\ Crypto.decryptChunkBinary P (Nostr.ChunkEvent.content chunk) secretKey pubkey = Throw e
    /\ s = Assemble.Failed (Assemble.DecryptChunkFailed (i + j) e)
    /\ forall j' chunk', (j' < j)%nat -> chunks !! j' = Some chunk' ->
                         exists part, decrypts chunk' part.
Proof using Type.
  revert i current s.
  induction chunks as [| chunk rest IH]; intros i current s; cbn [Assemble.decryptLoop];
    [discriminate |].
  destruct (Crypto.decryptChunkBinary P _ secretKey pubkey) as [part | e] eqn:Hd.
  - destruct (Assemble.decryptLoop P false secretKey pubkey total (S i) rest _)
      as [s' | parts'] eqn:Hl; [| discriminate].
    intros [= <-]. destruct (IH _ _ _ Hl) as (j & c & e & Hj & He & Hs & Hfirst).
    exists (S j), c, e. repeat split; try assumption.
    + rewrite Hs. do 2 f_equal. lia.
    + intros [| j'] chunk' Hlt Hc; cbn in Hc.
      * injection Hc as <-. now exists part.
      * apply (Hfirst j' chunk'); [lia | exact Hc].
  - intros [= <-]. exists 0%nat, chunk, e. repeat split; try assumption.
    + do 2 f_equal. lia.
    + intros j' chunk' Hlt. lia.
Qed.

(** A chunk that fails to decrypt ends the loop early. *)
Lemma decryptLoop_stops (aborted : bool) (total i j : nat)
    (chunks : list Nostr.ChunkEvent.t) (current : Assemble.Status)
    (chunk : Nostr.ChunkEvent.t) (e : Crypto.Error) :
  chunks !! j = Some chunk ->
  Crypto.decryptChunkBinary P (Nostr.ChunkEvent.content chunk) secretKey pubkey = Throw e ->
  exists s, Assemble.decryptLoop P aborted secretKey pubkey total i chunks current = inl s.
Proof using Type.
  intros Hj He. destruct (Assemble.decryptLoop _ _ _ _ _ _ _ _) as [s | parts] eqn:Hl;
    [now exists s |].
  apply decryptLoop_parts in Hl.
  destruct (Forall2_lookup_l _ _ _ _ _ Hl Hj) as (part & _ & Hpart).
  unfold decrypts in Hpart. congruence.
Qed.

End DecryptLoop.

(** C5: assembly is all or nothing.  With a chunk count other than the
    manifest's [total_chunks], [fetchFileBytes] returns no buffer and
    [downloadEncrypted] saves nothing, and unless the caller has aborted
    both report 'Missing chunks: got n/total'.  When some chunk of an
    encrypted file fails to decrypt, nothing is saved, and unless the
    caller has aborted the dialog ends in an error.  Bytes are saved only
    when the count matches and every chunk decrypts: they are the
    decrypted chunks in order. *)
Theorem assembly_all_or_nothing (P : Crypto.Primitives) (aborted : bool)
    (secretKey : list byte) (pubkey : string) (manifest : Manifest.t)
    (chunks : list Nostr.ChunkEvent.t) :
  let got := Z.of_nat (length chunks) in
  let total := Manifest.total_chunks manifest in
  let download := Assemble.downloadEncrypted P aborted secretKey pubkey manifest chunks in
  (got <> total ->
     (forall data, Assemble.fetchFileBytes aborted manifest chunks <> Ok data)
     /\ Assemble.saved download = None
     /\ (aborted = false ->
           Assemble.fetchFileBytes aborted manifest chunks
           = Throw (Assemble.MissingChunks got total)
           /\ Assemble.status download = Assemble.Failed (Assemble.MissingChunks got total)))
  /\ (forall i chunk e,
        chunks !! i = Some chunk ->
        Crypto.decryptChunkBinary P (Nostr.ChunkEvent.content chunk) secretKey pubkey = Throw e ->
        Assemble.saved download = None
        /\ (aborted = false -> exists err, Assemble.status download = Assemble.Failed err))
  /\ (forall data,
        Assemble.saved download = Some data ->
        got = total
        /\ exists parts,
             Forall2 (fun chunk part =>
                        Crypto.decryptChunkBinary P (Nostr.ChunkEvent.content chunk)
                                                  secretKey pubkey = Ok part)
                     chunks parts
             /\ data = concat parts).
Proof.
  intros got total download. subst download. unfold Assemble.downloadEncrypted, Assemble.fetchFileBytes.
  fold got. fold total.
  split; [| split].
  - intros Hne. replace (got =? total) with false by lia. cbn [negb].
    destruct aborted; cbn [Assemble.saved Assemble.status].
    + split; [discriminate |]. split; [reflexivity | discriminate].
    + split; [discriminate |]. split; [reflexivity |]. intros _. split; reflexivity.
  - intros i chunk e Hi He.
    destruct aborted; cbn [Assemble.saved Assemble.status]; [split; [reflexivity | discriminate] |].
    destruct (negb (got =? total)); cbn [Assemble.saved Assemble.status].
    { split; [reflexivity |]. intros _. eexists; reflexivity. }
    destruct (decryptLoop_stops P secretKey pubkey false (length chunks) 0 i chunks
                (Assemble.Decrypting 0 (length chunks)) chunk e Hi He) as [s Hs].
    rewrite Hs. cbn [Assemble.saved Assemble.status]. split; [reflexivity |]. intros _.
    destruct (decryptLoop_failure P secretKey pubkey _ _ _ _ _ Hs) as (j & c & e' & _ & _ & -> & _).
    eexists; reflexivity.
  - intros data.
    destruct aborted; cbn [Assemble.saved]; [discriminate |].
    destruct (Z.eqb_spec got total) as [Heq | Hne]; cbn [negb Assemble.saved]; [| discriminate].
    destruct (Assemble.decryptLoop _ _ _ _ _ _ _ _) as [s | parts] eqn:Hl;
      cbn [Assemble.saved]; [discriminate |].
    intros [= <-]. split; [exact Heq |]. exists parts. split; [| reflexivity].
    exact (decryptLoop_parts P secretKey pubkey _ _ _ _ _ _ Hl).
Qed.

(** *** Chunk collection: what is returned *)

Section Sorting.

Import Nostr Collect.

Let cmp (a b : ChunkEvent.t) : Z := ChunkEvent.index a - ChunkEvent.index b.

Lemma sort_insert_In (x y : ChunkEvent.t) (l : list ChunkEvent.t) :
  In y (sort_insert cmp x l) <-> y = x \/ In y l.
Proof using Type.
  induction l as [| z l IH]; cbn [sort_insert].
  - cbn. intuition.
  - destruct (cmp x z <=? 0); cbn [In] in *; [intuition |]. rewrite IH. intuition.
Qed.

Lemma sort_In (y : ChunkEvent.t) (l : list ChunkEvent.t) :
  In y (sort cmp l) <-> In y l.
Proof using Type.
  unfold sort. induction l as [| x l IH]; cbn [fold_right]; [reflexivity |].
  rewrite sort_insert_In, IH. cbn. intuition.
Qed.

Lemma sort_insert_length (x : ChunkEvent.t) (l : list ChunkEvent.t) :
  length (sort_insert cmp x l) = S (length l).
Proof using Type.
  induction l as [| z l IH]; cbn [sort_insert]; [reflexivity |].
  destruct (cmp x z <=? 0); cbn [length]; [reflexivity | now rewrite IH].
Qed.

Lemma sort_length (l : list ChunkEvent.t) : length (sort cmp l) = length l.
Proof using Type.
  unfold sort. induction l as [| x l IH]; cbn [fold_right length]; [reflexivity |].
  now rewrite sort_insert_length, IH.
Qed.

Lemma sort_insert_ascending (x : ChunkEvent.t) (l : list ChunkEvent.t) :
  StronglySorted ascending l ->
  ~ In (ChunkEvent.index x) (map ChunkEvent.index l) ->
  StronglySorted ascending (sort_insert cmp x l).
Proof using Type.
  induction 1 as [| z l Hs IH Hz]; intros Hx; cbn [sort_insert].
  - repeat constructor.
  - cbn [map In] in Hx. unfold cmp at 1.
    destruct (Z.leb_spec (ChunkEvent.index x - ChunkEvent.index z) 0) as [Hle | Hgt].
    + assert (Hlt : ascending x z) by (unfold ascending; lia).
      constructor; [now constructor |]. constructor; [exact Hlt |].
      eapply Forall_impl; [exact Hz |]. unfold ascending in *. cbn. intros; lia.
    + constructor; [apply IH; tauto |].
      apply List.Forall_forall. intros y Hy. apply sort_insert_In in Hy.
      destruct Hy as [-> | Hy]; [unfold ascending; lia |].
      revert y Hy. now apply List.Forall_forall.
Qed.

(** Sorting chunks with pairwise distinct indices gives a strictly
    ascending list. *)
Lemma sort_ascending (l : list ChunkEvent.t) :
  NoDup (map ChunkEvent.index l) -> StronglySorted ascending (sort cmp l).
Proof using Type.
  induction l as [| x l IH]; cbn [map]; intros Hnd.
  - constructor.
  - apply NoDup_cons in Hnd as [Hx Hnd]. rewrite list_elem_of_In in Hx.
    change (sort cmp (x :: l)) with (sort_insert cmp x (sort cmp l)).
    apply sort_insert_ascending; [now apply IH |].
    intros Hin. apply Hx. apply in_map_iff in Hin as (y & Hy & Hin).
    apply in_map_iff. exists y. split; [exact Hy |]. exact (proj1 (sort_In y l) Hin).
Qed.

Lemma wfMap_indices (m : JsMap.t ChunkEvent.t) :
  wfMap m -> map ChunkEvent.index (JsMap.values m) = JsMap.keys m.
Proof using Type.
  intros [Hidx _]. unfold JsMap.values, JsMap.keys. rewrite map_map.
  induction Hidx as [| p m Hp _ IH]; cbn [map]; [reflexivity |]. now rewrite Hp, IH.
Qed.

Lemma sortedChunks_ascending (m : JsMap.t ChunkEvent.t) :
  wfMap m -> StronglySorted ascending (sortedChunks m).
Proof using Type.
  intros Hwf. apply sort_ascending. rewrite (wfMap_indices m Hwf). apply Hwf.
Qed.

End Sorting.

Section Collection.

Import Nostr Collect.

Implicit Types (a : Args) (l : Locals) (cache : gmap string ChunkCacheEntry)
  (ops : list NetOp) (m : JsMap.t ChunkEvent.t) (w : World).

Lemma keys_set (k x : Z) (v : ChunkEvent.t) m :
  In x (JsMap.keys (JsMap.set k v m)) -> x = k \/ In x (JsMap.keys m).
Proof using Type.
  unfold JsMap.keys. induction m as [| [k' v'] m IH]; cbn [JsMap.set map In fst].
  - intuition.
  - destruct (k' =? k) eqn:Hk; cbn [map In fst]; intuition.
Qed.

Lemma set_wf (k : Z) (v : ChunkEvent.t) m :
  ChunkEvent.index v = k -> wfMap m -> wfMap (JsMap.set k v m).
Proof using Type.
  intros Hv. unfold wfMap, JsMap.keys.
  induction m as [| [k' v'] m IH]; cbn [JsMap.set map fst]; intros [Hidx Hnd].
  - split; [repeat constructor; exact Hv |]. apply NoDup_singleton.
  - apply Forall_cons in Hidx as [Hk' Hidx]. apply NoDup_cons in Hnd as [Hnin Hnd].
    destruct (Z.eqb_spec k' k) as [-> | Hne]; cbn [map fst].
    + split; [constructor; assumption |]. apply NoDup_cons. split; assumption.
    + destruct (IH (conj Hidx Hnd)) as [Hidx' Hnd'].
      split; [constructor; assumption |]. apply NoDup_cons. split; [| exact Hnd'].
      rewrite list_elem_of_In in *. intros Hin.
      apply keys_set in Hin as [-> | Hin]; [congruence | contradiction].
Qed.

Lemma wfMap_empty : wfMap JsMap.empty.
Proof using Type. split; [constructor | apply NoDup_nil_2]. Qed.

Lemma wfCache_insert key entry cache :
  wfCache cache -> wfMap (chunksByIndex entry) -> wfCache (<[key := entry]> cache).
Proof using Type.
  intros Hc He key' entry'. rewrite lookup_insert.
  destruct (decide (key = key')); [intros [= <-]; exact He | apply Hc].
Qed.


Lemma addChunk_wf a (index : Z) (event : Event) st :
  wfState st -> wfState (addChunk a index event st).
Proof using Type.
  destruct st as [l cache]. intros [Hl Hc]. unfold addChunk.
  destruct (JsMap.has index (l_chunksByIndex l)); [split; assumption |].
  split; cbn [fst snd l_chunksByIndex].
  - now apply set_wf.
  - destruct (cache !! cacheKey a) as [entry |] eqn:He; [| exact Hc].
    apply wfCache_insert; [exact Hc |]. cbn [chunksByIndex].
    apply set_wf; [reflexivity |]. exact (Hc _ _ He).
Qed.

Lemma onevent_wf a (event : Event) st : wfState st -> wfState (onevent a event st).
Proof using Type.
  destruct st as [l cache]. intros Hst. unfold onevent.
  destruct (bool_decide _); [exact Hst |].
  destruct (parseChunkIndexFromTags _); [apply addChunk_wf |]; exact Hst.
Qed.

Lemma onFallbackEvent_wf a (ibe : gmap string Z) st (event : Event) :
  wfState st -> wfState (onFallbackEvent a ibe st event).
Proof using Type.
  destruct st as [l cache]. intros Hst. unfold onFallbackEvent.
  destruct (bool_decide _); [exact Hst |].
  destruct (parseChunkIndexFromTags _); [apply addChunk_wf; exact Hst |].
  destruct (ibe !! id event); [apply addChunk_wf |]; exact Hst.
Qed.

Lemma fallbackEvents_wf a (ibe : gmap string Z) (events : list Event) st :
  wfState st -> wfState (fold_left (onFallbackEvent a ibe) events st).
Proof using Type.
  revert st. induction events as [| event events IH]; intros st Hst; cbn [fold_left];
    [exact Hst |].
  apply IH, onFallbackEvent_wf, Hst.
Qed.

















End Collection.

Lemma ascending_NoDup (chunks : list Nostr.ChunkEvent.t) :
  StronglySorted Collect.ascending chunks -> NoDup (map Nostr.ChunkEvent.index chunks).
Proof.
  induction 1 as [| x chunks _ IH Hx]; cbn [map]; [apply NoDup_nil_2 |].
  apply NoDup_cons. split; [| exact IH].
  rewrite list_elem_of_In, in_map_iff. intros (y & Hy & Hin).
  rewrite List.Forall_forall in Hx. specialize (Hx y Hin). unfold Collect.ascending in Hx. lia.
Qed.



(** *** Chunk collection: concurrent calls *)

Section Coalescing.

Import Nostr Collect.

Implicit Types (a : Args) (l : Locals) (cache : gmap string ChunkCacheEntry)
  (ops : list NetOp) (w : World) (key : string).
































End Coalescing.




Lemma assembly_all_or_nothing_witness :
  Assemble.fetchFileBytes false
    {| Manifest.version := 2; Manifest.file_name := "f"; Manifest.file_hash := "h";
       Manifest.file_size := 0; Manifest.chunk_size := 0; Manifest.total_chunks := 5;
       Manifest.created_at := 0; Manifest.pubkey := "pk"; Manifest.encryption := "none";
       Manifest.chunks := []; Manifest.relays := []; Manifest.mime_type := None |}
    Sample.collected
  = Throw (Assemble.MissingChunks 4 5).
Proof.
  set (manifest := {| Manifest.version := 2; Manifest.total_chunks := 5 |}).
  assert (Hne : Z.of_nat (length Sample.collected) <> Manifest.total_chunks manifest)
    by (vm_compute; discriminate).
  destruct (proj1 (assembly_all_or_nothing Sample.primitives false [] "pk" manifest
                     Sample.collected) Hne) as (_ & _ & Hmissing).
  destruct (Hmissing eq_refl) as [Hthrow _]. exact Hthrow.
Defined.

(** ** Part III: further properties of the code *)

(** The bucket of a length above 32: for [2^k < n <= 2^(k+1)] it is
    [2^(k-2)] from [k = 8] on, and 32 below. *)
Lemma paddedLength_bucket (n : Z) :
  32 < n ->
  exists k bucket c,
    5 <= k /\ 2 ^ k < n <= 2 ^ (k + 1)
    /\ 32 <= bucket /\ bucket mod 32 = 0 /\ 4 * bucket <= Z.max 128 (2 ^ k)
    /\ 2 ^ (k + 1) = bucket * c /\ 0 < c
    /\ bucket = (if 8 <=? k then 2 ^ (k - 2) else 32)
    /\ Spec.paddedLength n = bucket * ((n - 1) / bucket + 1).
Proof.
  intros Hn. set (k := Z.log2_up n - 1).
  assert (Hspec : 2 ^ k < n <= 2 ^ (k + 1)).
  { pose proof (Z.log2_up_spec n ltac:(lia)) as H.
    unfold k. replace (Z.log2_up n - 1 + 1) with (Z.log2_up n) by lia.
    rewrite <- Z.sub_1_r in H. exact H. }
  assert (Hk : 5 <= k).
  { destruct (Z.le_gt_cases 5 k) as [H | H]; [exact H | exfalso].
    assert (2 ^ (k + 1) <= 2 ^ 5) by (apply Z.pow_le_mono_r; lia). lia. }
  unfold Spec.paddedLength, Spec.nextPowerOfTwo.
  replace (n <=? 32) with false by lia.
  replace (Z.log2_up n) with (k + 1) by (unfold k; lia).
  destruct (8 <=? k) eqn:H8.
  - pose proof H8 as H8b. apply Z.leb_le in H8.
    assert (Hp : 2 ^ (k + 1) = 8 * 2 ^ (k - 2)).
    { replace (k + 1) with (3 + (k - 2)) by lia. rewrite Z.pow_add_r by lia. reflexivity. }
    assert (Hb : 2 ^ (k - 2) = 32 * 2 ^ (k - 7)).
    { replace (k - 2) with (5 + (k - 7)) by lia. rewrite Z.pow_add_r by lia. reflexivity. }
    assert (Hk4 : 2 ^ k = 4 * 2 ^ (k - 2)).
    { replace k with (2 + (k - 2)) at 1 by lia. rewrite Z.pow_add_r by lia. reflexivity. }
    assert (Hpos : 0 < 2 ^ (k - 7)) by (apply Z.pow_pos_nonneg; lia).
    assert (Hmod : 2 ^ (k - 2) mod 32 = 0).
    { rewrite Hb, Z.mul_comm. apply Z.mod_mul. lia. }
    assert (Hge : 2 ^ 9 <= 2 ^ (k + 1)) by (apply Z.pow_le_mono_r; lia).
    assert (Hgt : (2 ^ (k + 1) >? 256) = true) by lia.
    assert (Hdiv : 2 ^ (k + 1) / 8 = 2 ^ (k - 2)).
    { rewrite Hp, Z.mul_comm, Z.div_mul by lia. reflexivity. }
    exists k, (2 ^ (k - 2)), 8.
    rewrite Hgt, Hdiv, H8b.
    split; [exact Hk |]. split; [exact Hspec |]. split; [lia |]. split; [exact Hmod |].
    split; [lia |]. split; [lia |]. split; [lia |]. split; reflexivity.
  - pose proof H8 as H8b. apply Z.leb_gt in H8.
    assert (Hc : 2 ^ (k + 1) = 32 * 2 ^ (k - 4)).
    { replace (k + 1) with (5 + (k - 4)) by lia. rewrite Z.pow_add_r by lia. reflexivity. }
    assert (Hpos : 0 < 2 ^ (k - 4)) by (apply Z.pow_pos_nonneg; lia).
    assert (Hle : 2 ^ (k + 1) <= 2 ^ 8) by (apply Z.pow_le_mono_r; lia).
    assert (Hgt : (2 ^ (k + 1) >? 256) = false) by lia.
    exists k, 32, (2 ^ (k - 4)).
    rewrite Hgt, H8b.
    split; [exact Hk |]. split; [exact Hspec |]. split; [lia |]. split; [reflexivity |].
    split; [lia |]. split; [lia |]. split; [lia |]. split; reflexivity.
Qed.

Lemma paddedLength_bounds (n : Z) :
  1 <= n ->
  n <= Spec.paddedLength n
  /\ Spec.paddedLength n mod 32 = 0
  /\ Spec.paddedLength n < n + Z.max 32 (n / 4)
  /\ (32 < n -> Spec.paddedLength n <= 2 ^ Z.log2_up n).
Proof.
  intros Hn. destruct (Z.le_gt_cases n 32) as [H32 | H32].
  - unfold Spec.paddedLength. replace (n <=? 32) with true by lia.
    repeat split; try reflexivity; lia.
  - destruct (paddedLength_bucket n H32)
      as (k & bucket & c & Hk & Hspec & Hb32 & Hmod & Hquarter & Hpow & Hc & _ & ->).
    pose proof (Z.div_mod (n - 1) bucket ltac:(lia)) as Hdm.
    pose proof (Z.mod_pos_bound (n - 1) bucket ltac:(lia)) as Hr.
    set (q := (n - 1) / bucket) in *. set (r := (n - 1) mod bucket) in *.
    assert (Hlog : Z.log2_up n = k + 1).
    { apply Z.log2_up_unique; [lia |]. replace (Z.pred (k + 1)) with k by lia. exact Hspec. }
    split; [nia |]. split.
    + apply Z.mod_divide in Hmod; [| lia]. destruct Hmod as [z Hz].
      apply Z.mod_divide; [lia |]. exists (z * (q + 1)). nia.
    + split.
      * assert (Hq4 : bucket <= Z.max 32 (n / 4)).
        { destruct (Z.le_gt_cases bucket 32); [lia |].
          assert (4 * bucket <= 2 ^ k) by lia.
          assert (bucket <= n / 4) by (apply Z.div_le_lower_bound; lia). lia. }
        nia.
      * intros _. rewrite Hlog, Hpow.
        assert (q < c) by nia. nia.
Qed.

Lemma bucket_unique (n k k' : Z) :
  0 <= k -> 0 <= k' ->
  2 ^ k < n <= 2 ^ (k + 1) -> 2 ^ k' < n <= 2 ^ (k' + 1) -> k = k'.
Proof.
  intros Hk Hk' H H'.
  assert (Z.log2_up n = k + 1).
  { apply Z.log2_up_unique; [lia |]. replace (Z.pred (k + 1)) with k by lia. exact H. }
  assert (Z.log2_up n = k' + 1).
  { apply Z.log2_up_unique; [lia |]. replace (Z.pred (k' + 1)) with k' by lia. exact H'. }
  lia.
Qed.

Lemma paddedLength_monotone (n m : Z) :
  1 <= n <= m -> Spec.paddedLength n <= Spec.paddedLength m.
Proof.
  intros Hnm.
  destruct (paddedLength_bounds m ltac:(lia)) as (Hm1 & _ & _ & _).
  destruct (Z.le_gt_cases n 32) as [H32 | H32].
  - assert (Hn : Spec.paddedLength n = 32)
      by (unfold Spec.paddedLength; replace (n <=? 32) with true by lia; reflexivity).
    rewrite Hn. destruct (Z.le_gt_cases m 32) as [Hm32 | Hm32]; [| lia].
    unfold Spec.paddedLength. replace (m <=? 32) with true by lia. lia.
  - destruct (paddedLength_bounds n ltac:(lia)) as (_ & _ & _ & Hpow).
    specialize (Hpow H32).
    destruct (paddedLength_bucket n H32)
      as (k & b & c & Hk & Hspec & Hb32 & _ & _ & _ & _ & Hb & Hp).
    destruct (paddedLength_bucket m ltac:(lia))
      as (k' & b' & c' & Hk' & Hspec' & Hb32' & _ & _ & _ & _ & Hb' & Hp').
    assert (Hlog : Z.log2_up n = k + 1).
    { apply Z.log2_up_unique; [lia |]. replace (Z.pred (k + 1)) with k by lia. exact Hspec. }
    rewrite Hlog in Hpow.
    destruct (Z.lt_trichotomy k k') as [Hlt | [Heq | Hgt]].
    + assert (2 ^ (k + 1) <= 2 ^ k') by (apply Z.pow_le_mono_r; lia). lia.
    + subst k'. rewrite <- Hb in Hb'. subst b'.
      rewrite Hp, Hp'. apply Z.mul_le_mono_nonneg_l; [lia |].
      apply Z.add_le_mono_r, Z.div_le_mono; lia.
    + assert (2 ^ (k' + 1) <= 2 ^ k) by (apply Z.pow_le_mono_r; lia). lia.
Qed.

Lemma paddedLength_idempotent (n : Z) :
  1 <= n -> Spec.paddedLength (Spec.paddedLength n) = Spec.paddedLength n.
Proof.
  intros Hn. destruct (Z.le_gt_cases n 32) as [H32 | H32].
  - unfold Spec.paddedLength at 2 3. replace (n <=? 32) with true by lia. reflexivity.
  - destruct (paddedLength_bounds n Hn) as (Hge & _ & _ & Hpow). specialize (Hpow H32).
    destruct (paddedLength_bucket n H32)
      as (k & b & c & Hk & Hspec & Hb32 & _ & _ & _ & _ & Hb & Hp).
    assert (Hlog : Z.log2_up n = k + 1).
    { apply Z.log2_up_unique; [lia |]. replace (Z.pred (k + 1)) with k by lia. exact Hspec. }
    rewrite Hlog in Hpow.
    destruct (paddedLength_bucket (Spec.paddedLength n) ltac:(lia))
      as (k' & b' & c' & Hk' & Hspec' & Hb32' & _ & _ & _ & _ & Hb' & Hp').
    assert (k' = k) by (apply (bucket_unique (Spec.paddedLength n)); lia). subst k'.
    rewrite <- Hb in Hb'. subst b'.
    rewrite Hp', Hp.
    set (q := (n - 1) / b).
    assert (Hq : (b * (q + 1) - 1) / b = q).
    { symmetry. apply (Z.div_unique_pos _ _ _ (b - 1)); lia. }
    rewrite Hq. reflexivity.
Qed.

(** X1: [calcPaddedLen] refuses a length below 1 with 'expected positive
    integer'; for a length [n] between 1 and 2^30 it returns a multiple of 32
    that is at least [n] and exceeds [n] by less than [max 32 (n / 4)]: the
    padding is never more than a quarter of the data, or 31 bytes. *)
Theorem padded_length_bounds (n : Z) :
  (n < 1 -> Crypto.calcPaddedLen n = Throw Crypto.ErrPositiveInteger)
  /\ (1 <= n <= 2 ^ 30 ->
      exists p,
        Crypto.calcPaddedLen n = Ok p
        /\ n <= p
        /\ p mod 32 = 0
        /\ p < n + Z.max 32 (n / 4)).
Proof.
  split.
  - intros Hn. unfold Crypto.calcPaddedLen.
    replace (n <? 1) with true by lia. now rewrite orb_true_r.
  - intros Hn. exists (Spec.paddedLength n).
    split; [now apply calcPaddedLen_paddedLength |].
    destruct (paddedLength_bounds n ltac:(lia)) as (H1 & H2 & H3 & _). auto.
Qed.

Lemma padded_length_bounds_witness :
  exists p,
    Crypto.calcPaddedLen 1000 = Ok p /\ 1000 <= p /\ p mod 32 = 0
    /\ p < 1000 + Z.max 32 (1000 / 4).
Proof.
  apply (proj2 (padded_length_bounds 1000)). lia.
Defined.

(** X2: on lengths between 1 and 2^30 [calcPaddedLen] is monotone, and a
    padded length is a fixed point: padding it again gives the same length. *)
Theorem padded_length_monotone (n m : Z) :
  1 <= n <= m -> m <= 2 ^ 30 ->
  exists p q,
    Crypto.calcPaddedLen n = Ok p
    /\ Crypto.calcPaddedLen m = Ok q
    /\ p <= q
    /\ Crypto.calcPaddedLen p = Ok p.
Proof.
  intros Hnm Hm. exists (Spec.paddedLength n), (Spec.paddedLength m).
  split; [apply calcPaddedLen_paddedLength; lia |].
  split; [apply calcPaddedLen_paddedLength; lia |].
  split; [now apply paddedLength_monotone |].
  rewrite <- (paddedLength_idempotent n) at 2 by lia.
  apply calcPaddedLen_paddedLength.
  destruct (paddedLength_bounds n ltac:(lia)) as (Hge & _ & _ & Hpow).
  split; [lia |].
  destruct (Z.le_gt_cases n 32) as [H32 | H32].
  - unfold Spec.paddedLength. replace (n <=? 32) with true by lia. lia.
  - specialize (Hpow H32).
    assert (Z.log2_up n <= 30).
    { apply Z.log2_up_le_pow2; lia. }
    assert (2 ^ Z.log2_up n <= 2 ^ 30) by (apply Z.pow_le_mono_r; lia). lia.
Qed.

Lemma padded_length_monotone_witness :
  exists p q,
    Crypto.calcPaddedLen 300 = Ok p /\ Crypto.calcPaddedLen 301 = Ok q /\ p <= q
    /\ Crypto.calcPaddedLen p = Ok p.
Proof.
  apply (padded_length_monotone 300 301); lia.
Defined.

(** X3: [unpadBytes] never looks at the filler: a buffer made of the
    big-endian length of [data], [data] itself and any bytes [filler] whatever
    is accepted and gives back [data], as long as the three parts have the
    padded length in total. The filler need not be zero. *)
Theorem unpadBytes_ignores_filler (hi lo : byte) (data filler : list byte) :
  1 <= Z.of_nat (length data) <= 65535 ->
  byte_val hi * 256 + byte_val lo = Z.of_nat (length data) ->
  Crypto.calcPaddedLen (Z.of_nat (length data))
  = Ok (Z.of_nat (length data) + Z.of_nat (length filler)) ->
  Crypto.unpadBytes (hi :: lo :: data ++ filler) = Ok data.
Proof.
  intros Hlen Hprefix Hpad. unfold Crypto.unpadBytes. cbn [getUint16].
  rewrite Hprefix.
  assert (Hsub : subarray (hi :: lo :: data ++ filler) 2
                          (Some (2 + Z.of_nat (length data))) = data).
  { rewrite subarray_between by lia.
    replace (Z.to_nat (2 + Z.of_nat (length data) - 2)) with (length data) by lia.
    change (Z.to_nat 2) with 2%nat. cbn [skipn drop].
    rewrite drop_0, take_app_length. reflexivity. }
  rewrite Hsub.
  unfold Crypto.MIN_PLAINTEXT_SIZE, Crypto.MAX_PLAINTEXT_SIZE.
  replace (Z.of_nat (length data) <? 1) with false by lia.
  replace (Z.of_nat (length data) >? 65535) with false by lia.
  rewrite Z.eqb_refl. cbn [negb orb].
  rewrite Hpad. cbn [mbind result_bind Js.bind].
  assert (Htotal : Z.of_nat (length (hi :: lo :: data ++ filler))
                   = 2 + (Z.of_nat (length data) + Z.of_nat (length filler))).
  { cbn [length]. rewrite length_app. lia. }
  rewrite Htotal, Z.eqb_refl. reflexivity.
Qed.

Lemma unpadBytes_ignores_filler_witness :
  Crypto.unpadBytes (x00 :: x01 :: [x61] ++ repeat xff 31) = Ok [x61].
Proof.
  apply (unpadBytes_ignores_filler x00 x01 [x61] (repeat xff 31)).
  - cbn. lia.
  - reflexivity.
  - reflexivity.
Defined.

Lemma decodePayload_lengths (P : Crypto.Primitives) (payload : string)
    (d : Crypto.Payload) :
  Crypto.decodePayload P payload = Ok d ->
  length (Crypto.nonce d) = 32%nat
  /\ length (Crypto.mac d) = 32%nat
  /\ 34 <= Z.of_nat (length (Crypto.ciphertext d)) <= 65538.
Proof.
  intros Hd. apply decodePayload_layout in Hd
    as (data & _ & _ & _ & Hlen & _ & Hn & Hc & Hm).
  rewrite Hn, Hm, Hc, !length_take, !length_drop. lia.
Qed.

(** X4: when [decodePayload] returns, the base64-decoded bytes are exactly the
    version byte 2, then the nonce, the ciphertext and the MAC it returns; the
    nonce and the MAC have 32 bytes each and the ciphertext between 34 and
    65538. *)
Theorem decodePayload_partition (P : Crypto.Primitives) (payload : string)
    (d : Crypto.Payload) :
  Crypto.decodePayload P payload = Ok d ->
  exists data,
    Crypto.base64_decode P payload = Some data
    /\ data = x02 :: Crypto.nonce d ++ Crypto.ciphertext d ++ Crypto.mac d
    /\ length (Crypto.nonce d) = 32%nat
    /\ length (Crypto.mac d) = 32%nat
    /\ 34 <= Z.of_nat (length (Crypto.ciphertext d)) <= 65538.
Proof.
  intros Hd. destruct (decodePayload_lengths P payload d Hd) as (Hln & Hlm & Hlc).
  apply decodePayload_layout in Hd
    as (data & _ & _ & Hdec & Hlen & Hhead & Hn & Hc & Hm).
  exists data. split; [exact Hdec |].
  split; [| split; [exact Hln | split; [exact Hlm | exact Hlc]]].
  destruct data as [| v rest]; [discriminate |]. injection Hhead as ->.
  f_equal. rewrite Hn, Hc, Hm. cbn [skipn drop length].
  change (drop 33 (x02 :: rest)) with (drop 32 rest).
  replace (Z.to_nat (Z.of_nat (S (length rest)) - 65)) with (length rest - 64)%nat by lia.
  replace (Z.to_nat (Z.of_nat (S (length rest)) - 32)) with (S (32 + (length rest - 64)))
    by (cbn [length] in Hlen; lia).
  cbn [drop]. rewrite <- drop_drop.
  rewrite (take_drop (length rest - 64) (drop 32 rest)).
  rewrite drop_0. symmetry. apply take_drop.
Qed.

Lemma decodePayload_partition_witness :
  exists data,
    Crypto.base64_decode Sample.primitives Sample.sealed = Some data
    /\ data = x02 :: Crypto.nonce (Sample.decoded Sample.sealed)
                  ++ Crypto.ciphertext (Sample.decoded Sample.sealed)
                  ++ Crypto.mac (Sample.decoded Sample.sealed)
    /\ length (Crypto.nonce (Sample.decoded Sample.sealed)) = 32%nat
    /\ length (Crypto.mac (Sample.decoded Sample.sealed)) = 32%nat
    /\ 34 <= Z.of_nat (length (Crypto.ciphertext (Sample.decoded Sample.sealed))) <= 65538.
Proof.
  apply (decodePayload_partition Sample.primitives Sample.sealed). vm_compute. reflexivity.
Defined.

Lemma decodePayload_errors (P : Crypto.Primitives) (payload : string) (e : Crypto.Error) :
  Crypto.decodePayload P payload = Throw e ->
  match e with
  | Crypto.ErrPayloadLength _ | Crypto.ErrVersionMarker | Crypto.ErrBase64
  | Crypto.ErrDataLength _ | Crypto.ErrVersion _ => True
  | _ => False
  end.
Proof.
  unfold Crypto.decodePayload.
  destruct (_ || _); [intros [= <-]; exact I |].
  destruct (bool_decide _); [intros [= <-]; exact I |].
  destruct (Crypto.base64_decode P payload) as [data |]; [| intros [= <-]; exact I].
  destruct (_ || _); [intros [= <-]; exact I |].
  destruct (negb _); [intros [= <-]; exact I | discriminate].
Qed.

Lemma unpadBytes_outcome (padded : list byte) :
  match Crypto.unpadBytes padded with
  | Ok unpadded => 1 <= Z.of_nat (length unpadded) <= 65535
  | Throw e => (e = Crypto.ErrRange /\ (length padded < 2)%nat) \/ e = Crypto.ErrPadding
  end.
Proof.
  unfold Crypto.unpadBytes.
  destruct padded as [| hi [| lo rest]]; cbn [getUint16];
    [left; split; [reflexivity | cbn; lia] ..|].
  set (len := byte_val hi * 256 + byte_val lo).
  unfold Crypto.MIN_PLAINTEXT_SIZE, Crypto.MAX_PLAINTEXT_SIZE.
  destruct (len <? 1) eqn:H1; [right; reflexivity |].
  destruct (len >? 65535) eqn:H2; [right; reflexivity |].
  destruct (Z.of_nat (length _) =? len) eqn:H3; cbn [negb orb]; [| right; reflexivity].
  rewrite calcPaddedLen_paddedLength by lia. cbn [mbind result_bind Js.bind].
  destruct (negb _); [right; reflexivity |]. lia.
Qed.

(** X5: three of the errors the helpers can throw never leave
    [decryptNip44ToBytes]: the AAD-length error of [hmacAad], 'expected
    positive integer' of [calcPaddedLen] and the conversation-key error; and
    if the stream cipher preserves the length of its input, the range error of
    [DataView.getUint16] does not either. *)
Theorem decrypt_unreachable_errors (P : Crypto.Primitives) (payload : string)
    (ck : list byte) (e : Crypto.Error) :
  Crypto.decryptNip44ToBytes P payload ck = Throw e ->
  e <> Crypto.ErrAadLength
  /\ e <> Crypto.ErrPositiveInteger
  /\ e <> Crypto.ErrConversationKey
  /\ ((forall key nonce data, length (Crypto.chacha20 P key nonce data) = length data) ->
      e <> Crypto.ErrRange).
Proof.
  unfold Crypto.decryptNip44ToBytes.
  destruct (Crypto.decodePayload P payload) as [d | e'] eqn:Hd;
    cbn [mbind result_bind Js.bind].
  - destruct (decodePayload_lengths P payload d Hd) as (Hln & _ & Hlc).
    unfold Crypto.hmacAad. rewrite Hln. cbn [Nat.eqb negb mbind result_bind Js.bind].
    destruct (negb _); [intros [= <-]; repeat split; discriminate |].
    match goal with |- Crypto.unpadBytes ?p = _ -> _ =>
      pose proof (unpadBytes_outcome p) as Hu; destruct (Crypto.unpadBytes p) as [u | e'']
    end; [discriminate |].
    intros [= <-]. destruct Hu as [[-> Hshort] | ->].
    + repeat split; try discriminate. intros Hlen. rewrite Hlen in Hshort. lia.
    + repeat split; discriminate.
  - intros [= <-]. apply decodePayload_errors in Hd.
    destruct e'; try contradiction; repeat split; discriminate.
Qed.

Lemma decrypt_unreachable_errors_witness :
  Crypto.ErrMac <> Crypto.ErrAadLength
  /\ Crypto.ErrMac <> Crypto.ErrPositiveInteger
  /\ Crypto.ErrMac <> Crypto.ErrConversationKey
  /\ ((forall key nonce data,
          length (Crypto.chacha20 Sample.primitives key nonce data) = length data) ->
      Crypto.ErrMac <> Crypto.ErrRange).
Proof.
  apply (decrypt_unreachable_errors Sample.primitives Sample.tampered []).
  vm_compute. reflexivity.
Defined.

(** X6: whatever [decryptChunkBinary] returns has between 1 and 65535 bytes,
    and the payload it was given has between 132 and 87472 characters. *)
Theorem decrypted_chunk_size (P : Crypto.Primitives) (payload : string)
    (secretKey : list byte) (pubkey : string) (plaintext : list byte) :
  Crypto.decryptChunkBinary P payload secretKey pubkey = Ok plaintext ->
  1 <= Z.of_nat (length plaintext) <= 65535
  /\ 132 <= Z.of_nat (String.length payload) <= 87472.
Proof.
  unfold Crypto.decryptChunkBinary.
  destruct (Crypto.getConversationKey P secretKey pubkey) as [ck |]; [| discriminate].
  unfold Crypto.decryptNip44ToBytes.
  destruct (Crypto.decodePayload P payload) as [d | e'] eqn:Hd;
    cbn [mbind result_bind Js.bind]; [| discriminate].
  apply decodePayload_layout in Hd as (data & Hplen & _).
  destruct (Crypto.hmacAad _ _ _ _) as [m | e']; cbn [mbind result_bind Js.bind];
    [| discriminate].
  destruct (negb _); [discriminate |].
  match goal with |- Crypto.unpadBytes ?p = _ -> _ =>
    pose proof (unpadBytes_outcome p) as Hu; destruct (Crypto.unpadBytes p) as [u | e'']
  end; [| discriminate].
  intros [= <-]. split; [exact Hu | lia].
Qed.

Lemma decrypted_chunk_size_witness :
  1 <= Z.of_nat (length [x61]) <= 65535
  /\ 132 <= Z.of_nat (String.length Sample.sealed) <= 87472.
Proof.
  apply (decrypted_chunk_size Sample.primitives Sample.sealed [] "pk" [x61]).
  vm_compute. reflexivity.
Defined.

Lemma sextets_padding_length (bytes : list Z) :
  (length (sextets bytes) + length (padding (length bytes))
   = 4 * ((length bytes + 2) / 3))%nat.
Proof.
  induction bytes as [| a | a b | a b c r IH] using list_ind3; try reflexivity.
  cbn [sextets length]. unfold padding in *.
  replace (S (S (S (length r))) mod 3)%nat with (length r mod 3)%nat by lia.
  replace ((S (S (S (length r))) + 2) / 3)%nat with (S ((length r + 2) / 3))%nat.
  - lia.
  - replace (S (S (S (length r))) + 2)%nat with ((length r + 2) + 1 * 3)%nat by lia.
    rewrite Nat.div_add by lia. lia.
Qed.

(** X7: for [n] bytes [uint8ArrayToBase64] returns [4 * ceil (n / 3)]
    characters, each of them a character of the base64 alphabet or ['=']. *)
Theorem uint8ArrayToBase64_shape (bytes : list byte) :
  let out := list_ascii_of_string (Crypto.uint8ArrayToBase64 bytes) in
  length out = (4 * ((length bytes + 2) / 3))%nat
  /\ Forall (fun c => b64_value c <> None \/ c = "="%char) out.
Proof.
  unfold Crypto.uint8ArrayToBase64, btoa.
  rewrite binaryString_of_bytes.
  change (EmptyString ++ string_of_list_ascii (map ascii_of_byte bytes))%string
    with (string_of_list_ascii (map ascii_of_byte bytes)).
  rewrite !list_ascii_of_string_of_list_ascii. cbn zeta.
  set (codes := map code (map ascii_of_byte bytes)).
  assert (Hcodes : Forall is_byte codes).
  { apply Forall_map, Forall_map, Forall_forall. intros b _. apply code_range. }
  split.
  - rewrite length_app, length_map, sextets_padding_length.
    unfold codes. now rewrite !length_map.
  - apply Forall_app. split.
    + apply sextets_range in Hcodes. apply Forall_map.
      eapply Forall_impl; [exact Hcodes |]. intros v Hv. cbn. left.
      rewrite b64_value_char by exact Hv. discriminate.
    + destruct (padding_cases (length codes)) as [-> | [-> | ->]];
        repeat constructor; right; reflexivity.
Qed.

Lemma unsextets_length (vals : list Z) :
  Z.of_nat (length (unsextets vals)) = 3 * Z.of_nat (length vals) / 4.
Proof.
  assert (H : forall n vals, (length vals <= n)%nat ->
              Z.of_nat (length (unsextets vals)) = 3 * Z.of_nat (length vals) / 4).
  { clear vals. induction n as [| n IH]; intros [| s1 [| s2 [| s3 [| s4 rest]]]] Hlen;
      try reflexivity; cbn [length] in Hlen; try lia.
    cbn [unsextets length]. rewrite !Nat2Z.inj_succ, (IH rest) by lia.
    replace (3 * Z.succ (Z.succ (Z.succ (Z.succ (Z.of_nat (length rest))))))
      with (3 * Z.of_nat (length rest) + 3 * 4) by lia.
    rewrite Z.div_add by lia. lia. }
  now apply (H (length vals)).
Qed.

Lemma values_of_alphabet (data : list ascii) (vals : list Z) :
  values_of data = Some vals ->
  length vals = length data /\ Forall (fun c => b64_value c <> None) data.
Proof.
  revert vals. induction data as [| c data IH]; intros vals; cbn [values_of].
  - intros [= <-]. split; [reflexivity | constructor].
  - destruct (b64_value c) as [v |] eqn:Hv; [| discriminate].
    destruct (values_of data) as [vs |]; [| discriminate]. intros [= <-].
    destruct (IH vs eq_refl) as [Hlen Hall].
    split; [cbn; now rewrite Hlen | constructor; [congruence | exact Hall]].
Qed.

Lemma drop_equals_split (reversed : list ascii) :
  reversed = drop_equals reversed \/ reversed = "="%char :: drop_equals reversed.
Proof.
  destruct reversed as [| c r]; cbn [drop_equals]; [now left |].
  destruct (code c =? 61) eqn:Hc; [right | now left].
  apply Z.eqb_eq in Hc. rewrite <- (char_code c), Hc. reflexivity.
Qed.

Lemma strip_padding_split (l : list ascii) :
  exists pad,
    l = strip_padding l ++ pad
    /\ (pad = [] \/ pad = ["="%char] \/ pad = ["="%char; "="%char]).
Proof.
  unfold strip_padding.
  destruct (drop_equals_split (rev l)) as [H1 | H1];
    destruct (drop_equals_split (drop_equals (rev l))) as [H2 | H2].
  - exists []. split; [| now left]. rewrite <- H2, <- H1, rev_involutive. now rewrite app_nil_r.
  - exists ["="%char]. split; [| right; now left].
    rewrite <- (rev_involutive l) at 1. rewrite H1 at 1. rewrite H2 at 1. reflexivity.
  - exists ["="%char]. split; [| right; now left].
    rewrite <- (rev_involutive l) at 1. rewrite H1 at 1. rewrite <- H2. reflexivity.
  - exists ["="%char; "="%char]. split; [| right; now right].
    rewrite <- (rev_involutive l) at 1. rewrite H1 at 1. rewrite H2 at 1.
    cbn [rev]. now rewrite <- app_assoc.
Qed.

(** X8: what [base64ToUint8Array] accepts: once the ASCII whitespace is
    removed the string is a run of characters of the alphabet followed by
    nothing, ['='] or ['=='], and with padding present the whole has a length
    that is a multiple of 4; the number [d] of alphabet characters is not 1
    modulo 4, and the result has [3 * d / 4] bytes (rounded down). *)
Theorem base64ToUint8Array_accepts (base64 : string) (bytes : list byte) :
  Crypto.base64ToUint8Array base64 = Ok bytes ->
  exists data pad,
    List.filter (fun c => negb (is_ascii_whitespace c)) (list_ascii_of_string base64)
    = data ++ pad
    /\ Forall (fun c => b64_value c <> None) data
    /\ (pad = []
        \/ ((pad = ["="%char] \/ pad = ["="%char; "="%char])
            /\ (length (data ++ pad) mod 4 = 0)%nat))
    /\ (length data mod 4 <> 1)%nat
    /\ Z.of_nat (length bytes) = 3 * Z.of_nat (length data) / 4.
Proof.
  unfold Crypto.base64ToUint8Array, atob.
  set (filtered := List.filter _ _).
  destruct (length filtered mod 4 =? 0)%nat eqn:Hmod.
  - destruct (strip_padding_split filtered) as (pad & Hsplit & Hpad).
    set (data := strip_padding filtered) in *.
    destruct (length data mod 4 =? 1)%nat eqn:H1; [discriminate |].
    destruct (values_of data) as [vals |] eqn:Hvals; [| discriminate].
    intros [= <-]. apply values_of_alphabet in Hvals as [Hlen Hall].
    exists data, pad. split; [exact Hsplit |]. split; [exact Hall |].
    split; [| split].
    + destruct Hpad as [-> | Hpad]; [now left | right]. split; [exact Hpad |].
      rewrite <- Hsplit. now apply Nat.eqb_eq.
    + now apply Nat.eqb_neq.
    + rewrite length_map, list_ascii_of_string_of_list_ascii, length_map.
      now rewrite unsextets_length, Hlen.
  - destruct (length filtered mod 4 =? 1)%nat eqn:H1; [discriminate |].
    destruct (values_of filtered) as [vals |] eqn:Hvals; [| discriminate].
    intros [= <-]. apply values_of_alphabet in Hvals as [Hlen Hall].
    exists filtered, []. rewrite app_nil_r. split; [reflexivity |]. split; [exact Hall |].
    split; [now left |]. split; [now apply Nat.eqb_neq |].
    rewrite length_map, list_ascii_of_string_of_list_ascii, length_map.
    now rewrite unsextets_length, Hlen.
Qed.

Lemma base64ToUint8Array_accepts_witness :
  exists data pad,
    List.filter (fun c => negb (is_ascii_whitespace c)) (list_ascii_of_string "YQ ==")
    = data ++ pad
    /\ Forall (fun c => b64_value c <> None) data
    /\ (pad = []
        \/ ((pad = ["="%char] \/ pad = ["="%char; "="%char])
            /\ (length (data ++ pad) mod 4 = 0)%nat))
    /\ (length data mod 4 <> 1)%nat
    /\ Z.of_nat (length [x61]) = 3 * Z.of_nat (length data) / 4.
Proof.
  apply (base64ToUint8Array_accepts "YQ ==" [x61]). vm_compute. reflexivity.
Defined.

(** *** Decimal numerals *)

Lemma digits_positive (d : Decimal.uint) (p : positive) :
  digits (list_ascii_of_string (NilEmpty.string_of_uint d)) (Some (Z.pos p))
  = Some (Z.pos (Pos.of_uint_acc d p)).
Proof.
  revert p. induction d as [| d IH | d IH | d IH | d IH | d IH | d IH | d IH | d IH | d IH | d IH];
    intros p; [reflexivity | ..];
    cbn [NilEmpty.string_of_uint list_ascii_of_string digits Pos.of_uint_acc];
    match goal with |- context [is_digit ?c] => change (is_digit c) with true end;
    cbv iota; cbn [default];
    match goal with |- context [digit_val ?c] =>
      let v := eval vm_compute in (digit_val c) in change (digit_val c) with v end;
    rewrite <- IH; do 2 f_equal; unfold id; lia.
Qed.

Lemma digits_zero (d : Decimal.uint) :
  digits (list_ascii_of_string (NilEmpty.string_of_uint d)) (Some 0)
  = Some (Z.of_N (Pos.of_uint d)).
Proof.
  induction d as [| d IH | d IH | d IH | d IH | d IH | d IH | d IH | d IH | d IH | d IH];
    [reflexivity | ..];
    cbn [NilEmpty.string_of_uint list_ascii_of_string digits Pos.of_uint];
    match goal with |- context [is_digit ?c] => change (is_digit c) with true end;
    cbv iota; cbn [default];
    match goal with |- context [digit_val ?c] =>
      let v := eval vm_compute in (digit_val c) in change (digit_val c) with v end;
    [exact IH | cbn [Z.of_N]; rewrite <- digits_positive; reflexivity ..].
Qed.

Lemma digits_numeral (d : Decimal.uint) :
  d <> Decimal.Nil ->
  digits (list_ascii_of_string (NilEmpty.string_of_uint d)) None
  = Some (Z.of_N (Pos.of_uint d)).
Proof.
  intros Hd. rewrite <- digits_zero.
  destruct d; [contradiction | reflexivity ..].
Qed.

(** The first character of a numeral is a digit. *)
Lemma numeral_head (d : Decimal.uint) :
  d <> Decimal.Nil ->
  exists c r,
    list_ascii_of_string (NilEmpty.string_of_uint d) = c :: r /\ is_digit c = true.
Proof.
  intros Hd. destruct d; [contradiction | ..]; eexists _, _; split; reflexivity.
Qed.

Lemma is_digit_plain (c : ascii) :
  is_digit c = true ->
  is_str_whitespace c = false /\ (code c =? 45) = false /\ (code c =? 43) = false.
Proof.
  unfold is_digit, is_str_whitespace. intros H.
  apply andb_true_iff in H as [H1 H2]. apply Z.leb_le in H1, H2.
  repeat split; repeat (apply orb_false_iff; split); lia.
Qed.

Lemma parseInt_numeral (d : Decimal.uint) :
  d <> Decimal.Nil ->
  parseInt (NilEmpty.string_of_uint d) = Some (Z.of_N (Pos.of_uint d))
  /\ parseInt (String "-" (NilEmpty.string_of_uint d)) = Some (- Z.of_N (Pos.of_uint d)).
Proof.
  intros Hd. pose proof (digits_numeral d Hd) as Hdig.
  destruct (numeral_head d Hd) as (c & r & Hcr & Hc).
  destruct (is_digit_plain c Hc) as (Hws & Hminus & Hplus).
  unfold parseInt. split.
  - rewrite Hcr in *. cbn [skip_whitespace]. rewrite Hws, Hminus, Hplus. exact Hdig.
  - cbn [list_ascii_of_string skip_whitespace].
    change (is_str_whitespace "-") with false. cbv iota.
    change (code "-" =? 45) with true. cbv iota.
    rewrite Hdig. reflexivity.
Qed.

Lemma parseInt_string_of_number (n : Z) : parseInt (string_of_number n) = Some n.
Proof.
  unfold string_of_number. destruct n as [| p | p]; [reflexivity | ..];
    cbn [Z.to_int NilZero.string_of_int];
    pose proof (DecimalPos.Unsigned.to_uint_nonnil p) as Hnil;
    pose proof (DecimalPos.Unsigned.of_to p) as Hof;
    destruct (parseInt_numeral (Pos.to_uint p) Hnil) as [Hpos Hneg];
    rewrite Hof in Hpos, Hneg;
    (replace (NilZero.string_of_uint (Pos.to_uint p))
       with (NilEmpty.string_of_uint (Pos.to_uint p))
       by (destruct (Pos.to_uint p); [contradiction | reflexivity ..]));
    assumption.
Qed.

(** *** Strings and [split] *)

Lemma list_ascii_of_string_app (s t : string) :
  list_ascii_of_string (s ++ t) = list_ascii_of_string s ++ list_ascii_of_string t.
Proof.
  induction s as [| c s IH]; [reflexivity |].
  change (String c s ++ t)%string with (String c (s ++ t)%string).
  cbn [list_ascii_of_string]. now rewrite IH.
Qed.

Lemma split_chars_nonempty (sep : ascii) (l : list ascii) : split_chars sep l <> [].
Proof.
  destruct l as [| c r]; cbn [split_chars]; [discriminate |].
  destruct (Ascii.eqb c sep); [discriminate |].
  destruct (split_chars sep r); discriminate.
Qed.

(** The segments after the last separator of the left part are those of
    the right part. *)
Lemma split_chars_app (sep : ascii) (l1 l2 : list ascii) :
  exists init,
    init <> [] /\ split_chars sep (l1 ++ sep :: l2) = init ++ split_chars sep l2.
Proof.
  induction l1 as [| c l1 (init & Hne & IH)]; cbn [app split_chars].
  - exists [[]]. rewrite Ascii.eqb_refl. split; [discriminate | reflexivity].
  - destruct (Ascii.eqb c sep).
    + exists ([] :: init). split; [discriminate |]. now rewrite IH.
    + rewrite IH. destruct init as [| h t]; [contradiction |].
      exists ((c :: h) :: t). split; [discriminate | reflexivity].
Qed.

Lemma split_chars_whole (sep : ascii) (l : list ascii) :
  ~ In sep l -> split_chars sep l = [l].
Proof.
  induction l as [| c l IH]; intros Hin; cbn [split_chars]; [reflexivity |].
  destruct (Ascii.eqb_spec c sep) as [-> | Hne]; [exfalso; apply Hin; now left |].
  rewrite IH by (intros H; apply Hin; now right). reflexivity.
Qed.

Lemma last_split (sep : ascii) (s t : string) :
  ~ In sep (list_ascii_of_string t) ->
  last (split sep t) = Some t
  /\ last (split sep (s ++ String sep t)) = Some t.
Proof.
  intros Hin. unfold split. split.
  - rewrite split_chars_whole by exact Hin. cbn [map last].
    now rewrite string_of_list_ascii_of_string.
  - rewrite list_ascii_of_string_app. cbn [list_ascii_of_string].
    destruct (split_chars_app sep (list_ascii_of_string s) (list_ascii_of_string t))
      as (init & _ & ->).
    rewrite split_chars_whole by exact Hin.
    rewrite map_app, last_app. cbn [map last].
    now rewrite string_of_list_ascii_of_string.
Qed.

(** A decimal numeral consists of digits, after a sign if negative. *)
Lemma numeral_digits (d : Decimal.uint) :
  Forall (fun c => is_digit c = true) (list_ascii_of_string (NilEmpty.string_of_uint d)).
Proof.
  induction d; cbn [NilEmpty.string_of_uint list_ascii_of_string]; constructor;
    solve [reflexivity | assumption].
Qed.

Lemma string_of_number_chars (n : Z) :
  Forall (fun c => is_digit c = true \/ c = "-"%char)
         (list_ascii_of_string (string_of_number n))
  /\ string_of_number n <> EmptyString.
Proof.
  unfold string_of_number.
  assert (Hz : forall d, d <> Decimal.Nil ->
               NilZero.string_of_uint d = NilEmpty.string_of_uint d)
    by (intros [] Hd; [contradiction | reflexivity ..]).
  assert (Hne : forall d, d <> Decimal.Nil -> NilEmpty.string_of_uint d <> EmptyString)
    by (intros [] Hd; [contradiction | discriminate ..]).
  destruct n as [| p | p]; cbn [Z.to_int NilZero.string_of_int].
  - split; [repeat constructor | discriminate].
  - pose proof (DecimalPos.Unsigned.to_uint_nonnil p) as Hnil.
    rewrite Hz by exact Hnil. split; [| now apply Hne].
    eapply Forall_impl; [apply numeral_digits |]. intros c Hc. now left.
  - pose proof (DecimalPos.Unsigned.to_uint_nonnil p) as Hnil.
    rewrite Hz by exact Hnil. split; [| discriminate].
    cbn [list_ascii_of_string]. constructor; [now right |].
    eapply Forall_impl; [apply numeral_digits |]. intros c Hc. now left.
Qed.

Lemma string_of_number_no (sep : ascii) (n : Z) :
  is_digit sep = false -> sep <> "-"%char ->
  ~ In sep (list_ascii_of_string (string_of_number n)).
Proof.
  intros Hd Hm Hin. destruct (string_of_number_chars n) as [Hall _].
  rewrite List.Forall_forall in Hall. destruct (Hall sep Hin); congruence.
Qed.

Lemma truthy_nonempty (s : string) : s <> EmptyString -> Nostr.truthy (Some s) = Some s.
Proof. destruct s; [contradiction | reflexivity]. Qed.

(** X9: [parseChunkIndexFromTags] reads a safe integer [n] back from its
    decimal numeral: from the second element of the first ['chunk'] tag; if
    that tag gives no integer, from the part of the ['d'] tag's value after
    its last [':']; and the result is [null] when the ['chunk'] tag gives no
    integer and the ['d'] tag has no value. *)
Theorem parseChunkIndexFromTags_reads (tags : list (list string)) (n : Z) :
  isSafeInteger n = true ->
  (forall rest,
      Nostr.findTag "chunk" tags = Some ("chunk" :: string_of_number n :: rest)%string ->
      Nostr.parseChunkIndexFromTags tags = Some n)
  /\ (forall prefix rest,
         Nostr.truthy (Nostr.findTag "chunk" tags ≫= (.!! 1%nat)) ≫= parseInt = None ->
         Nostr.findTag "d" tags
         = Some ("d" :: (prefix ++ String ":" (string_of_number n)) :: rest)%string ->
         Nostr.parseChunkIndexFromTags tags = Some n)
  /\ (Nostr.truthy (Nostr.findTag "chunk" tags ≫= (.!! 1%nat)) ≫= parseInt = None ->
      Nostr.truthy (Nostr.findTag "d" tags ≫= (.!! 1%nat)) = None ->
      Nostr.parseChunkIndexFromTags tags = None).
Proof.
  intros _. destruct (string_of_number_chars n) as [_ Hne].
  unfold Nostr.parseChunkIndexFromTags. split; [| split].
  - intros rest ->. cbn [mbind option_bind lookup list_lookup].
    rewrite truthy_nonempty by exact Hne. cbn [mbind option_bind].
    now rewrite parseInt_string_of_number.
  - intros prefix rest -> ->. cbn [mbind option_bind lookup list_lookup].
    rewrite truthy_nonempty.
    2: { destruct prefix; discriminate. }
    assert (Hcolon : ~ In ":"%char (list_ascii_of_string (string_of_number n)))
      by (apply string_of_number_no; [reflexivity | discriminate]).
    destruct (last_split ":" prefix (string_of_number n) Hcolon) as [_ ->].
    cbn [mbind option_bind]. apply parseInt_string_of_number.
  - intros -> ->. reflexivity.
Qed.

Lemma parseChunkIndexFromTags_reads_witness :
  Nostr.parseChunkIndexFromTags [["x"; "h"]; ["d"; "h:a:" ++ string_of_number 17]]%string
  = Some 17.
Proof.
  apply (proj1 (proj2 (parseChunkIndexFromTags_reads
                         [["x"; "h"]; ["d"; "h:a:" ++ string_of_number 17]]%string
                         17 eq_refl)) "h:a"%string []); reflexivity.
Defined.

(** *** Pages and d-tags *)

Lemma string_of_number_inj (n m : Z) : string_of_number n = string_of_number m -> n = m.
Proof.
  intros H. pose proof (parseInt_string_of_number n) as Hn.
  rewrite H, parseInt_string_of_number in Hn. congruence.
Qed.

Lemma archiveTag_inj (n m : Z) : D_TAGS.archiveTag n = D_TAGS.archiveTag m -> n = m.
Proof.
  unfold D_TAGS.archiveTag. intros H. apply (inj (String.append _)) in H.
  now apply string_of_number_inj.
Qed.

Lemma archiveTag_not_current (n : Z) : D_TAGS.archiveTag n <> D_TAGS.CURRENT_INDEX.
Proof.
  unfold D_TAGS.archiveTag, D_TAGS.CURRENT_INDEX.
  cbv beta iota delta [String.append]. discriminate.
Qed.

Lemma getDTagForPage_inj (totalArchives page page' : Z) :
  Nostr.getDTagForPage page totalArchives = Nostr.getDTagForPage page' totalArchives ->
  page = page'.
Proof.
  unfold Nostr.getDTagForPage.
  destruct (Z.eqb_spec page 1) as [-> | Hp]; destruct (Z.eqb_spec page' 1) as [-> | Hp'].
  - reflexivity.
  - intros H. symmetry in H. now apply archiveTag_not_current in H.
  - intros H. now apply archiveTag_not_current in H.
  - intros H. apply archiveTag_inj in H. lia.
Qed.

Section Pager.

Variables (J : Nostr.Json) (pool : Nostr.Pool) (pubkey : string).

(** The index on display is the one loaded for the page. *)
Let shown (s : FileList.State) : Prop :=
  1 <= FileList.page s
  /\ FileList.index s = FileList.loadIndex J pool pubkey (FileList.page s).

Lemma mount_shown : shown (FileList.mount J pool pubkey).
Proof using Type. split; [cbn; lia | reflexivity]. Qed.

Lemma press_shown (s : FileList.State) (b : FileList.Click) :
  shown s -> shown (FileList.press J pool pubkey s b).
Proof using Type.
  intros Hs. pose proof Hs as [Hp _]. unfold FileList.press.
  destruct (FileList.index s) as [i |] eqn:Hidx; [| exact Hs].
  destruct (Z.gtb_spec (FileList.totalPages (Some i)) 1) as [Ht | _]; [| exact Hs].
  cbv zeta. destruct (Z.eqb_spec (FileList.click (FileList.totalPages (Some i))
                                    (FileList.page s) b) (FileList.page s));
    [exact Hs |].
  split; [| reflexivity]. cbn [FileList.page].
  destruct b; unfold FileList.click, FileList.newerPage, FileList.olderPage; lia.
Qed.

Lemma presses_shown (clicks : list FileList.Click) (s : FileList.State) :
  shown s -> shown (fold_left (FileList.press J pool pubkey) clicks s).
Proof using Type.
  revert s. induction clicks as [| b clicks IH]; intros s Hs; cbn [fold_left];
    [exact Hs |].
  apply IH, press_shown, Hs.
Qed.

(** With the same number of archives [T] in every index that can be
    loaded, the pager stays on the pages 1 to [T + 1]. *)
Lemma press_bounded (T : Z) (s : FileList.State) (b : FileList.Click) :
  (forall p i, FileList.loadIndex J pool pubkey p = Some i ->
               FileIndex.total_archives i = T) ->
  shown s -> FileList.page s <= T + 1 ->
  FileList.page (FileList.press J pool pubkey s b) <= T + 1.
Proof using Type.
  intros HT [Hp Hi] Hle. unfold FileList.press.
  destruct (FileList.index s) as [i |] eqn:Hidx; [| exact Hle].
  destruct (Z.gtb_spec (FileList.totalPages (Some i)) 1) as [Ht | _]; [| exact Hle].
  cbv zeta. destruct (Z.eqb_spec (FileList.click (FileList.totalPages (Some i))
                                    (FileList.page s) b) (FileList.page s));
    [exact Hle |].
  cbn [FileList.page]. symmetry in Hi. apply HT in Hi.
  destruct b; unfold FileList.click, FileList.newerPage, FileList.olderPage;
    cbn [FileList.totalPages]; lia.
Qed.

Lemma presses_bounded (T : Z) (clicks : list FileList.Click) (s : FileList.State) :
  (forall p i, FileList.loadIndex J pool pubkey p = Some i ->
               FileIndex.total_archives i = T) ->
  shown s -> FileList.page s <= T + 1 ->
  FileList.page (fold_left (FileList.press J pool pubkey) clicks s) <= T + 1.
Proof using Type.
  intros HT. revert s. induction clicks as [| b clicks IH]; intros s Hs Hle;
    cbn [fold_left]; [exact Hle |].
  apply IH; [now apply press_shown | now apply press_bounded].
Qed.

(** The queries that loading page [p] issues, when the current index
    counts [T] archives. *)
Lemma fetchFileIndex_asks (T p : Z) :
  (forall q i, FileList.loadIndex J pool pubkey q = Some i ->
               FileIndex.total_archives i = T) ->
  1 <= p <= T + 1 ->
  Forall (fun op =>
            op = Nostr.Query FileUtils.DEFAULT_INDEX_RELAYS
                   (Nostr.indexFilter pubkey D_TAGS.CURRENT_INDEX)
            \/ exists k,
                 1 <= k <= T /\ k = T + 2 - p
                 /\ op = Nostr.Query FileUtils.DEFAULT_INDEX_RELAYS
                          (Nostr.indexFilter pubkey (D_TAGS.archiveTag k)))
         (fst (Nostr.fetchFileIndex J pool FileUtils.DEFAULT_INDEX_RELAYS pubkey p)).
Proof using Type.
  intros HT Hp. specialize (HT 1).
  unfold FileList.loadIndex, Nostr.fetchFileIndex in *. cbn [Z.eqb Pos.eqb] in HT.
  destruct (Z.eqb_spec p 1) as [-> | Hne].
  - unfold Nostr.fetchFileIndex_current. cbn [fst]. repeat constructor.
  - unfold Nostr.fetchFileIndex_current in *. cbn [snd] in HT.
    destruct (Nostr.selectIndex J _) as [[cur |] | err]; cbn [fst];
      [| repeat constructor ..].
    specialize (HT cur eq_refl). cbn [app]. constructor; [now left |].
    constructor; [| constructor]. right. exists (T + 2 - p).
    split; [lia |]. split; [reflexivity |].
    unfold Nostr.getDTagForPage. rewrite HT.
    destruct (Z.eqb_spec p 1); [contradiction | reflexivity].
Qed.

End Pager.

(** X10: the pager of [FileList] together with [fetchFileIndex].  The page
    starts at 1; a click moves it by [Math.max(1, p - 1)] or
    [Math.min(totalPages, p + 1)], where [totalPages] comes from the index on
    display, and the new page is then loaded.  Whatever the relays hold and
    whatever is clicked, the page never falls below 1.  If every index that
    can be loaded counts the same number [T] of archives ([T + 2] a safe
    integer), then the page stays between 1 and [T + 1]; loading it asks
    only for the current index and, on a page [p] other than 1, for the
    archive numbered [T + 2 - p], which lies between 1 and [T]; and two
    different pages of that range never map to the same tag.  Without that
    hypothesis the bound fails: see [pager_leaves_range]. *)
Theorem pager_pages_distinct (J : Nostr.Json) (pool : Nostr.Pool) (pubkey : string)
    (clicks : list FileList.Click) :
  let s := fold_left (FileList.press J pool pubkey) clicks
             (FileList.mount J pool pubkey) in
  1 <= FileList.page s
  /\ FileList.index s = FileList.loadIndex J pool pubkey (FileList.page s)
  /\ forall T,
       0 <= T ->
       isSafeInteger (T + 2) = true ->
       (forall p i, FileList.loadIndex J pool pubkey p = Some i ->
                    FileIndex.total_archives i = T) ->
       FileList.page s <= T + 1
       /\ Forall (fun op =>
                    op = Nostr.Query FileUtils.DEFAULT_INDEX_RELAYS
                           (Nostr.indexFilter pubkey D_TAGS.CURRENT_INDEX)
                    \/ exists k,
                         1 <= k <= T /\ k = T + 2 - FileList.page s
                         /\ op = Nostr.Query FileUtils.DEFAULT_INDEX_RELAYS
                                  (Nostr.indexFilter pubkey (D_TAGS.archiveTag k)))
                 (fst (Nostr.fetchFileIndex J pool FileUtils.DEFAULT_INDEX_RELAYS pubkey
                         (FileList.page s)))
       /\ (forall p',
              1 <= p' <= T + 1 ->
              Nostr.getDTagForPage (FileList.page s) T = Nostr.getDTagForPage p' T ->
              FileList.page s = p').
Proof.
  intros s.
  pose proof (presses_shown J pool pubkey clicks _ (mount_shown J pool pubkey))
    as [Hp Hi].
  fold s in Hp, Hi. split; [exact Hp |]. split; [exact Hi |].
  intros T HT _ Hsame.
  assert (Hle : FileList.page s <= T + 1).
  { apply presses_bounded; [exact Hsame | apply mount_shown | cbn; lia]. }
  split; [exact Hle |]. split.
  - apply fetchFileIndex_asks; [exact Hsame | lia].
  - intros p' _. apply getDTagForPage_inj.
Qed.

Lemma pager_pages_distinct_witness :
  FileList.page
    (fold_left (FileList.press Sample.totals Sample.everyPage "pk")
       [FileList.Older; FileList.Older; FileList.Older; FileList.Older; FileList.Newer]
       (FileList.mount Sample.totals Sample.everyPage "pk"))
  = 3
  /\ FileList.page
       (fold_left (FileList.press Sample.totals Sample.everyPage "pk")
          [FileList.Older; FileList.Older; FileList.Older; FileList.Older; FileList.Newer]
          (FileList.mount Sample.totals Sample.everyPage "pk"))
     <= 3 + 1.
Proof.
  split; [vm_compute; reflexivity |].
  refine (proj1 (proj2 (proj2 (pager_pages_distinct Sample.totals Sample.everyPage "pk"
                                 [FileList.Older; FileList.Older; FileList.Older;
                                  FileList.Older; FileList.Newer]))
                   3 ltac:(lia) ltac:(reflexivity) _)).
  intros p i. unfold FileList.loadIndex, Nostr.fetchFileIndex, Nostr.fetchFileIndex_current.
  destruct (p =? 1); cbn; intros [= <-]; reflexivity.
Defined.

(** Where an archive record counts more archives than the current index,
    the pager leaves the range of the pages: the current index counts one
    archive, the record of archive 1 counts five, and two clicks on 'Older'
    lead to page 3, for which archive number 0 is asked. *)
Example pager_leaves_range :
  FileList.loadIndex Sample.totals Sample.drifting "pk" 1
  = Some {| FileIndex.version := 2; FileIndex.entries := [];
            FileIndex.archive_number := 0; FileIndex.total_archives := 1 |}
  /\ FileList.page
       (fold_left (FileList.press Sample.totals Sample.drifting "pk")
          [FileList.Older; FileList.Older]
          (FileList.mount Sample.totals Sample.drifting "pk"))
     = 3
  /\ fst (Nostr.fetchFileIndex Sample.totals Sample.drifting
            FileUtils.DEFAULT_INDEX_RELAYS "pk" 3)
     = [ Nostr.Query FileUtils.DEFAULT_INDEX_RELAYS
           (Nostr.indexFilter "pk" "nostrsave-index");
         Nostr.Query FileUtils.DEFAULT_INDEX_RELAYS
           (Nostr.indexFilter "pk" "nostrsave-index-archive-0") ].
Proof. vm_compute. repeat split. Qed.


(** *** File names and MIME types *)

Lemma lower_idempotent (c : ascii) : JsString.lower (JsString.lower c) = JsString.lower c.
Proof. destruct c as [[] [] [] [] [] [] [] []]; vm_compute; reflexivity. Qed.

Lemma lower_dot (c : ascii) : JsString.lower c = "."%char -> c = "."%char.
Proof. destruct c as [[] [] [] [] [] [] [] []]; vm_compute; congruence. Qed.

Lemma toLowerCase_idempotent (s : string) :
  JsString.toLowerCase (JsString.toLowerCase s) = JsString.toLowerCase s.
Proof.
  unfold JsString.toLowerCase. rewrite list_ascii_of_string_of_list_ascii, map_map.
  f_equal. apply map_ext. intros c. apply lower_idempotent.
Qed.

(** Lowering commutes with splitting at dots. *)
Lemma split_chars_lower (l : list ascii) :
  split_chars "." (map JsString.lower l) = map (map JsString.lower) (split_chars "." l).
Proof.
  induction l as [| c l IH]; [reflexivity |]. cbn [map split_chars]. rewrite IH.
  destruct (Ascii.eqb_spec c ".") as [-> | Hc].
  - reflexivity.
  - destruct (Ascii.eqb_spec (JsString.lower c) ".") as [Hl | _];
      [now apply lower_dot in Hl |].
    destruct (split_chars "." l) as [| h t] eqn:Hs; [| reflexivity].
    now apply split_chars_nonempty in Hs.
Qed.

Lemma last_split_lower (s : string) :
  JsString.toLowerCase <$> last (split "." (JsString.toLowerCase s))
  = JsString.toLowerCase <$> last (split "." s).
Proof.
  unfold split, JsString.toLowerCase at 2.
  rewrite list_ascii_of_string_of_list_ascii, split_chars_lower.
  rewrite !fmap_last.
  destruct (last (split_chars "." (list_ascii_of_string s))) as [l |]; [| reflexivity].
  cbn [fmap option_fmap option_map]. f_equal.
  unfold JsString.toLowerCase. rewrite !list_ascii_of_string_of_list_ascii, map_map.
  f_equal. apply map_ext. intros c. apply lower_idempotent.
Qed.

Lemma getMimeTypeFromName_lower (fileName : string) :
  FileUtils.getMimeTypeFromName (JsString.toLowerCase fileName)
  = FileUtils.getMimeTypeFromName fileName
  /\ FileDetail.getMimeTypeFromName (JsString.toLowerCase fileName)
     = FileDetail.getMimeTypeFromName fileName.
Proof.
  unfold FileUtils.getMimeTypeFromName, FileDetail.getMimeTypeFromName.
  now rewrite last_split_lower.
Qed.

Lemma getMimeTypeFromName_last (base ext : string) :
  ~ In "."%char (list_ascii_of_string ext) ->
  FileUtils.getMimeTypeFromName (base ++ String "." ext)
  = FileUtils.getMimeTypeFromName ext
  /\ FileDetail.getMimeTypeFromName (base ++ String "." ext)
     = FileDetail.getMimeTypeFromName ext.
Proof.
  intros Hdot. unfold FileUtils.getMimeTypeFromName, FileDetail.getMimeTypeFromName.
  destruct (last_split "." base ext Hdot) as [-> ->]. split; reflexivity.
Qed.

(** A lowered string names no member of [Object.prototype] other than
    [constructor] and [__proto__]. *)
Lemma lowered_inherited (s : string) :
  existsb (String.eqb (JsString.toLowerCase s)) JsObject.objectPrototype = true ->
  JsString.toLowerCase s = "constructor"%string \/ JsString.toLowerCase s = "__proto__"%string.
Proof.
  intros H. apply existsb_exists in H as (name & Hin & Heq).
  apply String.eqb_eq in Heq. pose proof (toLowerCase_idempotent s) as Hid.
  rewrite Heq in *. clear Heq.
  unfold JsObject.objectPrototype in Hin. cbn [In] in Hin.
  repeat (destruct Hin as [<- | Hin]; [first [now left | now right | vm_compute in Hid; discriminate] |]).
  contradiction.
Qed.

Lemma get_range (table : list (string * string)) (s : string) (v : JsObject.Value) :
  JsObject.orNull (JsObject.get table (JsString.toLowerCase s)) = Some v ->
  (exists mime, In mime (map snd table) /\ mime <> EmptyString /\ v = JsObject.Str mime)
  \/ ((JsString.toLowerCase s = "constructor"%string
       \/ JsString.toLowerCase s = "__proto__"%string)
      /\ v = JsObject.Inherited (JsString.toLowerCase s)).
Proof.
  unfold JsObject.get.
  destruct (find _ table) as [[ext mime] |] eqn:Hfind.
  - apply find_some in Hfind as [Hin _]. cbn [snd JsObject.orNull].
    destruct mime as [| c mime]; [discriminate |]. intros [= <-]. left.
    exists (String c mime). split; [| split; [discriminate | reflexivity]].
    apply in_map_iff. now exists (ext, String c mime).
  - destruct (existsb _ _) eqn:Hex; [| discriminate]. cbn [JsObject.orNull].
    intros [= <-]. right. split; [| reflexivity]. now apply lowered_inherited.
Qed.

Lemma truthy_lowered (o : option string) (ext : string) :
  Nostr.truthy (JsString.toLowerCase <$> o) = Some ext ->
  exists s, ext = JsString.toLowerCase s /\ ext <> EmptyString.
Proof.
  destruct o as [s |]; [| discriminate]. cbn [fmap option_fmap option_map].
  destruct (JsString.toLowerCase s) eqn:Hs; [discriminate |]. intros [= <-].
  exists s. split; [now symmetry | discriminate].
Qed.

(** X11: [getMimeTypeFromName] of [fileUtils.ts] looks only at the text after
    the last dot, so that a name without a dot is its own extension; it
    ignores the case of the extension; an extension of the table gets the
    table's type; an extension whose lower-case form is ['constructor'] or
    ['__proto__'] gets the member of that name that the object literal
    inherits from [Object.prototype], which is no string; and every other
    extension gets [null]. *)
Theorem mime_type_by_extension (base ext : string) :
  ~ In "."%char (list_ascii_of_string ext) ->
  let lowered := JsString.toLowerCase ext in
  FileUtils.getMimeTypeFromName (base ++ String "." ext)
  = FileUtils.getMimeTypeFromName ext
  /\ FileUtils.getMimeTypeFromName ext = FileUtils.getMimeTypeFromName lowered
  /\ (forall mime,
         In (lowered, mime) FileUtils.mimeTypes ->
         FileUtils.getMimeTypeFromName ext = Some (JsObject.Str mime))
  /\ (~ In lowered (map fst FileUtils.mimeTypes) ->
      lowered <> "constructor"%string -> lowered <> "__proto__"%string ->
      FileUtils.getMimeTypeFromName ext = None)
  /\ (lowered = "constructor"%string \/ lowered = "__proto__"%string ->
      FileUtils.getMimeTypeFromName ext = Some (JsObject.Inherited lowered)).
Proof.
  intros Hdot lowered.
  split; [apply getMimeTypeFromName_last, Hdot |].
  split; [symmetry; apply getMimeTypeFromName_lower |].
  assert (Hext : FileUtils.getMimeTypeFromName ext
                 = match Nostr.truthy (Some lowered) with
                   | Some e => JsObject.orNull (JsObject.get FileUtils.mimeTypes e)
                   | None => None
                   end).
  { unfold FileUtils.getMimeTypeFromName.
    destruct (last_split "." base ext Hdot) as [-> _]. reflexivity. }
  rewrite Hext. split; [| split].
  - intros mime Hin. unfold FileUtils.mimeTypes in Hin. cbn [In] in Hin.
    repeat (destruct Hin as [[= <- <-] | Hin]; [reflexivity |]). contradiction.
  - intros Hnin Hc Hp.
    destruct (Nostr.truthy (Some lowered)) as [e |] eqn:He; [| reflexivity].
    assert (e = lowered) by (destruct lowered; [discriminate | now injection He]). subst e.
    unfold JsObject.get.
    destruct (find _ FileUtils.mimeTypes) as [[e mime] |] eqn:Hfind.
    + apply find_some in Hfind as [Hin Heq]. cbn [fst] in Heq.
      apply String.eqb_eq in Heq. subst e.
      exfalso. apply Hnin, in_map_iff. now exists (lowered, mime).
    + destruct (existsb _ _) eqn:Hex; [| reflexivity].
      apply lowered_inherited in Hex as [H | H]; contradiction.
  - intros [H | H]; rewrite H; reflexivity.
Qed.

Lemma mime_type_by_extension_witness :
  FileUtils.getMimeTypeFromName ("Holiday.Photo" ++ String "." "JPeG")
  = FileUtils.getMimeTypeFromName "JPeG"
  /\ FileUtils.getMimeTypeFromName "JPeG" = Some (JsObject.Str "image/jpeg").
Proof.
  assert (Hdot : ~ In "."%char (list_ascii_of_string "JPeG"))
    by (cbn; intros [H | [H | [H | [H | []]]]]; discriminate).
  destruct (mime_type_by_extension "Holiday.Photo" "JPeG" Hdot) as (H1 & _ & H2 & _).
  split; [exact H1 |]. apply H2. vm_compute. tauto.
Defined.

(** What [getMimeTypeFromName] of [FileDetail.tsx] can return. *)
Lemma guess_cases (fileName : string) (v : JsObject.Value) :
  FileDetail.getMimeTypeFromName fileName = Some v ->
  (exists mime,
      v = JsObject.Str mime
      /\ In mime (map snd FileDetail.mimeTypes)
      /\ FileDetail.isPreviewableMime (JsObject.Str mime) = Ok true)
  \/ (exists name,
         v = JsObject.Inherited name
         /\ (name = "constructor"%string \/ name = "__proto__"%string)).
Proof.
  unfold FileDetail.getMimeTypeFromName.
  destruct (Nostr.truthy _) as [ext |] eqn:Hext; [| discriminate].
  apply truthy_lowered in Hext as (s & -> & _). intros Hv.
  apply get_range in Hv as [(mime & Hin & _ & ->) | [Hname ->]].
  - left. exists mime. split; [reflexivity |]. split; [exact Hin |].
    unfold FileDetail.mimeTypes in Hin. cbn [map snd In] in Hin.
    repeat (destruct Hin as [<- | Hin]; [reflexivity |]). contradiction.
  - right. eexists. split; [reflexivity | exact Hname].
Qed.

(** X12: in [FileDetail.tsx] a type guessed from a file name is either a type
    of the table, all of which [isPreviewableMime] accepts, or a member that
    the object literal inherits under ['constructor'] or ['__proto__'], on
    which [isPreviewableMime] throws a [TypeError] ([startsWith] is not a
    function); a file named [base ++ ".Constructor"] gets the inherited
    member. *)
Theorem guessed_type_is_previewable (fileName : string) :
  match FileDetail.getMimeTypeFromName fileName with
  | None => True
  | Some (JsObject.Str mime) =>
      In mime (map snd FileDetail.mimeTypes)
      /\ FileDetail.isPreviewableMime (JsObject.Str mime) = Ok true
  | Some (JsObject.Inherited name) =>
      (name = "constructor"%string \/ name = "__proto__"%string)
      /\ FileDetail.isPreviewableMime (JsObject.Inherited name)
         = Throw FileDetail.NotAFunction
  end
  /\ (forall base,
        FileDetail.getMimeTypeFromName (base ++ ".Constructor")
        = Some (JsObject.Inherited "constructor")).
Proof.
  split.
  - destruct (FileDetail.getMimeTypeFromName fileName) as [v |] eqn:Hv; [| exact I].
    apply guess_cases in Hv as [(mime & -> & Hin & Hok) | (name & -> & Hname)].
    + split; [exact Hin | exact Hok].
    + split; [exact Hname | reflexivity].
  - intros base.
    assert (Hdot : ~ In "."%char (list_ascii_of_string "Constructor"))
      by (cbn; intuition discriminate).
    change (base ++ ".Constructor")%string with (base ++ String "." "Constructor")%string.
    rewrite (proj2 (getMimeTypeFromName_last base "Constructor" Hdot)). reflexivity.
Qed.

(** X26: the memo [isPreviewable] of [FileDetail.tsx]: an encrypted file and
    a file of more than 5 MiB are never previewable, whatever their type; a
    file that is neither, has no MIME type of its own and whose name gives a
    type of the table is previewable; and the memo throws only for a manifest
    without a MIME type of its own whose file name has the extension
    ['constructor'] or ['__proto__'], in whatever case. *)
Theorem preview_gate (manifest : Manifest.t) :
  (Manifest.encryption manifest = "nip44"%string
   \/ Manifest.file_size manifest > 5242880 ->
     FileDetail.isPreviewable manifest = Ok false)
  /\ (forall mime,
        Manifest.encryption manifest <> "nip44"%string ->
        Manifest.file_size manifest <= 5242880 ->
        Nostr.truthy (Manifest.mime_type manifest) = None ->
        FileDetail.getMimeTypeFromName (Manifest.file_name manifest)
        = Some (JsObject.Str mime) ->
        FileDetail.isPreviewable manifest = Ok true)
  /\ (forall e,
        FileDetail.isPreviewable manifest = Throw e ->
        Nostr.truthy (Manifest.mime_type manifest) = None
        /\ exists name,
             (name = "constructor"%string \/ name = "__proto__"%string)
             /\ FileDetail.getMimeTypeFromName (Manifest.file_name manifest)
                = Some (JsObject.Inherited name)).
Proof.
  unfold FileDetail.isPreviewable.
  change FileDetail.MAX_PREVIEW_BYTES with 5242880.
  destruct (String.eqb_spec (Manifest.encryption manifest) "nip44") as [Henc | Henc].
  { split; [reflexivity |]. split; [intros mime H; contradiction | discriminate]. }
  destruct (Z.gtb_spec (Manifest.file_size manifest) 5242880) as [Hsize | Hsize].
  { split; [reflexivity |]. split; [intros mime _ H; lia | discriminate]. }
  split; [intros [H | H]; [contradiction | lia] |].
  unfold FileDetail.mimeTypeGuess. split.
  - intros mime _ _ -> Hguess. rewrite Hguess. cbn [default].
    apply guess_cases in Hguess as [(mime' & [= <-] & _ & Hok) | (name & [=] & _)].
    exact Hok.
  - intros e. destruct (Nostr.truthy (Manifest.mime_type manifest)) as [mime |].
    + destruct mime; discriminate.
    + destruct (FileDetail.getMimeTypeFromName _) as [v |] eqn:Hguess; [| discriminate].
      pose proof Hguess as Hv.
      apply guess_cases in Hv as [(mime & -> & _ & Hok) | (name & -> & Hname)].
      * change (default _ (Some ?x)) with x. rewrite Hok. discriminate.
      * intros _. split; [reflexivity |]. exists name. split; [exact Hname | reflexivity].
Qed.

(** *** The whole of [fetchFileBytes] *)

Lemma selectManifest_found (J : Nostr.Json) (events : list Nostr.Event)
    (manifest : Manifest.t) :
  Nostr.selectManifest J events = Ok (Some manifest) ->
  Manifest.version manifest = 2
  /\ exists event, In event events
                   /\ Nostr.parseManifest J (Nostr.content event) = Some manifest.
Proof.
  unfold Nostr.selectManifest. destruct (length events =? 0)%nat; [discriminate |].
  destruct (reduce Nostr.newer events) as [event |] eqn:Hr; [| discriminate].
  destruct (Nostr.parseManifest J (Nostr.content event)) as [m |] eqn:Hp; [| discriminate].
  destruct (Z.eqb_spec (Manifest.version m) 2) as [Hv | Hv]; cbn [negb]; [| discriminate].
  intros [= <-]. split; [exact Hv |]. exists event. split; [| exact Hp].
  destruct events as [| x l]; [discriminate |]. cbn [reduce] in Hr. injection Hr as <-.
  destruct (fold_newer l x) as (pre & post & Heq & _). rewrite Heq.
  apply in_or_app. right. now left.
Qed.

Lemma mapParts_decoded (i : nat) (chunks : list Nostr.ChunkEvent.t)
    (parts : list (list byte)) :
  Assemble.mapParts
    (fun i content =>
       match Crypto.base64ToUint8Array content with
       | Ok part => Ok part
       | Throw _ => Throw (Assemble.InvalidBase64 i)
       end) i chunks = Ok parts ->
  Forall2 (fun chunk part =>
             Crypto.base64ToUint8Array (Nostr.ChunkEvent.content chunk) = Ok part)
          chunks parts.
Proof.
  revert i parts. induction chunks as [| chunk chunks IH]; intros i parts;
    cbn [Assemble.mapParts].
  - intros [= <-]. constructor.
  - destruct (Crypto.base64ToUint8Array _) as [part | e] eqn:Hpart;
      cbn [mbind result_bind Js.bind]; [| discriminate].
    destruct (Assemble.mapParts _ (S i) chunks) as [ps | e] eqn:Hps;
      cbn [mbind result_bind Js.bind]; [| discriminate].
    intros [= <-]. constructor; [exact Hpart | now apply (IH (S i))].
Qed.

Lemma mapParts_contents {E} (f : nat -> string -> result E (list byte)) (i : nat)
    (chunks chunks' : list Nostr.ChunkEvent.t) :
  map Nostr.ChunkEvent.content chunks = map Nostr.ChunkEvent.content chunks' ->
  Assemble.mapParts f i chunks = Assemble.mapParts f i chunks'.
Proof.
  revert i chunks'. induction chunks as [| chunk chunks IH]; intros i [| chunk' chunks'];
    cbn [map]; try discriminate; [reflexivity |].
  intros [= Hc Hrest]. cbn [Assemble.mapParts]. now rewrite Hc, (IH (S i) chunks').
Qed.

Lemma decryptLoop_contents (P : Crypto.Primitives) (aborted : bool)
    (secretKey : list byte) (pubkey : string) (total i : nat)
    (chunks chunks' : list Nostr.ChunkEvent.t) (current : Assemble.Status) :
  map Nostr.ChunkEvent.content chunks = map Nostr.ChunkEvent.content chunks' ->
  Assemble.decryptLoop P aborted secretKey pubkey total i chunks current
  = Assemble.decryptLoop P aborted secretKey pubkey total i chunks' current.
Proof.
  revert i chunks' current.
  induction chunks as [| chunk chunks IH]; intros i [| chunk' chunks'] current;
    cbn [map]; try discriminate; [reflexivity |].
  intros [= Hc Hrest]. cbn [Assemble.decryptLoop].
  now rewrite Hc, (IH (S i) chunks' _ Hrest).
Qed.

(** X13: assembly reads only [total_chunks] of the manifest and [content] of
    the chunks: two manifests with the same [total_chunks] and two lists of
    chunks with the same contents in the same order give the same outcome, in
    [fetchFileBytes] and in [downloadEncrypted] alike. The index and the
    encryption marker of a chunk, and the sizes and the hash of the manifest,
    are not looked at. *)
Theorem assembly_reads_contents_only (P : Crypto.Primitives) (aborted : bool)
    (secretKey : list byte) (pubkey : string) (manifest manifest' : Manifest.t)
    (chunks chunks' : list Nostr.ChunkEvent.t) :
  Manifest.total_chunks manifest = Manifest.total_chunks manifest' ->
  map Nostr.ChunkEvent.content chunks = map Nostr.ChunkEvent.content chunks' ->
  Assemble.fetchFileBytes aborted manifest chunks
  = Assemble.fetchFileBytes aborted manifest' chunks'
  /\ Assemble.downloadEncrypted P aborted secretKey pubkey manifest chunks
     = Assemble.downloadEncrypted P aborted secretKey pubkey manifest' chunks'.
Proof.
  intros Ht Hc.
  assert (Hlen : length chunks = length chunks')
    by (rewrite <- (length_map Nostr.ChunkEvent.content chunks), Hc; apply length_map).
  unfold Assemble.fetchFileBytes, Assemble.downloadEncrypted.
  rewrite Ht, Hlen. split.
  - now rewrite (mapParts_contents _ 0%nat chunks chunks' Hc).
  - now rewrite (decryptLoop_contents P aborted secretKey pubkey _ 0%nat chunks chunks' _ Hc).
Qed.

Lemma assembly_reads_contents_only_witness :
  Assemble.fetchFileBytes false
    {| Manifest.version := 2; Manifest.file_name := "f"; Manifest.file_hash := "h";
       Manifest.file_size := 2; Manifest.chunk_size := 1; Manifest.total_chunks := 2;
       Manifest.created_at := 0; Manifest.pubkey := "pk"; Manifest.encryption := "none";
       Manifest.chunks := []; Manifest.relays := []; Manifest.mime_type := None |}
    [ {| Nostr.ChunkEvent.index := 0; Nostr.ChunkEvent.content := "YQ==";
         Nostr.ChunkEvent.encryption := "none" |};
      {| Nostr.ChunkEvent.index := 1; Nostr.ChunkEvent.content := "Yg==";
         Nostr.ChunkEvent.encryption := "none" |} ]
  = Assemble.fetchFileBytes false
      {| Manifest.version := 2; Manifest.file_name := "g"; Manifest.file_hash := "other";
         Manifest.file_size := 9; Manifest.chunk_size := 1; Manifest.total_chunks := 2;
         Manifest.created_at := 0; Manifest.pubkey := "pk"; Manifest.encryption := "none";
         Manifest.chunks := []; Manifest.relays := []; Manifest.mime_type := None |}
      [ {| Nostr.ChunkEvent.index := 7; Nostr.ChunkEvent.content := "YQ==";
           Nostr.ChunkEvent.encryption := "nip44" |};
        {| Nostr.ChunkEvent.index := 3; Nostr.ChunkEvent.content := "Yg==";
           Nostr.ChunkEvent.encryption := "none" |} ].
Proof.
  refine (proj1 (assembly_reads_contents_only Sample.primitives false [] "pk" _ _ _ _ _ _));
    reflexivity.
Defined.

(** X14: what [fetchFileBytes] does with its pool: aborted before it starts it
    throws 'Aborted' and creates none; otherwise it creates the pool, issues
    the queries of [fetchManifest] on the default relays, calls [fetchChunks]
    at most once and closes the pool on the default relays as its last action,
    whatever the outcome; and it does not succeed without having called
    [fetchChunks]. *)
Theorem fetchFileBytes_pool_discipline (J : Nostr.Json) (pool : Nostr.Pool)
    (fetchChunks : Nostr.Args -> option (list Nostr.ChunkEvent.t))
    (aborted : nat -> bool) (pubkey fileHash : string) :
  let run := FileUtils.fetchFileBytes J pool fetchChunks aborted pubkey fileHash in
  (aborted 0%nat = true ->
     run = ([], Throw (FileUtils.Thrown Assemble.Aborted)))
  /\ (aborted 0%nat = false ->
      exists queries collect,
        fst run
        = FileUtils.CreatePool :: map FileUtils.Net queries ++ collect
            ++ [FileUtils.ClosePool FileUtils.DEFAULT_INDEX_RELAYS]
        /\ queries
           = fst (Nostr.fetchManifest J pool FileUtils.DEFAULT_INDEX_RELAYS pubkey fileHash)
        /\ (collect = [] \/ exists a, collect = [FileUtils.FetchChunks a])
        /\ (collect = [] -> forall r, snd run <> Ok r)).
Proof.
  intros run. unfold run, FileUtils.fetchFileBytes. split.
  - intros ->. reflexivity.
  - intros ->.
    destruct (Nostr.fetchManifest J pool _ pubkey fileHash) as [queries found].
    exists queries. cbn [fst].
    destruct found as [[manifest |] | e].
    + destruct (aborted 1%nat).
      * exists []. cbn [fst snd app]. repeat split; [now left | discriminate].
      * eexists [_]. destruct (fetchChunks _) as [chunks |];
          [destruct (Assemble.fetchFileBytes _ manifest chunks) |];
          cbn [fst snd]; rewrite <- !app_assoc; cbn [app];
          (split; [reflexivity |]); (split; [reflexivity |]);
          (split; [right; eexists; reflexivity | discriminate]).
    + exists []. cbn [fst snd app]. repeat split; [now left | discriminate].
    + exists []. cbn [fst snd app]. repeat split; [now left | discriminate].
Qed.

Lemma assemble_success (aborted : bool) (manifest : Manifest.t)
    (chunks : list Nostr.ChunkEvent.t) (fileData : list byte) :
  Assemble.fetchFileBytes aborted manifest chunks = Ok fileData ->
  aborted = false
  /\ Z.of_nat (length chunks) = Manifest.total_chunks manifest
  /\ exists parts,
       Forall2 (fun chunk part =>
                  Crypto.base64ToUint8Array (Nostr.ChunkEvent.content chunk) = Ok part)
               chunks parts
       /\ fileData = concat parts.
Proof.
  unfold Assemble.fetchFileBytes. destruct aborted; [discriminate |].
  destruct (Z.eqb_spec (Z.of_nat (length chunks)) (Manifest.total_chunks manifest))
    as [Hlen | Hlen]; cbn [negb]; [| discriminate].
  destruct (Assemble.mapParts _ 0%nat chunks) as [parts | e] eqn:Hparts;
    cbn [mbind result_bind Js.bind]; [| discriminate].
  intros [= <-]. split; [reflexivity |]. split; [exact Hlen |].
  exists parts. split; [now apply (mapParts_decoded 0%nat) | reflexivity].
Qed.

(** X15: when [fetchFileBytes] succeeds: [fetchManifest] found a manifest of
    version 2; none of the three abort checks fired; [fetchChunks], called
    with the relays of the manifest (the default ones if it names none), its
    [total_chunks] and its chunk list, returned exactly [total_chunks] chunks;
    the data are the decoded contents of these chunks, concatenated in order;
    the file name is the manifest's; and the MIME type is the manifest's, else
    the guess from the name, else 'application/octet-stream', never the empty
    string. *)
Theorem fetchFileBytes_success (J : Nostr.Json) (pool : Nostr.Pool)
    (fetchChunks : Nostr.Args -> option (list Nostr.ChunkEvent.t))
    (aborted : nat -> bool) (pubkey fileHash : string)
    (result : FileUtils.FileFetchResult) :
  snd (FileUtils.fetchFileBytes J pool fetchChunks aborted pubkey fileHash) = Ok result ->
  exists manifest chunks parts,
    snd (Nostr.fetchManifest J pool FileUtils.DEFAULT_INDEX_RELAYS pubkey fileHash)
    = Ok (Some manifest)
    /\ Manifest.version manifest = 2
    /\ (aborted 0%nat = false /\ aborted 1%nat = false /\ aborted 2%nat = false)
    /\ fetchChunks
         {| Nostr.relays := if (0 <? length (Manifest.relays manifest))%nat
                            then Manifest.relays manifest
                            else FileUtils.DEFAULT_INDEX_RELAYS;
            Nostr.pubkey := pubkey;
            Nostr.fileHash := fileHash;
            Nostr.totalChunks := Manifest.total_chunks manifest;
            Nostr.chunkInfos := Manifest.chunks manifest |}
       = Some chunks
    /\ Z.of_nat (length chunks) = Manifest.total_chunks manifest
    /\ Forall2 (fun chunk part =>
                  Crypto.base64ToUint8Array (Nostr.ChunkEvent.content chunk) = Ok part)
               chunks parts
    /\ FileUtils.data result = concat parts
    /\ FileUtils.fileName result = Manifest.file_name manifest
    /\ FileUtils.mimeType result = FileUtils.mimeTypeOf manifest
    /\ FileUtils.mimeType result <> JsObject.Str "".
Proof.
  unfold FileUtils.fetchFileBytes.
  destruct (aborted 0%nat) eqn:H0; [discriminate |].
  destruct (Nostr.fetchManifest J pool _ pubkey fileHash) as [queries found] eqn:Hfm.
  destruct found as [[manifest |] | e]; [| discriminate ..].
  destruct (aborted 1%nat) eqn:H1; [discriminate |].
  unfold FileUtils.dataRelays.
  destruct (fetchChunks _) as [chunks |] eqn:Hchunks; [| discriminate].
  destruct (Assemble.fetchFileBytes _ manifest chunks) as [fileData | e] eqn:Hdata;
    [| discriminate].
  cbn [snd]. intros [= <-].
  apply assemble_success in Hdata as (H2 & Hlen & parts & Hparts & ->).
  exists manifest, chunks, parts. cbn [snd FileUtils.data FileUtils.fileName FileUtils.mimeType].
  assert (Hv : Manifest.version manifest = 2).
  { unfold Nostr.fetchManifest in Hfm.
    destruct (Nostr.queryUntilFound _ _ _ _) as [ops events]. injection Hfm as _ Hsel.
    now apply selectManifest_found in Hsel as [Hv _]. }
  split; [reflexivity |]. split; [exact Hv |].
  split; [repeat split; first [reflexivity | assumption] |].
  repeat (split; [first [reflexivity | assumption] |]).
  unfold FileUtils.mimeTypeOf.
  destruct (Manifest.mime_type manifest) as [[| c s] |]; cbn [Nostr.truthy].
  2: discriminate.
  all: unfold FileUtils.getMimeTypeFromName;
    destruct (Nostr.truthy _) as [ext |]; [| discriminate];
    unfold JsObject.get;
    destruct (find _ FileUtils.mimeTypes) as [[e mime] |] eqn:Hfind;
    [ destruct mime; discriminate | destruct (existsb _ _); discriminate ].
Qed.

Lemma fetchFileBytes_success_witness :
  exists manifest chunks parts,
    snd (Nostr.fetchManifest Sample.json
           {| Nostr.querySync _ _ := [Sample.record "m" 1 "2"] |}
           FileUtils.DEFAULT_INDEX_RELAYS "pk" "h")
    = Ok (Some manifest)
    /\ Manifest.version manifest = 2
    /\ (false = false /\ false = false /\ false = false)
    /\ Some (repeat {| Nostr.ChunkEvent.index := 0; Nostr.ChunkEvent.content := "YQ==";
                       Nostr.ChunkEvent.encryption := "none" |} 5)
       = Some chunks
    /\ Z.of_nat (length chunks) = Manifest.total_chunks manifest
    /\ Forall2 (fun chunk part =>
                  Crypto.base64ToUint8Array (Nostr.ChunkEvent.content chunk) = Ok part)
               chunks parts
    /\ [x61; x61; x61; x61; x61] = concat parts
    /\ "f"%string = Manifest.file_name manifest
    /\ JsObject.Str "application/octet-stream" = FileUtils.mimeTypeOf manifest
    /\ JsObject.Str "application/octet-stream" <> JsObject.Str "".
Proof.
  exact (fetchFileBytes_success Sample.json
           {| Nostr.querySync _ _ := [Sample.record "m" 1 "2"] |}
           (fun _ => Some (repeat {| Nostr.ChunkEvent.index := 0;
                                     Nostr.ChunkEvent.content := "YQ==";
                                     Nostr.ChunkEvent.encryption := "none" |} 5))
           (fun _ => false) "pk" "h"
           {| FileUtils.data := [x61; x61; x61; x61; x61];
              FileUtils.mimeType := JsObject.Str "application/octet-stream";
              FileUtils.fileName := "f" |}
           ltac:(vm_compute; reflexivity)).
Defined.

(** *** The lookups of index and manifest *)

(** The loop stops at the first filter that finds something. *)
Lemma queryUntilFound_first (pool : Nostr.Pool) (relays : list string)
    (filters : list Nostr.Filter) (events0 : list Nostr.Event) :
  (exists pre filter post,
      filters = pre ++ filter :: post
      /\ Forall (fun f => Nostr.querySync pool relays f = []) pre
      /\ Nostr.querySync pool relays filter <> []
      /\ Nostr.queryUntilFound pool relays filters events0
         = (map (Nostr.Query relays) (pre ++ [filter]), Nostr.querySync pool relays filter))
  \/ (Forall (fun f => Nostr.querySync pool relays f = []) filters
      /\ Nostr.queryUntilFound pool relays filters events0
         = (map (Nostr.Query relays) filters,
            match filters with [] => events0 | _ => [] end)).
Proof.
  revert events0. induction filters as [| filter rest IH]; intros events0.
  - right. split; [constructor | reflexivity].
  - cbn [Nostr.queryUntilFound].
    destruct (Nostr.querySync pool relays filter) as [| e events] eqn:Hq.
    + cbn [length Nat.ltb Nat.leb].
      destruct (IH []) as [(pre & f & post & -> & Hpre & Hf & Heq) | [Hall Heq]];
        rewrite Heq.
      * left. exists (filter :: pre), f, post.
        split; [reflexivity |]. split; [now constructor |]. split; [exact Hf | reflexivity].
      * right. split; [now constructor |]. destruct rest; reflexivity.
    + left. exists [], filter, rest. rewrite Hq.
      split; [reflexivity |]. split; [constructor |]. split; [discriminate | reflexivity].
Qed.

(** X16: [fetchManifest] first looks the manifest up under the ['#x'] tag and
    issues no second query when the first finds a record; only when the first
    finds nothing does it look under the ['#d'] tag; and when both find
    nothing the result is [null]. *)
Theorem fetchManifest_lookup_order (J : Nostr.Json) (pool : Nostr.Pool)
    (relays : list string) (pubkey fileHash : string) :
  let byHash :=
    {| Nostr.kinds := [EVENT_KINDS.MANIFEST]; Nostr.authors := [pubkey];
       Nostr.tag_d := None; Nostr.tag_x := Some [fileHash];
       Nostr.ids := None; Nostr.limit := Some 1 |} in
  let byName :=
    {| Nostr.kinds := [EVENT_KINDS.MANIFEST]; Nostr.authors := [pubkey];
       Nostr.tag_d := Some [fileHash]; Nostr.tag_x := None;
       Nostr.ids := None; Nostr.limit := Some 1 |} in
  (Nostr.querySync pool relays byHash <> [] ->
     Nostr.fetchManifest J pool relays pubkey fileHash
     = ([Nostr.Query relays byHash],
        Nostr.selectManifest J (Nostr.querySync pool relays byHash)))
  /\ (Nostr.querySync pool relays byHash = [] ->
      Nostr.fetchManifest J pool relays pubkey fileHash
      = ([Nostr.Query relays byHash; Nostr.Query relays byName],
         Nostr.selectManifest J (Nostr.querySync pool relays byName)))
  /\ (Nostr.querySync pool relays byHash = [] ->
      Nostr.querySync pool relays byName = [] ->
      snd (Nostr.fetchManifest J pool relays pubkey fileHash) = Ok None).
Proof.
  intros byHash byName. unfold Nostr.fetchManifest.
  change (Nostr.manifestFilters pubkey fileHash) with [byHash; byName].
  destruct (queryUntilFound_first pool relays [byHash; byName] [])
    as [(pre & f & post & Heq & Hpre & Hf & ->) | [Hall ->]].
  - destruct pre as [| f1 [| f2 pre]].
    + injection Heq as <- <-. split; [reflexivity |].
      split; intros H; congruence.
    + injection Heq as <- <- <-. apply Forall_cons in Hpre as [H1 _].
      split; [congruence |]. split; [reflexivity |]. congruence.
    + injection Heq as _ _ Heq. destruct pre; discriminate.
  - apply Forall_cons in Hall as [H1 Hall]. apply Forall_cons in Hall as [H2 _].
    split; [congruence |]. split.
    + intros _. rewrite H2. reflexivity.
    + reflexivity.
Qed.

Lemma queryUntilFound_queries (pool : Nostr.Pool) (relays : list string)
    (filters : list Nostr.Filter) (events0 : list Nostr.Event) :
  exists n : nat,
    fst (Nostr.queryUntilFound pool relays filters events0)
    = map (Nostr.Query relays) (firstn n filters).
Proof.
  revert events0. induction filters as [| filter rest IH]; intros events0.
  - exists 0%nat. reflexivity.
  - cbn [Nostr.queryUntilFound]. destruct (0 <? length _)%nat.
    + exists 1%nat. reflexivity.
    + destruct (IH (Nostr.querySync pool relays filter)) as [n Hn].
      destruct (Nostr.queryUntilFound pool relays rest _) as [ops events].
      cbn [fst] in Hn. subst ops. exists (S n). reflexivity.
Qed.

(** X25: the look-ups stay in their scope: every query of [fetchFileIndex]
    asks the given relays for one record of kind [INDEX] by the given author,
    every query of [fetchManifest] for one of kind [MANIFEST]; each function
    issues one or two queries, and [fetchFileIndex] exactly one for page 1. *)
Theorem lookups_are_scoped (J : Nostr.Json) (pool : Nostr.Pool) (relays : list string)
    (pubkey fileHash : string) (page : Z) :
  let indexOps := fst (Nostr.fetchFileIndex J pool relays pubkey page) in
  let manifestOps := fst (Nostr.fetchManifest J pool relays pubkey fileHash) in
  Forall (Runs.scopedQuery relays EVENT_KINDS.INDEX pubkey) indexOps
  /\ (1 <= length indexOps <= 2)%nat
  /\ (page = 1 -> length indexOps = 1%nat)
  /\ Forall (Runs.scopedQuery relays EVENT_KINDS.MANIFEST pubkey) manifestOps
  /\ (1 <= length manifestOps <= 2)%nat.
Proof.
  cbv zeta.
  assert (Hi : forall dTag,
             Runs.scopedQuery relays EVENT_KINDS.INDEX pubkey
               (Nostr.Query relays (Nostr.indexFilter pubkey dTag))).
  { intros dTag. cbn. repeat split. }
  split; [| split; [| split; [| split]]].
  - unfold Nostr.fetchFileIndex, Nostr.fetchFileIndex_current.
    destruct (page =? 1); cbn [fst]; [repeat constructor; apply Hi |].
    destruct (Nostr.selectIndex J _) as [[index |] | e]; cbn [fst app];
      repeat constructor; apply Hi.
  - unfold Nostr.fetchFileIndex, Nostr.fetchFileIndex_current.
    destruct (page =? 1); cbn [fst length]; [lia |].
    destruct (Nostr.selectIndex J _) as [[index |] | e]; cbn [fst app length]; lia.
  - intros ->. reflexivity.
  - unfold Nostr.fetchManifest.
    destruct (queryUntilFound_queries pool relays (Nostr.manifestFilters pubkey fileHash) [])
      as [n Hn].
    destruct (Nostr.queryUntilFound _ _ _ _) as [ops events]. cbn [fst] in *. subst ops.
    destruct n as [| [| [| n]]]; cbn; repeat constructor.
  - unfold Nostr.fetchManifest, Nostr.manifestFilters. cbn [Nostr.queryUntilFound].
    repeat (destruct (0 <? length _)%nat; cbn [fst length]; try lia).
Qed.

(** *** Chunk collection: every step *)

Section Steps.

Import Nostr.

Implicit Types (a : Args) (l : Locals) (cache : gmap string ChunkCacheEntry)
  (ops : list NetOp) (m : JsMap.t ChunkEvent.t) (w : World) (o : Outcome).

(** What a step is: a call enters, or one invocation goes on from the
    [await] it is at. *)
Lemma step_inversion w (lbl : Label) w' :
  step w lbl = Some w' ->
  (exists now a,
      lbl = LCall now a
      /\ exists call cache ops,
           enter (length (calls w)) now a (chunkCache w) (net w) = (call, cache, ops)
           /\ w' = {| chunkCache := cache; calls := calls w ++ [call]; net := ops |})
  \/ (exists c call o,
         calls w !! c = Some call
         /\ w' = commit w c o
         /\ ((exists event st la ls,
                 lbl = LEvent c event
                 /\ phase call = Streaming st la ls
                 /\ o = deliver (args call) (locals call) event st la ls
                                (chunkCache w) (net w))
             \/ (exists now st la ls,
                    lbl = LTick c now
                    /\ phase call = Streaming st la ls
                    /\ o = tick c now (args call) (locals call) st la ls
                                (chunkCache w) (net w))
             \/ (exists ibe batch rest events,
                    lbl = LQueryDone c events
                    /\ phase call = Fallback ibe (batch :: rest)
                    /\ o = queryDone (args call) (locals call) ibe rest events
                                     (chunkCache w) (net w))
             \/ (exists ibe batch rest,
                    lbl = LQueryFailed c
                    /\ phase call = Fallback ibe (batch :: rest)
                    /\ o = fail (args call) (locals call) (chunkCache w) (net w))
             \/ (exists p now owner chunks,
                    lbl = LResume c now
                    /\ phase call = Waiting p
                    /\ calls w !! p = Some owner
                    /\ phase owner = Returned chunks
                    /\ o = resume c now (args call) (chunkCache w) (net w))
             \/ (exists p now owner,
                    lbl = LResume c now
                    /\ phase call = Waiting p
                    /\ calls w !! p = Some owner
                    /\ phase owner = Rejected
                    /\ o = rethrow (args call) (locals call) (chunkCache w) (net w)))).
Proof using Type.
  destruct lbl as [now a | c event | c now | c events | c | c now]; cbn [step].
  - destruct (enter _ _ _ _ _) as [[call cache] ops] eqn:He. intros [= <-].
    left. exists now, a. split; [reflexivity |]. now exists call, cache, ops.
  - destruct (calls w !! c) as [call |] eqn:Hcall; [| discriminate]. cbn [mbind option_bind].
    destruct (phase call) as [| st la ls | | |] eqn:Hph; try discriminate.
    intros Hs. apply (inj Some) in Hs. right. eexists c, call, _.
    split; [exact Hcall |]. split; [exact (eq_sym Hs) |]. left. now exists event, st, la, ls.
  - destruct (calls w !! c) as [call |] eqn:Hcall; [| discriminate]. cbn [mbind option_bind].
    destruct (phase call) as [| st la ls | | |] eqn:Hph; try discriminate.
    intros Hs. apply (inj Some) in Hs. right. eexists c, call, _.
    split; [exact Hcall |]. split; [exact (eq_sym Hs) |]. right. left. now exists now, st, la, ls.
  - destruct (calls w !! c) as [call |] eqn:Hcall; [| discriminate]. cbn [mbind option_bind].
    destruct (phase call) as [| | ibe [| batch rest] | |] eqn:Hph; try discriminate.
    intros Hs. apply (inj Some) in Hs. right. eexists c, call, _.
    split; [exact Hcall |]. split; [exact (eq_sym Hs) |]. do 2 right. left.
    now exists ibe, batch, rest, events.
  - destruct (calls w !! c) as [call |] eqn:Hcall; [| discriminate]. cbn [mbind option_bind].
    destruct (phase call) as [| | ibe [| batch rest] | |] eqn:Hph; try discriminate.
    intros Hs. apply (inj Some) in Hs. right. eexists c, call, _.
    split; [exact Hcall |]. split; [exact (eq_sym Hs) |]. do 3 right. left.
    now exists ibe, batch, rest.
  - destruct (calls w !! c) as [call |] eqn:Hcall; [| discriminate]. cbn [mbind option_bind].
    destruct (phase call) as [p | | | |] eqn:Hph; try discriminate.
    destruct (calls w !! p) as [owner |] eqn:Howner; [| discriminate].
    cbn [fmap option_fmap option_map].
    destruct (phase owner) as [| | | chunks |] eqn:Hpo; try discriminate;
      intros Hs; apply (inj Some) in Hs; right; eexists c, call, _;
      (split; [exact Hcall |]); (split; [exact (eq_sym Hs) |]).
    + do 4 right. left. now exists p, now, owner, chunks.
    + do 5 right. now exists p, now, owner.
Qed.

(** Between two [await]s an invocation keeps its arguments, and outside
    the handlers its closure variables. *)
Lemma afterStream_call (me : nat) a l cache ops :
  args (fst (fst (afterStream me a l cache ops))) = a
  /\ locals (fst (fst (afterStream me a l cache ops))) = l.
Proof using Type.
  unfold afterStream. destruct (_ <? _); [| split; reflexivity].
  destruct (idBatches _); split; reflexivity.
Qed.

Lemma tick_call (me : nat) (now : Z) a l (st la ls : Z) cache ops :
  args (fst (fst (tick me now a l st la ls cache ops))) = a
  /\ locals (fst (fst (tick me now a l st la ls cache ops))) = l.
Proof using Type.
  unfold tick. destruct (_ >? ls).
  all: repeat (destruct (_ >? _); [apply afterStream_call |]).
  all: destruct (_ <? _); [split; reflexivity | apply afterStream_call].
Qed.

Lemma set_absent (k : Z) (v : ChunkEvent.t) m :
  JsMap.has k m = false -> JsMap.set k v m = m ++ [(k, v)].
Proof using Type.
  unfold JsMap.has. induction m as [| [k' v'] m IH]; cbn [existsb JsMap.set fst app];
    [reflexivity |].
  intros H. apply orb_false_iff in H as [Hk Hm]. rewrite Hk. now rewrite IH.
Qed.

Lemma addChunk_reports a (index : Z) (event : Event) l cache :
  Runs.reportsOk (totalChunks a) l ->
  Runs.reportsOk (totalChunks a) (fst (addChunk a index event (l, cache))).
Proof using Type.
  intros (first & n & Hp & Hfirst & Hsize). unfold addChunk.
  destruct (JsMap.has index (l_chunksByIndex l)) eqn:Hhas;
    [now exists first, n |].
  rewrite (set_absent _ _ _ Hhas). unfold Runs.reportsOk, JsMap.size in *.
  cbn [fst l_chunksByIndex progress]. rewrite !length_app. cbn [length].
  destruct n as [| n]; cbn [Nat.eqb] in *.
  - exists 1%nat, 1%nat. rewrite Hp. cbn [seq map app Nat.eqb].
    split; [| split; [lia |]].
    + do 2 f_equal. lia.
    + lia.
  - exists first, (S (S n)). rewrite Hp. cbn [Nat.eqb].
    split; [| split; [exact Hfirst | lia]].
    rewrite (seq_S (S n) first), map_app. cbn [map]. do 3 f_equal. lia.
Qed.

Lemma markSeen_reports (total : Z) (event : Event) l :
  Runs.reportsOk total l -> Runs.reportsOk total (markSeen event l).
Proof using Type. intros H. exact H. Qed.

Lemma onevent_reports a (event : Event) l cache :
  Runs.reportsOk (totalChunks a) l ->
  Runs.reportsOk (totalChunks a) (fst (onevent a event (l, cache))).
Proof using Type.
  intros H. unfold onevent. destruct (bool_decide _); [exact H |].
  destruct (parseChunkIndexFromTags _); [| exact H].
  now apply addChunk_reports, markSeen_reports.
Qed.

Lemma onFallbackEvent_reports a (ibe : gmap string Z) (event : Event) l cache :
  Runs.reportsOk (totalChunks a) l ->
  Runs.reportsOk (totalChunks a) (fst (onFallbackEvent a ibe (l, cache) event)).
Proof using Type.
  intros H. unfold onFallbackEvent. destruct (bool_decide _); [exact H |].
  destruct (parseChunkIndexFromTags _); [now apply addChunk_reports, markSeen_reports |].
  destruct (ibe !! id event); [now apply addChunk_reports, markSeen_reports | exact H].
Qed.

Lemma fallbackEvents_reports a (ibe : gmap string Z) (events : list Event) l cache :
  Runs.reportsOk (totalChunks a) l ->
  Runs.reportsOk (totalChunks a) (fst (fold_left (onFallbackEvent a ibe) events (l, cache))).
Proof using Type.
  revert l cache. induction events as [| event events IH]; intros l cache H;
    cbn [fold_left]; [exact H |].
  pose proof (onFallbackEvent_reports a ibe event l cache H) as H'.
  destruct (onFallbackEvent a ibe (l, cache) event) as [l' cache']. now apply IH.
Qed.

Lemma noLocals_reports (total : Z) : Runs.reportsOk total noLocals.
Proof using Type. exists 1%nat, 0%nat. repeat split; reflexivity || lia. Qed.

Lemma startCollection_reports (me : nat) (now : Z) a cache ops :
  let call := fst (fst (startCollection me now a cache ops)) in
  args call = a /\ Runs.reportsOk (totalChunks a) (locals call).
Proof using Type.
  unfold startCollection.
  set (m := default JsMap.empty (chunksByIndex <$> cache !! cacheKey a)).
  set (l0 := {| l_chunksByIndex := m; seenEventIds := ∅; progress := _ |}).
  assert (Hl0 : Runs.reportsOk (totalChunks a) l0).
  { unfold l0, JsMap.size. destruct (Z.of_nat (length m) >? 0) eqn:Hm.
    - exists (length m), 1%nat. cbn [l_chunksByIndex progress seq map Nat.eqb].
      unfold JsMap.size. repeat split; lia.
    - exists 1%nat, 0%nat. cbn [l_chunksByIndex progress seq map Nat.eqb].
      unfold JsMap.size. repeat split; lia. }
  cbn zeta. destruct (_ <? _); [split; [reflexivity | exact Hl0] |].
  destruct (afterStream_call me a l0
              (<[cacheKey a := {| chunksByIndex := m; inFlight := Some me |}]> cache)
              (ops ++ [Subscribe me (relays a) (subscriptionFilter a)])) as [-> ->].
  split; [reflexivity | exact Hl0].
Qed.

(** Every way an invocation goes on keeps its reports in order. *)
Lemma outcome_reports w (lbl : Label) w' :
  Forall (fun call => Runs.reportsOk (totalChunks (args call)) (locals call)) (calls w) ->
  step w lbl = Some w' ->
  Forall (fun call => Runs.reportsOk (totalChunks (args call)) (locals call)) (calls w').
Proof using Type.
  intros Hall Hstep.
  apply step_inversion in Hstep
    as [(now & a & -> & call & cache & ops & He & ->)
       | (c & call & o & Hcall & -> & Ho)].
  - cbn [calls]. apply Forall_app. split; [exact Hall |]. constructor; [| constructor].
    unfold enter in He. destruct (cacheHit a (chunkCache w)).
    + injection He as <- _ _. apply noLocals_reports.
    + destruct (chunkCache w !! cacheKey a ≫= inFlight).
      * injection He as <- _ _. apply noLocals_reports.
      * pose proof (startCollection_reports (length (calls w)) now a (chunkCache w) (net w))
          as H. rewrite He in H. cbn [fst] in H. destruct H as [-> H]. exact H.
  - pose proof (Forall_lookup_1 _ _ _ _ Hall Hcall) as Hc.
    assert (Hnew : Runs.reportsOk (totalChunks (args (fst (fst o)))) (locals (fst (fst o)))).
    { destruct Ho as [(event & st & la & ls & _ & _ & ->)
                     | [(now & st & la & ls & _ & _ & ->)
                     | [(ibe & batch & rest & events & _ & _ & ->)
                     | [(ibe & batch & rest & _ & _ & ->)
                     | [(p & now & owner & chunks & _ & _ & _ & _ & ->)
                     | (p & now & owner & _ & _ & _ & _ & ->)]]]]].
      - unfold deliver.
        pose proof (onevent_reports (args call) event (locals call) (chunkCache w) Hc) as H.
        destruct (onevent _ _ _) as [l' cache']. exact H.
      - destruct (tick_call c now (args call) (locals call) st la ls (chunkCache w) (net w))
          as [-> ->]. exact Hc.
      - unfold queryDone.
        pose proof (fallbackEvents_reports (args call) ibe events (locals call)
                      (chunkCache w) Hc) as H.
        destruct (fold_left _ events _) as [l' cache']. destruct rest; exact H.
      - exact Hc.
      - unfold resume. destruct (cacheHit _ _); [apply noLocals_reports |].
        destruct (startCollection_reports c now (args call) (chunkCache w) (net w))
          as [-> H]. exact H.
      - exact Hc. }
    destruct o as [[call' cache'] ops']. cbn [commit calls fst] in *.
    now apply Forall_insert.
Qed.

Lemma run_reports (trace : list Label) w w' :
  Forall (fun call => Runs.reportsOk (totalChunks (args call)) (locals call)) (calls w) ->
  run w trace = Some w' ->
  Forall (fun call => Runs.reportsOk (totalChunks (args call)) (locals call)) (calls w').
Proof using Type.
  revert w. induction trace as [| lbl trace IH]; intros w Hw; cbn [run].
  - now intros [= <-].
  - destruct (step w lbl) as [w1 |] eqn:Hs; [| discriminate]. cbn [mbind option_bind].
    apply IH. exact (outcome_reports w lbl w1 Hw Hs).
Qed.

End Steps.

(** X17: in every run of the program the [onProgress] reports of one
    invocation of [fetchChunks] are [first, first + 1, ..] with [first >= 1],
    each with the [totalChunks] of the call, and the last one is the number of
    chunks the invocation holds (no report: none held). *)
Theorem progress_reports_count_up (trace : list Nostr.Label) (w : Nostr.World)
    (c : nat) (call : Nostr.Call) :
  Nostr.run Nostr.init trace = Some w ->
  Nostr.calls w !! c = Some call ->
  exists first n : nat,
    Nostr.progress (Nostr.locals call)
    = map (fun i => (Z.of_nat i, Nostr.totalChunks (Nostr.args call))) (seq first n)
    /\ (1 <= first)%nat
    /\ JsMap.size (Nostr.l_chunksByIndex (Nostr.locals call))
       = if (n =? 0)%nat then 0 else Z.of_nat (first + n - 1).
Proof.
  intros Hrun Hcall.
  pose proof (run_reports trace Nostr.init w (Forall_nil_2 _) Hrun) as Hall.
  exact (Forall_lookup_1 _ _ _ _ Hall Hcall).
Qed.

Lemma progress_reports_count_up_witness :
  exists first n : nat,
    [(1, 5); (2, 5); (3, 5); (4, 5)]
    = map (fun i => (Z.of_nat i, 5)) (seq first n)
    /\ (1 <= first)%nat
    /\ 4 = if (n =? 0)%nat then 0 else Z.of_nat (first + n - 1).
Proof.
  exact (progress_reports_count_up Sample.collection
           (default Nostr.init (Nostr.run Nostr.init Sample.collection)) 0%nat
           (default {| Nostr.args := Sample.fiveChunks; Nostr.locals := Nostr.noLocals;
                       Nostr.phase := Nostr.Rejected |}
                    (Nostr.calls (default Nostr.init
                                    (Nostr.run Nostr.init Sample.collection)) !! 0%nat))
           ltac:(vm_compute; reflexivity) ltac:(vm_compute; reflexivity)).
Defined.

Section Subscriptions.

Import Nostr.

Implicit Types (a : Args) (l : Locals) (cache : gmap string ChunkCacheEntry)
  (ops : list NetOp) (m : JsMap.t ChunkEvent.t) (w : World) (o : Outcome).

Lemma opened_app (c : nat) ops ops' :
  Runs.opened c (ops ++ ops') = (Runs.opened c ops + Runs.opened c ops')%nat.
Proof using Type. unfold Runs.opened. now rewrite List.filter_app, length_app. Qed.

Lemma closed_app (c : nat) ops ops' :
  Runs.closed c (ops ++ ops') = (Runs.closed c ops + Runs.closed c ops')%nat.
Proof using Type. unfold Runs.closed. now rewrite List.filter_app, length_app. Qed.

(** The end of the streaming phase of [me]: its subscription is closed,
    nothing else is opened or closed. *)
Lemma afterStream_counts (me : nat) a l cache ops :
  let o := afterStream me a l cache ops in
  (forall c, Runs.opened c (snd o) = Runs.opened c ops)
  /\ (forall c, c <> me -> Runs.closed c (snd o) = Runs.closed c ops)
  /\ Runs.closed me (snd o) = S (Runs.closed me ops)
  /\ ((exists ibe batches, phase (fst (fst o)) = Fallback ibe batches)
      \/ exists chunks, phase (fst (fst o)) = Returned chunks).
Proof using Type.
  unfold afterStream.
  assert (Hclose : forall c, Runs.closed c [Close me] = if (c =? me)%nat then 1%nat else 0%nat).
  { intros c. unfold Runs.closed. cbn. now destruct (c =? me)%nat. }
  destruct (_ <? _); [destruct (idBatches _) |]; cbn [snd fst finish phase];
    (split; [intros c; now rewrite ?opened_app, ?Nat.add_0_r |]);
    (split; [intros c Hc; rewrite ?closed_app, Hclose;
             apply Nat.eqb_neq in Hc; rewrite Hc; cbn; lia |]);
    (split; [rewrite ?closed_app, Hclose, Nat.eqb_refl; cbn; lia |]);
    solve [left; eauto | right; eauto].
Qed.

Lemma startCollection_counts (me : nat) (now : Z) a cache ops :
  let o := startCollection me now a cache ops in
  (forall c, c <> me ->
             Runs.opened c (snd o) = Runs.opened c ops
             /\ Runs.closed c (snd o) = Runs.closed c ops)
  /\ (Runs.opened me ops = 0%nat -> Runs.closed me ops = 0%nat ->
      Runs.expected (Some (phase (fst (fst o))))
                    (Runs.opened me (snd o)) (Runs.closed me (snd o))).
Proof using Type.
  unfold startCollection. cbn zeta.
  set (l0 := {| l_chunksByIndex := _ |}). set (cache' := <[_ := _]> cache).
  set (sub := Subscribe me (relays a) (subscriptionFilter a)).
  assert (Hopen : forall c, Runs.opened c (ops ++ [sub])
                            = (Runs.opened c ops + if (c =? me)%nat then 1 else 0)%nat).
  { intros c. rewrite opened_app. unfold Runs.opened at 2. cbn.
    now destruct (c =? me)%nat. }
  assert (Hclosed : forall c, Runs.closed c (ops ++ [sub]) = Runs.closed c ops).
  { intros c. rewrite closed_app. cbn. lia. }
  destruct (_ <? _).
  - cbn [fst snd phase]. split.
    + intros c Hc. rewrite Hopen, Hclosed. apply Nat.eqb_neq in Hc. rewrite Hc. lia.
    + intros H0 H1. rewrite Hopen, Hclosed, Nat.eqb_refl, H0, H1. cbn. lia.
  - destruct (afterStream_counts me a l0 cache' (ops ++ [sub])) as (Ho & Hc & Hme & Hph).
    split.
    + intros c Hne. rewrite Ho, (Hc c Hne), Hopen, Hclosed.
      apply Nat.eqb_neq in Hne. rewrite Hne. lia.
    + intros H0 H1. rewrite Ho, Hme, Hopen, Hclosed, Nat.eqb_refl, H0, H1.
      destruct Hph as [(ibe & batches & ->) | (chunks & ->)]; cbn; lia.
Qed.

Lemma enter_counts (me : nat) (now : Z) a cache ops :
  let o := enter me now a cache ops in
  (forall c, c <> me ->
             Runs.opened c (snd o) = Runs.opened c ops
             /\ Runs.closed c (snd o) = Runs.closed c ops)
  /\ (Runs.opened me ops = 0%nat -> Runs.closed me ops = 0%nat ->
      Runs.expected (Some (phase (fst (fst o))))
                    (Runs.opened me (snd o)) (Runs.closed me (snd o))).
Proof using Type.
  unfold enter. destruct (cacheHit a cache).
  - cbn [fst snd phase]. split; [auto |]. intros H0 H1. rewrite H0, H1. cbn. lia.
  - destruct (cache !! cacheKey a ≫= inFlight).
    + cbn [fst snd phase]. split; [auto |]. intros H0 H1. rewrite H0, H1. cbn. lia.
    + apply startCollection_counts.
Qed.

Lemma resume_counts (me : nat) (now : Z) a cache ops :
  let o := resume me now a cache ops in
  (forall c, c <> me ->
             Runs.opened c (snd o) = Runs.opened c ops
             /\ Runs.closed c (snd o) = Runs.closed c ops)
  /\ (Runs.opened me ops = 0%nat -> Runs.closed me ops = 0%nat ->
      Runs.expected (Some (phase (fst (fst o))))
                    (Runs.opened me (snd o)) (Runs.closed me (snd o))).
Proof using Type.
  unfold resume. destruct (cacheHit a cache).
  - cbn [fst snd phase]. split; [auto |]. intros H0 H1. rewrite H0, H1. cbn. lia.
  - apply startCollection_counts.
Qed.

Lemma tick_counts (me : nat) (now : Z) a l (st la ls : Z) cache ops :
  let o := tick me now a l st la ls cache ops in
  (forall c, c <> me ->
             Runs.opened c (snd o) = Runs.opened c ops
             /\ Runs.closed c (snd o) = Runs.closed c ops)
  /\ (Runs.opened me ops = 1%nat -> Runs.closed me ops = 0%nat ->
      Runs.expected (Some (phase (fst (fst o))))
                    (Runs.opened me (snd o)) (Runs.closed me (snd o))).
Proof using Type.
  assert (Hafter : let o := afterStream me a l cache ops in
            (forall c, c <> me ->
                       Runs.opened c (snd o) = Runs.opened c ops
                       /\ Runs.closed c (snd o) = Runs.closed c ops)
            /\ (Runs.opened me ops = 1%nat -> Runs.closed me ops = 0%nat ->
                Runs.expected (Some (phase (fst (fst o))))
                              (Runs.opened me (snd o)) (Runs.closed me (snd o)))).
  { destruct (afterStream_counts me a l cache ops) as (Ho & Hc & Hme & Hph). split.
    - intros c Hne. now rewrite Ho, (Hc c Hne).
    - intros H1 H0. rewrite Ho, Hme, H1, H0.
      destruct Hph as [(ibe & batches & ->) | (chunks & ->)]; cbn; lia. }
  unfold tick. destruct (_ >? ls).
  all: repeat (destruct (_ >? _); [exact Hafter |]).
  all: destruct (_ <? _); [| exact Hafter].
  all: cbn [fst snd phase]; split; [auto | intros H1 H0; rewrite H1, H0; cbn; lia].
Qed.

Lemma queryDone_counts (me : nat) a l (ibe : gmap string Z) (rest : list (list string))
    (events : list Event) cache ops :
  let o := queryDone a l ibe rest events cache ops in
  (forall c, Runs.opened c (snd o) = Runs.opened c ops
             /\ Runs.closed c (snd o) = Runs.closed c ops)
  /\ (Runs.opened me ops = 1%nat -> Runs.closed me ops = 1%nat ->
      Runs.expected (Some (phase (fst (fst o))))
                    (Runs.opened me (snd o)) (Runs.closed me (snd o))).
Proof using Type.
  unfold queryDone. destruct (fold_left _ events _) as [l' cache'].
  destruct rest as [| batch rest]; cbn [finish fst snd phase].
  - split; [auto |]. intros H1 H2. rewrite H1, H2. cbn. lia.
  - split.
    + intros c. rewrite opened_app, closed_app. cbn. lia.
    + intros H1 H2. rewrite opened_app, closed_app, H1, H2. cbn. lia.
Qed.

Lemma expected_insert w (c c' : nat) (call : Call) :
  c <> c' -> phase <$> <[c := call]> (calls w) !! c' = phase <$> calls w !! c'.
Proof using Type. intros Hne. now rewrite list_lookup_insert_ne. Qed.

(** Every step keeps the subscriptions of every invocation accounted for. *)
Lemma step_accounted w (lbl : Label) w' :
  (forall c, Runs.accounted w c) -> step w lbl = Some w' -> forall c, Runs.accounted w' c.
Proof using Type.
  intros Hall Hstep c'. unfold Runs.accounted in *.
  apply step_inversion in Hstep
    as [(now & a & -> & call & cache & ops & He & ->)
       | (c & call & o & Hcall & -> & Ho)].
  - cbn [calls net].
    pose proof (enter_counts (length (calls w)) now a (chunkCache w) (net w)) as H.
    rewrite He in H. cbn [fst snd] in H. destruct H as [Hother Hme].
    destruct (Nat.lt_trichotomy c' (length (calls w))) as [Hlt | [-> | Hgt]].
    + rewrite lookup_app_l by exact Hlt.
      destruct (Hother c' ltac:(lia)) as [-> ->]. apply Hall.
    + rewrite list_lookup_middle by reflexivity. cbn [fmap option_fmap option_map].
      specialize (Hall (length (calls w))).
      rewrite (lookup_ge_None_2 (calls w) (length (calls w))) in Hall by lia.
      cbn in Hall. destruct Hall as [H0 H1]. now apply Hme.
    + rewrite lookup_ge_None_2 by (rewrite length_app; cbn; lia).
      destruct (Hother c' ltac:(lia)) as [-> ->].
      specialize (Hall c'). now rewrite lookup_ge_None_2 in Hall by lia.
  - assert (Hc : Runs.expected (Some (phase call)) (Runs.opened c (net w))
                               (Runs.closed c (net w))).
    { specialize (Hall c). now rewrite Hcall in Hall. }
    assert (Hlen : (c < length (calls w))%nat) by (eapply lookup_lt_Some; exact Hcall).
    assert (Hgoal :
      (forall c', c' <> c ->
                  Runs.opened c' (snd o) = Runs.opened c' (net w)
                  /\ Runs.closed c' (snd o) = Runs.closed c' (net w))
      /\ Runs.expected (Some (phase (fst (fst o))))
                       (Runs.opened c (snd o)) (Runs.closed c (snd o))).
    { destruct Ho as [(event & st & la & ls & _ & Hph & ->)
                     | [(now & st & la & ls & _ & Hph & ->)
                     | [(ibe & batch & rest & events & _ & Hph & ->)
                     | [(ibe & batch & rest & _ & Hph & ->)
                     | [(p & now & owner & chunks & _ & Hph & _ & _ & ->)
                     | (p & now & owner & _ & Hph & _ & _ & ->)]]]]]; rewrite Hph in Hc.
      - unfold deliver. destruct (onevent _ _ _) as [l' cache'].
        cbn [fst snd phase]. split; [auto | exact Hc].
      - destruct (tick_counts c now (args call) (locals call) st la ls (chunkCache w) (net w))
          as [Hother Hme].
        split; [exact Hother |]. destruct Hc as [H1 H0]. now apply Hme.
      - destruct (queryDone_counts c (args call) (locals call) ibe rest events
                    (chunkCache w) (net w)) as [Hother Hme].
        split; [intros c0 _; apply Hother |]. destruct Hc as [H1 H2]. now apply Hme.
      - cbn [fail fst snd phase]. split; [auto |]. cbn in Hc. cbn. lia.
      - destruct (resume_counts c now (args call) (chunkCache w) (net w)) as [Hother Hme].
        split; [exact Hother |]. destruct Hc as [H1 H0]. now apply Hme.
      - cbn [rethrow fst snd phase]. split; [auto |]. cbn in Hc. cbn. lia. }
    destruct Hgoal as [Hother Hme]. destruct o as [[call' cache'] ops'].
    cbn [commit calls net fst snd] in *.
    destruct (Nat.eq_dec c' c) as [-> | Hne].
    + rewrite list_lookup_insert_eq by exact Hlen. exact Hme.
    + rewrite list_lookup_insert_ne by congruence.
      destruct (Hother c' Hne) as [-> ->]. apply Hall.
Qed.

Lemma run_accounted (trace : list Label) w w' :
  (forall c, Runs.accounted w c) -> run w trace = Some w' -> forall c, Runs.accounted w' c.
Proof using Type.
  revert w. induction trace as [| lbl trace IH]; intros w Hw; cbn [run].
  - now intros [= <-].
  - destruct (step w lbl) as [w1 |] eqn:Hs; [| discriminate]. cbn [mbind option_bind].
    apply IH. exact (step_accounted w lbl w1 Hw Hs).
Qed.

End Subscriptions.

(** X18: in every run of the program the subscriptions of an invocation of
    [fetchChunks] go with the [await] it is at: it opens at most one, never
    closes more than it opened, has closed what it opened once it has returned
    or thrown, and it is collecting from the stream exactly when it has opened
    one and closed none. No subscription is left open by a finished call. *)
Theorem subscriptions_are_closed (trace : list Nostr.Label) (w : Nostr.World) (c : nat) :
  Nostr.run Nostr.init trace = Some w ->
  Runs.accounted w c
  /\ (Runs.opened c (Nostr.net w) <= 1)%nat
  /\ (Runs.closed c (Nostr.net w) <= Runs.opened c (Nostr.net w))%nat
  /\ (forall call,
         Nostr.calls w !! c = Some call ->
         Collect.finished call = true ->
         Runs.closed c (Nostr.net w) = Runs.opened c (Nostr.net w))
  /\ (forall call,
         Nostr.calls w !! c = Some call ->
         Collect.streaming call = true <->
         Runs.opened c (Nostr.net w) = 1%nat /\ Runs.closed c (Nostr.net w) = 0%nat).
Proof.
  intros Hrun.
  assert (Hacc : Runs.accounted w c).
  { apply (run_accounted trace Nostr.init w); [| exact Hrun].
    intros c0. unfold Runs.accounted. cbn. rewrite lookup_nil. cbn. auto. }
  split; [exact Hacc |]. unfold Runs.accounted in Hacc.
  destruct (Nostr.calls w !! c) as [call |] eqn:Hcall;
    cbn [fmap option_fmap option_map] in Hacc.
  - destruct (Nostr.phase call) eqn:Hph; cbn [Runs.expected] in Hacc;
      destruct Hacc as [H1 H2].
    all: split; [lia |]; split; [lia |]; split.
    all: intros call' [= <-]; unfold Collect.finished, Collect.streaming; rewrite Hph.
    all: try (intros _; lia); try discriminate.
    all: split; [intros H; first [discriminate | lia] | intros [H3 H4]].
    all: first [reflexivity | exfalso; lia].
  - cbn [Runs.expected] in Hacc. destruct Hacc as [H1 H2].
    split; [lia |]. split; [lia |]. split; intros call' Hnone; discriminate Hnone.
Qed.

Lemma subscriptions_are_closed_witness :
  Runs.accounted (default Nostr.init (Nostr.run Nostr.init Sample.collection)) 0
  /\ (Runs.opened 0 (Nostr.net (default Nostr.init
                                  (Nostr.run Nostr.init Sample.collection))) <= 1)%nat.
Proof.
  destruct (subscriptions_are_closed Sample.collection
              (default Nostr.init (Nostr.run Nostr.init Sample.collection)) 0%nat
              ltac:(vm_compute; reflexivity)) as (H1 & H2 & _).
  split; assumption.
Defined.

Section CacheGrowth.

Import Nostr.

Implicit Types (a : Args) (l : Locals) (cache : gmap string ChunkCacheEntry)
  (ops : list NetOp) (m : JsMap.t ChunkEvent.t) (w : World) (o : Outcome).

Lemma has_set (i k : Z) (v : ChunkEvent.t) m :
  JsMap.has i m = true -> JsMap.has i (JsMap.set k v m) = true.
Proof using Type.
  unfold JsMap.has. induction m as [| [k' v'] m IH]; cbn [existsb JsMap.set fst];
    [discriminate |].
  intros H. apply orb_true_iff in H as [H | H].
  - destruct (Z.eqb_spec k' k) as [-> | Hne]; cbn [existsb fst]; rewrite H; reflexivity.
  - destruct (k' =? k); cbn [existsb fst]; [now rewrite H, orb_true_r |].
    now rewrite IH, orb_true_r.
Qed.

Lemma grows_refl cache : Runs.grows cache cache.
Proof using Type. intros key entry H. now exists entry. Qed.

Lemma grows_trans cache1 cache2 cache3 :
  Runs.grows cache1 cache2 -> Runs.grows cache2 cache3 -> Runs.grows cache1 cache3.
Proof using Type.
  intros H12 H23 key entry H.
  destruct (H12 key entry H) as (entry2 & H2 & Hsub2).
  destruct (H23 key entry2 H2) as (entry3 & H3 & Hsub3).
  exists entry3. split; [exact H3 |]. auto.
Qed.

(** Replacing an entry by one with at least its indices. *)
Lemma grows_insert key (entry' : ChunkCacheEntry) cache :
  (forall entry, cache !! key = Some entry ->
                 forall i, JsMap.has i (chunksByIndex entry) = true ->
                           JsMap.has i (chunksByIndex entry') = true) ->
  Runs.grows cache (<[key := entry']> cache).
Proof using Type.
  intros Hsub key0 entry H. rewrite lookup_insert.
  destruct (decide (key = key0)) as [<- | Hne].
  - exists entry'. split; [reflexivity |]. now apply Hsub.
  - now exists entry.
Qed.

Lemma clearInFlight_grows key cache : Runs.grows cache (clearInFlight key cache).
Proof using Type.
  unfold clearInFlight. destruct (cache !! key) as [current |] eqn:Hk; [| apply grows_refl].
  apply grows_insert. intros entry He i Hi. cbn [chunksByIndex].
  rewrite Hk in He. injection He as <-. exact Hi.
Qed.

Lemma addChunk_grows a (index : Z) (event : Event) l cache :
  Runs.grows cache (snd (addChunk a index event (l, cache))).
Proof using Type.
  unfold addChunk. destruct (JsMap.has index (l_chunksByIndex l)); [apply grows_refl |].
  cbn [snd]. destruct (cache !! cacheKey a) as [entry |] eqn:He; [| apply grows_refl].
  apply grows_insert. intros entry0 He0 i Hi. cbn [chunksByIndex]. apply has_set.
  rewrite He in He0. injection He0 as <-. exact Hi.
Qed.

Lemma onevent_grows a (event : Event) l cache :
  Runs.grows cache (snd (onevent a event (l, cache))).
Proof using Type.
  unfold onevent. destruct (bool_decide _); [apply grows_refl |].
  destruct (parseChunkIndexFromTags _); [apply addChunk_grows | apply grows_refl].
Qed.

Lemma onFallbackEvent_grows a (ibe : gmap string Z) (event : Event) l cache :
  Runs.grows cache (snd (onFallbackEvent a ibe (l, cache) event)).
Proof using Type.
  unfold onFallbackEvent. destruct (bool_decide _); [apply grows_refl |].
  destruct (parseChunkIndexFromTags _); [apply addChunk_grows |].
  destruct (ibe !! id event); [apply addChunk_grows | apply grows_refl].
Qed.

Lemma fallbackEvents_grows a (ibe : gmap string Z) (events : list Event) l cache :
  Runs.grows cache (snd (fold_left (onFallbackEvent a ibe) events (l, cache))).
Proof using Type.
  revert l cache. induction events as [| event events IH]; intros l cache;
    cbn [fold_left]; [apply grows_refl |].
  pose proof (onFallbackEvent_grows a ibe event l cache) as H.
  destruct (onFallbackEvent a ibe (l, cache) event) as [l' cache'].
  eapply grows_trans; [exact H | apply IH].
Qed.

Lemma afterStream_grows (me : nat) a l cache ops :
  Runs.grows cache (snd (fst (afterStream me a l cache ops))).
Proof using Type.
  unfold afterStream. destruct (_ <? _); [destruct (idBatches _) |]; cbn [finish fst snd];
    first [apply clearInFlight_grows | apply grows_refl].
Qed.

Lemma startCollection_grows (me : nat) (now : Z) a cache ops :
  Runs.grows cache (snd (fst (startCollection me now a cache ops))).
Proof using Type.
  unfold startCollection. cbn zeta.
  set (cache' := <[_ := _]> cache).
  assert (H : Runs.grows cache cache').
  { apply grows_insert. intros entry He i Hi. cbn [chunksByIndex]. rewrite He. exact Hi. }
  destruct (_ <? _); [exact H |].
  eapply grows_trans; [exact H | apply afterStream_grows].
Qed.

Lemma tick_grows (me : nat) (now : Z) a l (st la ls : Z) cache ops :
  Runs.grows cache (snd (fst (tick me now a l st la ls cache ops))).
Proof using Type.
  unfold tick. destruct (_ >? ls).
  all: repeat (destruct (_ >? _); [apply afterStream_grows |]).
  all: destruct (_ <? _); [apply grows_refl | apply afterStream_grows].
Qed.

(** No step removes a cache entry or an index from one. *)
Lemma step_grows w (lbl : Label) w' :
  step w lbl = Some w' -> Runs.grows (chunkCache w) (chunkCache w').
Proof using Type.
  intros Hstep.
  apply step_inversion in Hstep
    as [(now & a & -> & call & cache & ops & He & ->)
       | (c & call & o & Hcall & -> & Ho)].
  - cbn [chunkCache]. change cache with (snd (fst (call, cache, ops))). rewrite <- He.
    unfold enter. destruct (cacheHit _ _); [apply grows_refl |].
    destruct (_ ≫= inFlight); [apply grows_refl | apply startCollection_grows].
  - assert (H : Runs.grows (chunkCache w) (snd (fst o))).
    { destruct Ho as [(event & st & la & ls & _ & _ & ->)
                     | [(now & st & la & ls & _ & _ & ->)
                     | [(ibe & batch & rest & events & _ & _ & ->)
                     | [(ibe & batch & rest & _ & _ & ->)
                     | [(p & now & owner & chunks & _ & _ & _ & _ & ->)
                     | (p & now & owner & _ & _ & _ & _ & ->)]]]]].
      - unfold deliver.
        pose proof (onevent_grows (args call) event (locals call) (chunkCache w)) as H.
        destruct (onevent _ _ _) as [l' cache']. exact H.
      - apply tick_grows.
      - unfold queryDone.
        pose proof (fallbackEvents_grows (args call) ibe events (locals call)
                      (chunkCache w)) as H.
        destruct (fold_left _ events _) as [l' cache']. cbn [snd] in H.
        destruct rest; cbn [finish fst snd]; [| exact H].
        eapply grows_trans; [exact H | apply clearInFlight_grows].
      - apply clearInFlight_grows.
      - unfold resume. destruct (cacheHit _ _); [apply grows_refl |].
        apply startCollection_grows.
      - apply grows_refl. }
    destruct o as [[call' cache'] ops']. exact H.
Qed.

End CacheGrowth.

Lemma run_grows (trace : list Nostr.Label) (w w' : Nostr.World) :
  Nostr.run w trace = Some w' -> Runs.grows (Nostr.chunkCache w) (Nostr.chunkCache w').
Proof.
  revert w. induction trace as [| lbl trace IH]; intros w; cbn [Nostr.run].
  - intros [= <-]. apply grows_refl.
  - destruct (Nostr.step w lbl) as [w1 |] eqn:Hs; [| discriminate].
    cbn [mbind option_bind]. intros Hrun.
    eapply grows_trans; [exact (step_grows w lbl w1 Hs) | exact (IH w1 Hrun)].
Qed.

(** X19: over any run, from any state, the chunk cache only grows: an entry
    that is there stays, and so does every index in it. *)
Theorem cache_only_grows (trace : list Nostr.Label) (w w' : Nostr.World) :
  Nostr.run w trace = Some w' ->
  forall key entry,
    Nostr.chunkCache w !! key = Some entry ->
    exists entry',
      Nostr.chunkCache w' !! key = Some entry'
      /\ forall i, JsMap.has i (Nostr.chunksByIndex entry) = true ->
                   JsMap.has i (Nostr.chunksByIndex entry') = true.
Proof.
  intros Hrun. exact (run_grows trace w w' Hrun).
Qed.

Lemma cache_only_grows_witness :
  exists entry',
    Nostr.chunkCache Sample.afterSecondCall !! "pk:h"%string = Some entry'
    /\ JsMap.has 0 (Nostr.chunksByIndex entry') = true.
Proof.
  assert (Hrun : Nostr.run Sample.afterFirstCall Sample.secondCall
                 = Some Sample.afterSecondCall) by (vm_compute; reflexivity).
  assert (Hold : Nostr.chunkCache Sample.afterFirstCall !! "pk:h"%string
                 = Some (default {| Nostr.chunksByIndex := []; Nostr.inFlight := None |}
                           (Nostr.chunkCache Sample.afterFirstCall !! "pk:h"%string)))
    by (vm_compute; reflexivity).
  destruct (cache_only_grows Sample.secondCall Sample.afterFirstCall Sample.afterSecondCall
              Hrun _ _ Hold) as (entry' & Hentry & Hhas).
  exists entry'. split; [exact Hentry |]. apply Hhas. vm_compute. reflexivity.
Defined.

Section Overlap.

Import Nostr.

Implicit Types (a : Args) (l : Locals) (cache : gmap string ChunkCacheEntry)
  (ops : list NetOp) (m : JsMap.t ChunkEvent.t) (w : World) (o : Outcome).

(** A collection that starts with fewer chunks than expected streams. *)
Lemma startCollection_streams (me : nat) (now : Z) a cache ops :
  let m := default JsMap.empty (chunksByIndex <$> cache !! cacheKey a) in
  JsMap.size m < totalChunks a ->
  startCollection me now a cache ops
  = ({| args := a;
        locals := {| l_chunksByIndex := m; seenEventIds := ∅;
                     progress := if JsMap.size m >? 0
                                 then [(JsMap.size m, totalChunks a)] else [] |};
        phase := Streaming now now 0 |},
     <[cacheKey a := {| chunksByIndex := m; inFlight := Some me |}]> cache,
     ops ++ [Subscribe me (relays a) (subscriptionFilter a)]).
Proof using Type.
  intros m Hm. unfold startCollection. fold m.
  replace (JsMap.size m <? totalChunks a) with true by lia. reflexivity.
Qed.

Lemma missingIds_nil (missing : list Z) : missingIds [] missing = [].
Proof using Type.
  unfold missingIds. induction missing as [| i missing IH]; [reflexivity |].
  cbn [omap list_omap find fmap option_fmap option_map truthy]. exact IH.
Qed.

(** Without chunk infos the fallback has nothing to ask for. *)
Lemma afterStream_gives_up (me : nat) a l cache ops :
  chunkInfos a = [] ->
  afterStream me a l cache ops = finish a l cache (ops ++ [Close me]).
Proof using Type.
  intros Hinfos. unfold afterStream. rewrite Hinfos, missingIds_nil.
  destruct (_ <? _); reflexivity.
Qed.

Lemma run_app w (t1 t2 : list Label) :
  run w (t1 ++ t2) = run w t1 ≫= fun w' => run w' t2.
Proof using Type.
  revert w. induction t1 as [| lbl t1 IH]; intros w; cbn [app run]; [reflexivity |].
  destruct (step w lbl) as [w1 |]; cbn [mbind option_bind]; [apply IH | reflexivity].
Qed.

End Overlap.

(** X20: coalescing stops at the first generation. Three calls for the same
    file, the second and third made while the first collects; the first times
    out with nothing and returns the empty list; the two waiting calls resume,
    find the cache entry incomplete, and each opens a subscription of its own:
    two subscriptions for the same file are live at once, and [inFlight] names
    only the last. *)
Theorem three_calls_two_subscriptions (a : Nostr.Args) (t0 t1 t2 late : Z) :
  0 < Nostr.totalChunks a ->
  Nostr.chunkInfos a = [] ->
  late - t0 > Nostr.INACTIVITY_TIMEOUT ->
  exists w,
    Nostr.run Nostr.init (Runs.threeCalls a t0 t1 t2 late) = Some w
    /\ map Nostr.phase (Nostr.calls w)
       = [Nostr.Returned []; Nostr.Streaming late late 0; Nostr.Streaming late late 0]
    /\ Collect.live w = 2%nat
    /\ Collect.inFlightOf (Nostr.chunkCache w) (Nostr.cacheKey a) = Some 2%nat.
Proof.
  intros Htotal Hinfos Hlate. unfold Nostr.INACTIVITY_TIMEOUT in Hlate.
  set (key := Nostr.cacheKey a).
  set (sub := fun c => Nostr.Subscribe c (Nostr.relays a) (Nostr.subscriptionFilter a)).
  set (l0 := {| Nostr.l_chunksByIndex := JsMap.empty; Nostr.seenEventIds := ∅;
                Nostr.progress := [] |}).
  set (entry := fun p => {| Nostr.chunksByIndex := JsMap.empty; Nostr.inFlight := p |}).
  (* the first call starts the collection *)
  set (w1 := {| Nostr.chunkCache := <[key := entry (Some 0%nat)]> ∅;
                Nostr.calls := [{| Nostr.args := a; Nostr.locals := l0;
                                   Nostr.phase := Nostr.Streaming t0 t0 0 |}];
                Nostr.net := [sub 0%nat] |}).
  assert (H1 : Nostr.step Nostr.init (Nostr.LCall t0 a) = Some w1).
  { cbn [Nostr.step Nostr.init Nostr.calls Nostr.chunkCache Nostr.net length].
    unfold Nostr.enter, Nostr.cacheHit. rewrite lookup_empty. cbn [mbind option_bind].
    rewrite (fun H => startCollection_streams 0 t0 a ∅ [] H)
      by (rewrite lookup_empty; unfold JsMap.size, JsMap.empty; cbn; lia).
    rewrite lookup_empty. reflexivity. }
  (* the second and the third wait for it *)
  assert (Hwait : forall (calls0 : list Nostr.Call) ops now,
             Nostr.enter (length calls0) now a (<[key := entry (Some 0%nat)]> ∅) ops
             = ({| Nostr.args := a; Nostr.locals := Nostr.noLocals;
                   Nostr.phase := Nostr.Waiting 0 |},
                <[key := entry (Some 0%nat)]> ∅, ops)).
  { intros calls0 ops now. unfold Nostr.enter, Nostr.cacheHit. fold key.
    rewrite lookup_insert_eq. unfold entry at 1, JsMap.size, JsMap.empty.
    cbn [Nostr.chunksByIndex length].
    change (Z.of_nat 0) with 0.
    replace (0 =? Nostr.totalChunks a) with false by (clear -Htotal; lia).
    reflexivity. }
  set (waiting := {| Nostr.args := a; Nostr.locals := Nostr.noLocals;
                     Nostr.phase := Nostr.Waiting 0 |}).
  set (w3 := {| Nostr.chunkCache := <[key := entry (Some 0%nat)]> ∅;
                Nostr.calls := [{| Nostr.args := a; Nostr.locals := l0;
                                   Nostr.phase := Nostr.Streaming t0 t0 0 |};
                                waiting; waiting];
                Nostr.net := [sub 0%nat] |}).
  assert (H3 : Nostr.run w1 [Nostr.LCall t1 a; Nostr.LCall t2 a] = Some w3).
  { cbn [Nostr.run Nostr.step w1 Nostr.calls Nostr.chunkCache Nostr.net].
    rewrite Hwait. cbn [mbind option_bind Nostr.calls Nostr.chunkCache Nostr.net app].
    rewrite (Hwait [_; _]). reflexivity. }
  (* the first gives up *)
  set (done := {| Nostr.args := a; Nostr.locals := l0; Nostr.phase := Nostr.Returned [] |}).
  set (w4 := {| Nostr.chunkCache := <[key := entry None]> (<[key := entry (Some 0%nat)]> ∅);
                Nostr.calls := [done; waiting; waiting];
                Nostr.net := [sub 0%nat; Nostr.Close 0] |}).
  assert (H4 : Nostr.step w3 (Nostr.LTick 0 late) = Some w4).
  { cbn [Nostr.step w3 Nostr.calls lookup list_lookup mbind option_bind Nostr.phase
         Nostr.args Nostr.locals Nostr.chunkCache Nostr.net].
    unfold Nostr.tick, l0 at 1, JsMap.size, JsMap.empty. cbn [Nostr.l_chunksByIndex length].
    change (Z.of_nat 0 >? 0) with false. cbv iota.
    unfold Nostr.INACTIVITY_TIMEOUT. replace (late - t0 >? 5000) with true by (clear -Hlate; lia).
    rewrite afterStream_gives_up by exact Hinfos.
    unfold Nostr.finish, Nostr.clearInFlight. fold key. rewrite lookup_insert_eq.
    reflexivity. }
  (* both waiters resume, and each starts a collection of its own *)
  assert (Hresume : forall c cache ops p,
             cache !! key = Some (entry p) ->
             Nostr.resume c late a cache ops
             = ({| Nostr.args := a; Nostr.locals := l0;
                   Nostr.phase := Nostr.Streaming late late 0 |},
                <[key := entry (Some c)]> cache, ops ++ [sub c])).
  { intros c cache ops p Hentry. unfold Nostr.resume, Nostr.cacheHit. fold key.
    rewrite Hentry. unfold entry at 1, JsMap.size, JsMap.empty.
    cbn [Nostr.chunksByIndex length].
    change (Z.of_nat 0) with 0.
    replace (0 =? Nostr.totalChunks a) with false by (clear -Htotal; lia).
    rewrite startCollection_streams; fold key; rewrite Hentry; [reflexivity |].
    unfold JsMap.size, JsMap.empty. cbn. clear -Htotal. lia. }
  set (streaming := {| Nostr.args := a; Nostr.locals := l0;
                       Nostr.phase := Nostr.Streaming late late 0 |}).
  set (cache4 := <[key := entry None]> (<[key := entry (Some 0%nat)]> ∅)
                 : gmap string Nostr.ChunkCacheEntry).
  set (w6 := {| Nostr.chunkCache := <[key := entry (Some 2%nat)]>
                                      (<[key := entry (Some 1%nat)]> cache4);
                Nostr.calls := [done; streaming; streaming];
                Nostr.net := [sub 0%nat; Nostr.Close 0; sub 1%nat; sub 2%nat] |}).
  assert (H6 : Nostr.run w4 [Nostr.LResume 1 late; Nostr.LResume 2 late] = Some w6).
  { cbn [Nostr.run Nostr.step w4 Nostr.calls lookup list_lookup mbind option_bind
         Nostr.phase Nostr.args Nostr.locals Nostr.chunkCache Nostr.net
         waiting done fmap option_fmap option_map].
    rewrite (Hresume 1%nat _ _ None) by apply lookup_insert_eq.
    cbn [Nostr.commit Nostr.run Nostr.step Nostr.calls lookup list_lookup mbind option_bind
         Nostr.phase Nostr.args Nostr.locals Nostr.chunkCache Nostr.net
         w4 waiting done insert list_insert fmap option_fmap option_map app].
    rewrite (Hresume 2%nat _ _ (Some 1%nat)) by apply lookup_insert_eq.
    reflexivity. }
  exists w6. split; [| split; [reflexivity | split; [reflexivity |]]].
  - unfold Runs.threeCalls.
    change [Nostr.LCall t0 a; Nostr.LCall t1 a; Nostr.LCall t2 a; Nostr.LTick 0 late;
            Nostr.LResume 1 late; Nostr.LResume 2 late]
      with ([Nostr.LCall t0 a] ++ [Nostr.LCall t1 a; Nostr.LCall t2 a]
            ++ [Nostr.LTick 0 late] ++ [Nostr.LResume 1 late; Nostr.LResume 2 late]).
    assert (H1' : Nostr.run Nostr.init [Nostr.LCall t0 a] = Some w1)
      by (cbn [Nostr.run]; rewrite H1; reflexivity).
    assert (H4' : Nostr.run w3 [Nostr.LTick 0 late] = Some w4)
      by (cbn [Nostr.run]; rewrite H4; reflexivity).
    rewrite run_app, H1'. cbn [mbind option_bind].
    rewrite run_app, H3. cbn [mbind option_bind].
    rewrite run_app, H4'. exact H6.
  - unfold Collect.inFlightOf. cbn [w6 Nostr.chunkCache]. fold key.
    rewrite lookup_insert_eq. reflexivity.
Qed.

Lemma three_calls_two_subscriptions_witness :
  exists w,
    Nostr.run Nostr.init (Runs.threeCalls Sample.fiveChunks 0 10 20 5001) = Some w
    /\ map Nostr.phase (Nostr.calls w)
       = [Nostr.Returned []; Nostr.Streaming 5001 5001 0; Nostr.Streaming 5001 5001 0]
    /\ Collect.live w = 2%nat
    /\ Collect.inFlightOf (Nostr.chunkCache w) (Nostr.cacheKey Sample.fiveChunks)
       = Some 2%nat.
Proof.
  apply (three_calls_two_subscriptions Sample.fiveChunks 0 10 20 5001).
  - cbn. lia.
  - reflexivity.
  - unfold Nostr.INACTIVITY_TIMEOUT. lia.
Defined.

(** *** The fallback by id *)

Section Batches.

Import Nostr.

(** Cutting a list into pieces of [size] and gluing them again. *)
Lemma pieces_concat {A} (size : nat) (l : list A) (n : nat) :
  (length l <= n * size)%nat ->
  concat (map (fun k => take size (drop (k * size) l)) (seq 0 n)) = l.
Proof using Type.
  revert l. induction n as [| n IH]; intros l Hlen.
  - cbn in *. destruct l; [reflexivity | cbn in Hlen; lia].
  - cbn [seq map concat]. rewrite <- seq_shift, map_map.
    cbn [Nat.mul]. rewrite drop_0.
    rewrite (map_ext _ (fun k => take size (drop (k * size) (drop size l)))).
    + rewrite IH by (rewrite length_drop; lia). apply take_drop.
    + intros k. rewrite drop_drop. do 2 f_equal; lia.
Qed.

Lemma slice_piece {A} (l : list A) (k : nat) :
  slice l (Z.of_nat k * CHUNK_ID_BATCH_SIZE)
          (Z.of_nat k * CHUNK_ID_BATCH_SIZE + CHUNK_ID_BATCH_SIZE)
  = take 200 (drop (k * 200) l).
Proof using Type.
  unfold slice, subarray, rel_index, CHUNK_ID_BATCH_SIZE.
  rewrite (proj2 (Z.ltb_ge (Z.of_nat k * 200) 0)) by lia.
  rewrite (proj2 (Z.ltb_ge (Z.of_nat k * 200 + 200) 0)) by lia.
  destruct (Z.le_gt_cases (Z.of_nat k * 200) (Z.of_nat (length l))) as [Hle | Hgt].
  - rewrite (Z.min_l (Z.of_nat k * 200)) by lia.
    replace (Z.to_nat (Z.of_nat k * 200)) with (k * 200)%nat by lia.
    destruct (Z.le_gt_cases (Z.of_nat k * 200 + 200) (Z.of_nat (length l))) as [Hle' | Hgt'].
    + rewrite Z.min_l by lia. f_equal; lia.
    + rewrite Z.min_r by lia.
      rewrite !take_ge; [reflexivity | rewrite length_drop; lia ..].
  - rewrite !Z.min_r by lia. rewrite !drop_ge by lia. now rewrite !take_nil.
Qed.

Lemma idBatches_pieces (ids : list string) :
  idBatches ids
  = map (fun k => take 200 (drop (k * 200) ids)) (seq 0 ((length ids + 199) / 200)).
Proof using Type.
  unfold idBatches. rewrite map_map.
  replace (Z.to_nat ((Z.of_nat (length ids) + CHUNK_ID_BATCH_SIZE - 1) / CHUNK_ID_BATCH_SIZE))
    with ((length ids + 199) / 200)%nat.
  - apply map_ext. intros k. apply slice_piece.
  - unfold CHUNK_ID_BATCH_SIZE.
    replace (Z.of_nat (length ids) + 200 - 1) with (Z.of_nat (length ids + 199)) by lia.
    change 200 with (Z.of_nat 200). rewrite <- Nat2Z.inj_div. lia.
Qed.

End Batches.

(** X21: the batches of the fallback are the ids themselves, in order, cut
    into pieces of at least 1 and at most 200 ids; there are [ceil (n / 200)]
    of them. *)
Theorem idBatches_partition (ids : list string) :
  concat (Nostr.idBatches ids) = ids
  /\ Forall (fun batch => (1 <= length batch <= 200)%nat) (Nostr.idBatches ids)
  /\ length (Nostr.idBatches ids) = ((length ids + 199) / 200)%nat.
Proof.
  rewrite idBatches_pieces. split; [| split].
  - apply pieces_concat.
    pose proof (Nat.div_mod_eq (length ids + 199) 200).
    pose proof (Nat.mod_upper_bound (length ids + 199) 200). lia.
  - apply Forall_map, List.Forall_forall. intros k Hk. apply in_seq in Hk. cbn beta.
    rewrite length_take, length_drop.
    pose proof (Nat.div_mod_eq (length ids + 199) 200).
    pose proof (Nat.mod_upper_bound (length ids + 199) 200). lia.
  - now rewrite length_map, length_seq.
Qed.

Lemma missingIndices_spec (total : Z) (m : JsMap.t Nostr.ChunkEvent.t) (i : Z) :
  In i (Nostr.missingIndices total m) <-> 0 <= i < total /\ JsMap.has i m = false.
Proof.
  unfold Nostr.missingIndices. rewrite filter_In, in_map_iff. split.
  - intros [(k & <- & Hk) Hhas]. apply in_seq in Hk.
    split; [lia | now apply negb_true_iff].
  - intros [Hi Hhas]. split; [| now apply negb_true_iff].
    exists (Z.to_nat i). split; [lia | apply in_seq; lia].
Qed.

Lemma truthy_some (o : option string) (s : string) :
  Nostr.truthy o = Some s <-> o = Some s /\ s <> EmptyString.
Proof.
  destruct o as [[| c t] |]; cbn [Nostr.truthy]; split.
  - discriminate.
  - intros [[= <-] Hne]. contradiction.
  - intros [= <-]. split; [reflexivity | discriminate].
  - now intros [H _].
  - discriminate.
  - now intros [H _].
Qed.

Lemma find_unique (infos : list ChunkInfo.t) (info : ChunkInfo.t) :
  List.NoDup (map ChunkInfo.index infos) -> In info infos ->
  find (fun c => ChunkInfo.index c =? ChunkInfo.index info) infos = Some info.
Proof.
  induction infos as [| x infos IH]; intros Hnd Hin; [contradiction |].
  cbn [map] in Hnd. inversion Hnd as [| ? ? Hnotin Hnd']; subst. cbn [find].
  destruct Hin as [-> | Hin]; [now rewrite Z.eqb_refl |].
  destruct (Z.eqb_spec (ChunkInfo.index x) (ChunkInfo.index info)) as [Heq | _];
    [| now apply IH].
  exfalso. apply Hnotin. rewrite Heq. now apply in_map.
Qed.

Lemma omap_length {A B} (f : A -> option B) (l : list A) :
  (length (omap f l) <= length l)%nat.
Proof.
  induction l as [| x l IH]; [reflexivity |]. cbn [omap list_omap length].
  destruct (f x); cbn [length]; fold (omap f l); lia.
Qed.

(** X22: the ids the fallback asks for: each is a non-empty [event_id] that
    the manifest lists for an index in [0, totalChunks) that is still missing;
    when the indices of the manifest are distinct, every such id is asked for;
    and there are at most [totalChunks] of them. *)
Theorem fallback_asks_for_missing (infos : list ChunkInfo.t) (total : Z)
    (m : JsMap.t Nostr.ChunkEvent.t) :
  let asked := Nostr.missingIds infos (Nostr.missingIndices total m) in
  (forall id,
      In id asked ->
      exists info,
        In info infos
        /\ ChunkInfo.event_id info = id
        /\ id <> EmptyString
        /\ 0 <= ChunkInfo.index info < total
        /\ JsMap.has (ChunkInfo.index info) m = false)
  /\ (List.NoDup (map ChunkInfo.index infos) ->
      forall info,
        In info infos ->
        ChunkInfo.event_id info <> EmptyString ->
        0 <= ChunkInfo.index info < total ->
        JsMap.has (ChunkInfo.index info) m = false ->
        In (ChunkInfo.event_id info) asked)
  /\ (length asked <= Z.to_nat total)%nat.
Proof.
  intros asked. unfold asked, Nostr.missingIds. split; [| split].
  - intros id Hin. apply list_elem_of_In, list_elem_of_omap in Hin as (i & Hi & Hf).
    apply list_elem_of_In, missingIndices_spec in Hi as [Hrange Hhas].
    apply truthy_some in Hf as [Hfind Hne].
    destruct (find _ infos) as [info |] eqn:Hfound; [| discriminate].
    injection Hfind as Hid. apply find_some in Hfound as [Hin Heq].
    apply Z.eqb_eq in Heq. exists info. rewrite Heq. auto.
  - intros Hnd info Hin Hne Hrange Hhas.
    apply list_elem_of_In, list_elem_of_omap. exists (ChunkInfo.index info). split.
    + apply list_elem_of_In, missingIndices_spec. auto.
    + rewrite (find_unique infos info Hnd Hin). cbn [fmap option_fmap option_map].
      apply truthy_some. split; [reflexivity | exact Hne].
  - etransitivity; [apply omap_length |]. unfold Nostr.missingIndices.
    etransitivity; [apply List.filter_length_le |]. now rewrite length_map, length_seq.
Qed.

(** *** Chunk collection: where the chunks come from *)

Section Provenance.

Import Nostr.

Implicit Types (a : Args) (l : Locals) (cache : gmap string ChunkCacheEntry)
  (ops : list NetOp) (m : JsMap.t ChunkEvent.t) (w : World) (o : Outcome)
  (events : list Event).

Lemma received_more events events' (chunk : ChunkEvent.t) :
  incl events events' -> Runs.received events chunk -> Runs.received events' chunk.
Proof using Type. intros Hincl (event & Hin & Hd). exists event. auto. Qed.

Lemma sourcedMap_more events events' m :
  incl events events' -> Runs.sourcedMap events m -> Runs.sourcedMap events' m.
Proof using Type.
  intros Hincl H. unfold Runs.sourcedMap in *.
  eapply Forall_impl; [exact H |]. intros chunk. now apply received_more.
Qed.

Lemma sourcedCache_more events events' cache :
  incl events events' -> Runs.sourcedCache events cache -> Runs.sourcedCache events' cache.
Proof using Type.
  intros Hincl H key entry Hk. eapply sourcedMap_more; [exact Hincl | exact (H key entry Hk)].
Qed.

Lemma sourcedCall_more events events' (c : Call) :
  incl events events' -> Runs.sourcedCall events c -> Runs.sourcedCall events' c.
Proof using Type.
  intros Hincl [Hl Hph]. split; [now apply (sourcedMap_more events) |].
  destruct (phase c); try exact I.
  eapply Forall_impl; [exact Hph |]. intros chunk. now apply received_more.
Qed.

Lemma sourcedMap_set events (k : Z) (v : ChunkEvent.t) m :
  Runs.received events v -> Runs.sourcedMap events m ->
  Runs.sourcedMap events (JsMap.set k v m).
Proof using Type.
  intros Hv. unfold Runs.sourcedMap, JsMap.values.
  induction m as [| [k' v'] m IH]; cbn [JsMap.set map snd]; intros H.
  - now constructor.
  - apply Forall_cons in H as [Hv' H].
    destruct (k' =? k); cbn [map snd]; constructor; auto.
Qed.

Lemma sourcedCache_insert events key (entry : ChunkCacheEntry) cache :
  Runs.sourcedCache events cache -> Runs.sourcedMap events (chunksByIndex entry) ->
  Runs.sourcedCache events (<[key := entry]> cache).
Proof using Type.
  intros Hc He key' entry'. rewrite lookup_insert.
  destruct (decide (key = key')); [intros [= <-]; exact He | apply Hc].
Qed.

Lemma clearInFlight_sourced events key cache :
  Runs.sourcedCache events cache -> Runs.sourcedCache events (clearInFlight key cache).
Proof using Type.
  intros Hc. unfold clearInFlight. destruct (cache !! key) as [current |] eqn:Hk; [| exact Hc].
  apply sourcedCache_insert; [exact Hc |]. exact (Hc key current Hk).
Qed.

Lemma sortedChunks_sourced events m :
  Runs.sourcedMap events m -> Forall (Runs.received events) (sortedChunks m).
Proof using Type.
  unfold Runs.sourcedMap, sortedChunks. rewrite !List.Forall_forall.
  intros H chunk Hin. apply H. exact (proj1 (sort_In _ _) Hin).
Qed.

(** A chunk filed from [event] under an index the tags do not contradict. *)
Lemma addChunk_sourced events a (index : Z) (event : Event) l cache :
  In event events ->
  (forall i, parseChunkIndexFromTags (tags event) = Some i -> index = i) ->
  Runs.sourcedMap events (l_chunksByIndex l) -> Runs.sourcedCache events cache ->
  Runs.sourcedMap events (l_chunksByIndex (fst (addChunk a index event (l, cache))))
  /\ Runs.sourcedCache events (snd (addChunk a index event (l, cache))).
Proof using Type.
  intros Hin Hindex Hl Hc. unfold addChunk.
  destruct (JsMap.has index (l_chunksByIndex l)); [split; assumption |].
  set (chunk := {| ChunkEvent.index := index |}).
  assert (Hchunk : Runs.received events chunk).
  { exists event. split; [exact Hin |]. repeat split. exact Hindex. }
  cbn [fst snd l_chunksByIndex]. split; [now apply sourcedMap_set |].
  destruct (cache !! cacheKey a) as [entry |] eqn:He; [| exact Hc].
  apply sourcedCache_insert; [exact Hc |]. cbn [chunksByIndex].
  apply sourcedMap_set; [exact Hchunk | exact (Hc _ _ He)].
Qed.

Lemma onevent_sourced events a (event : Event) l cache :
  In event events ->
  Runs.sourcedMap events (l_chunksByIndex l) -> Runs.sourcedCache events cache ->
  Runs.sourcedMap events (l_chunksByIndex (fst (onevent a event (l, cache))))
  /\ Runs.sourcedCache events (snd (onevent a event (l, cache))).
Proof using Type.
  intros Hin Hl Hc. unfold onevent. destruct (bool_decide _); [split; assumption |].
  destruct (parseChunkIndexFromTags _) as [index |] eqn:Hp; [| split; assumption].
  apply addChunk_sourced; auto. congruence.
Qed.

Lemma onFallbackEvent_sourced events a (ibe : gmap string Z) (event : Event) l cache :
  In event events ->
  Runs.sourcedMap events (l_chunksByIndex l) -> Runs.sourcedCache events cache ->
  Runs.sourcedMap events (l_chunksByIndex (fst (onFallbackEvent a ibe (l, cache) event)))
  /\ Runs.sourcedCache events (snd (onFallbackEvent a ibe (l, cache) event)).
Proof using Type.
  intros Hin Hl Hc. unfold onFallbackEvent. destruct (bool_decide _); [split; assumption |].
  destruct (parseChunkIndexFromTags _) as [index |] eqn:Hp.
  - apply addChunk_sourced; auto. congruence.
  - destruct (ibe !! id event) as [index |]; [| split; assumption].
    apply addChunk_sourced; auto. congruence.
Qed.

Lemma fallbackEvents_sourced events a (ibe : gmap string Z) (batch : list Event) l cache :
  incl batch events ->
  Runs.sourcedMap events (l_chunksByIndex l) -> Runs.sourcedCache events cache ->
  Runs.sourcedMap events
    (l_chunksByIndex (fst (fold_left (onFallbackEvent a ibe) batch (l, cache))))
  /\ Runs.sourcedCache events (snd (fold_left (onFallbackEvent a ibe) batch (l, cache))).
Proof using Type.
  revert l cache. induction batch as [| event batch IH]; intros l cache Hincl Hl Hc;
    cbn [fold_left]; [split; assumption |].
  pose proof (onFallbackEvent_sourced events a ibe event l cache
                (Hincl event (or_introl eq_refl)) Hl Hc) as [Hl' Hc'].
  destruct (onFallbackEvent a ibe (l, cache) event) as [l' cache'].
  apply IH; [intros e He; apply Hincl; now right | exact Hl' | exact Hc'].
Qed.

Lemma events_sourced events a (batch : list Event) l cache :
  incl batch events ->
  Runs.sourcedMap events (l_chunksByIndex l) -> Runs.sourcedCache events cache ->
  Runs.sourcedMap events
    (l_chunksByIndex (fst (fold_left (fun st event => onevent a event st) batch (l, cache))))
  /\ Runs.sourcedCache events
       (snd (fold_left (fun st event => onevent a event st) batch (l, cache))).
Proof using Type.
  revert l cache. induction batch as [| event batch IH]; intros l cache Hincl Hl Hc;
    cbn [fold_left]; [split; assumption |].
  pose proof (onevent_sourced events a event l cache
                (Hincl event (or_introl eq_refl)) Hl Hc) as [Hl' Hc'].
  destruct (onevent a event (l, cache)) as [l' cache'].
  apply IH; [intros e He; apply Hincl; now right | exact Hl' | exact Hc'].
Qed.

Lemma finish_sourced events a l cache ops :
  Runs.sourcedMap events (l_chunksByIndex l) -> Runs.sourcedCache events cache ->
  Runs.sourcedCall events (fst (fst (finish a l cache ops)))
  /\ Runs.sourcedCache events (snd (fst (finish a l cache ops))).
Proof using Type.
  intros Hl Hc. cbn [finish fst snd]. split; [| now apply clearInFlight_sourced].
  split; [exact Hl | now apply sortedChunks_sourced].
Qed.

Lemma afterStream_sourced events (me : nat) a l cache ops :
  Runs.sourcedMap events (l_chunksByIndex l) -> Runs.sourcedCache events cache ->
  Runs.sourcedCall events (fst (fst (afterStream me a l cache ops)))
  /\ Runs.sourcedCache events (snd (fst (afterStream me a l cache ops))).
Proof using Type.
  intros Hl Hc. unfold afterStream.
  destruct (_ <? _); [| now apply finish_sourced].
  destruct (idBatches _); [now apply finish_sourced |].
  cbn [fst snd]. split; [split; [exact Hl | exact I] | exact Hc].
Qed.

Lemma startCollection_sourced events (me : nat) (now : Z) a cache ops :
  Runs.sourcedCache events cache ->
  Runs.sourcedCall events (fst (fst (startCollection me now a cache ops)))
  /\ Runs.sourcedCache events (snd (fst (startCollection me now a cache ops))).
Proof using Type.
  intros Hc. unfold startCollection.
  assert (Hm : Runs.sourcedMap events
                 (default JsMap.empty (chunksByIndex <$> cache !! cacheKey a))).
  { destruct (cache !! cacheKey a) as [cached |] eqn:Hk; cbn; [exact (Hc _ _ Hk) |].
    constructor. }
  assert (Hc' : Runs.sourcedCache events
                  (<[cacheKey a :=
                       {| chunksByIndex := default JsMap.empty
                                             (chunksByIndex <$> cache !! cacheKey a);
                          inFlight := Some me |}]> cache))
    by (apply sourcedCache_insert; assumption).
  destruct (_ <? _).
  - cbn [fst snd]. split; [split; [exact Hm | exact I] | exact Hc'].
  - apply afterStream_sourced; assumption.
Qed.

Lemma cacheHit_sourced events a cache (chunks : list ChunkEvent.t) :
  Runs.sourcedCache events cache -> cacheHit a cache = Some chunks ->
  Forall (Runs.received events) chunks.
Proof using Type.
  intros Hc. unfold cacheHit.
  destruct (cache !! cacheKey a) as [cached |] eqn:Hk; [| discriminate].
  destruct (_ =? _); [| discriminate]. intros [= <-].
  apply sortedChunks_sourced. exact (Hc _ _ Hk).
Qed.

Lemma noLocals_sourced events : Runs.sourcedMap events (l_chunksByIndex noLocals).
Proof using Type. constructor. Qed.

Lemma tick_sourced events (me : nat) (now : Z) a l (st la ls : Z) cache ops :
  Runs.sourcedMap events (l_chunksByIndex l) -> Runs.sourcedCache events cache ->
  Runs.sourcedCall events (fst (fst (tick me now a l st la ls cache ops)))
  /\ Runs.sourcedCache events (snd (fst (tick me now a l st la ls cache ops))).
Proof using Type.
  intros Hl Hc. unfold tick. destruct (_ >? ls).
  all: repeat (destruct (_ >? _); [now apply afterStream_sourced |]).
  all: destruct (_ <? _); [| now apply afterStream_sourced].
  all: cbn [fst snd]; split; [split; [exact Hl | exact I] | exact Hc].
Qed.

(** A step keeps every chunk sourced, the records it delivers included. *)
Lemma step_sourced events w (lbl : Label) w' :
  Runs.sourced events w -> step w lbl = Some w' ->
  Runs.sourced (events ++ Runs.delivered lbl) w'.
Proof using Type.
  intros [Hc Hcalls] Hstep.
  assert (Hincl : incl events (events ++ Runs.delivered lbl)) by (apply incl_appl, incl_refl).
  assert (Hc' := sourcedCache_more _ _ _ Hincl Hc).
  assert (Hcalls' : Forall (Runs.sourcedCall (events ++ Runs.delivered lbl)) (calls w)).
  { eapply Forall_impl; [exact Hcalls |]. intros call. now apply sourcedCall_more. }
  set (events' := events ++ Runs.delivered lbl) in *.
  apply step_inversion in Hstep
    as [(now & a & Hlbl & call & cache & ops & He & ->)
       | (c & call & o & Hcall & -> & Ho)].
  - assert (H : Runs.sourcedCall events' call /\ Runs.sourcedCache events' cache).
    { change call with (fst (fst (call, cache, ops))).
      change cache with (snd (fst (call, cache, ops))) at 2. rewrite <- He.
      unfold enter. destruct (cacheHit a (chunkCache w)) as [chunks |] eqn:Hh.
      - cbn [fst snd]. split; [| exact Hc']. split; [apply noLocals_sourced |].
        exact (cacheHit_sourced events' a _ chunks Hc' Hh).
      - destruct (_ ≫= inFlight).
        + cbn [fst snd]. split; [| exact Hc']. split; [apply noLocals_sourced | exact I].
        + now apply startCollection_sourced. }
    destruct H as [Hcall Hcache]. split; cbn [chunkCache calls]; [exact Hcache |].
    apply Forall_app. split; [exact Hcalls' | now constructor].
  - destruct (Forall_lookup_1 _ _ _ _ Hcalls' Hcall) as [Hl _].
    assert (H : Runs.sourcedCall events' (fst (fst o))
                /\ Runs.sourcedCache events' (snd (fst o))).
    { destruct Ho as [(event & st & la & ls & Hlbl & _ & ->)
                     | [(now & st & la & ls & _ & _ & ->)
                     | [(ibe & batch & rest & batchEvents & Hlbl & _ & ->)
                     | [(ibe & batch & rest & _ & _ & ->)
                     | [(p & now & owner & chunks & _ & _ & _ & _ & ->)
                     | (p & now & owner & _ & _ & _ & _ & ->)]]]]].
      - unfold deliver.
        assert (Hin : In event events').
        { unfold events'. rewrite Hlbl. apply in_or_app. right. now left. }
        pose proof (onevent_sourced events' (args call) event (locals call) (chunkCache w)
                      Hin Hl Hc') as [Hl' Hcache'].
        destruct (onevent _ _ _) as [l' cache']. cbn [fst snd] in *.
        split; [split; [exact Hl' | exact I] | exact Hcache'].
      - now apply tick_sourced.
      - unfold queryDone.
        assert (Hin : incl batchEvents events').
        { unfold events'. rewrite Hlbl. apply incl_appr, incl_refl. }
        pose proof (fallbackEvents_sourced events' (args call) ibe batchEvents (locals call)
                      (chunkCache w) Hin Hl Hc') as [Hl' Hcache'].
        destruct (fold_left _ batchEvents _) as [l' cache']. cbn [fst snd] in *.
        destruct rest; [now apply finish_sourced |].
        cbn [fst snd]. split; [split; [exact Hl' | exact I] | exact Hcache'].
      - cbn [fail fst snd]. split; [split; [exact Hl | exact I] |].
        now apply clearInFlight_sourced.
      - unfold resume. destruct (cacheHit _ _) as [chunks' |] eqn:Hh.
        + cbn [fst snd]. split; [| exact Hc']. split; [apply noLocals_sourced |].
          exact (cacheHit_sourced events' _ _ chunks' Hc' Hh).
        + now apply startCollection_sourced.
      - cbn [rethrow fst snd]. split; [split; [exact Hl | exact I] | exact Hc']. }
    destruct H as [Hcall' Hcache]. destruct o as [[call' cache'] ops'].
    split; cbn [commit chunkCache calls fst snd] in *; [exact Hcache |].
    now apply Forall_insert.
Qed.

Lemma run_sourced events (trace : list Label) w w' :
  Runs.sourced events w -> run w trace = Some w' ->
  Runs.sourced (events ++ concat (map Runs.delivered trace)) w'.
Proof using Type.
  revert events w. induction trace as [| lbl trace IH]; intros events w Hw; cbn [run].
  - intros [= <-]. cbn. now rewrite app_nil_r.
  - destruct (step w lbl) as [w1 |] eqn:Hs; [| discriminate]. cbn [mbind option_bind].
    intros Hrun. cbn [map concat]. rewrite app_assoc.
    apply (IH _ w1); [| exact Hrun]. exact (step_sourced events w lbl w1 Hw Hs).
Qed.

End Provenance.

(** X23: in every run of the program each chunk that [fetchChunks] returns,
    from the cache or not, was built from a record delivered during the run,
    to a subscription or as the answer to a query: its content and its
    encryption marker are the record's, and its index is the one the tags of
    the record give, whenever they give one. *)
Theorem returned_chunks_were_received (trace : list Nostr.Label) (w : Nostr.World)
    (c : nat) (call : Nostr.Call) (chunks : list Nostr.ChunkEvent.t) :
  Nostr.run Nostr.init trace = Some w ->
  Nostr.calls w !! c = Some call ->
  Nostr.phase call = Nostr.Returned chunks ->
  forall chunk,
    In chunk chunks ->
    exists event,
      In event (concat (map Runs.delivered trace))
      /\ Nostr.ChunkEvent.content chunk = Nostr.content event
      /\ Nostr.ChunkEvent.encryption chunk = Nostr.encryptionOf (Nostr.tags event)
      /\ forall i, Nostr.parseChunkIndexFromTags (Nostr.tags event) = Some i ->
                   Nostr.ChunkEvent.index chunk = i.
Proof.
  intros Hrun Hcall Hph chunk Hin.
  assert (Hinit : Runs.sourced [] Nostr.init).
  { split; [| constructor]. intros key entry Hk. cbn in Hk.
    now rewrite lookup_empty in Hk. }
  destruct (run_sourced [] trace Nostr.init w Hinit Hrun) as [_ Hcalls].
  cbn [app] in Hcalls.
  destruct (Forall_lookup_1 _ _ _ _ Hcalls Hcall) as [_ Hret]. rewrite Hph in Hret.
  rewrite List.Forall_forall in Hret. exact (Hret chunk Hin).
Qed.


Lemma returned_chunks_were_received_witness :
  exists event,
    In event (concat (map Runs.delivered Sample.collection))
    /\ "content-c"%string = Nostr.content event
    /\ "none"%string = Nostr.encryptionOf (Nostr.tags event)
    /\ forall i, Nostr.parseChunkIndexFromTags (Nostr.tags event) = Some i -> 2 = i.
Proof.
  pose (w := default Nostr.init (Nostr.run Nostr.init Sample.collection)).
  pose (call := default {| Nostr.args := Sample.fiveChunks; Nostr.locals := Nostr.noLocals;
                           Nostr.phase := Nostr.Rejected |} (Nostr.calls w !! 0%nat)).
  assert (Hrun : Nostr.run Nostr.init Sample.collection = Some w)
    by (vm_compute; reflexivity).
  assert (Hcall : Nostr.calls w !! 0%nat = Some call) by (vm_compute; reflexivity).
  assert (Hph : Nostr.phase call = Nostr.Returned Sample.collected)
    by (vm_compute; reflexivity).
  assert (Hin : In {| Nostr.ChunkEvent.index := 2;
                      Nostr.ChunkEvent.content := "content-c";
                      Nostr.ChunkEvent.encryption := "none" |}
                   Sample.collected)
    by (vm_compute; tauto).
  exact (returned_chunks_were_received Sample.collection w 0%nat call Sample.collected
           Hrun Hcall Hph _ Hin).
Defined.

(** *** Chunk collection without a cache *)

Section Queries.

Import Nostr Collect.

Variables (pool : Pool) (a : Args).

Implicit Types (l : Locals) (ops : list NetOp) (events : list Event).

(** What holds of the queries made and the chunks held after each round. *)
Let planned (n : nat) (st : list NetOp * Locals) : Prop :=
  wfMap (l_chunksByIndex (snd st))
  /\ Runs.sourcedMap (NostrQuery.answers pool (fst st)) (l_chunksByIndex (snd st))
  /\ Forall (fun op => exists filter, op = Query (relays a) filter) (fst st)
  /\ length (fst st) = n.

Lemma answers_app ops ops' :
  NostrQuery.answers pool (ops ++ ops')
  = NostrQuery.answers pool ops ++ NostrQuery.answers pool ops'.
Proof using Type. unfold NostrQuery.answers. now rewrite map_app, concat_app. Qed.

Lemma answers_query ops (filter : Filter) :
  incl (querySync pool (relays a) filter)
       (NostrQuery.answers pool (ops ++ [Query (relays a) filter])).
Proof using Type.
  rewrite answers_app. apply incl_appr. unfold NostrQuery.answers. cbn [map concat].
  rewrite app_nil_r. apply incl_refl.
Qed.

Lemma sourcedCache_empty events : Runs.sourcedCache events ∅.
Proof using Type. intros key entry Hk. now rewrite lookup_empty in Hk. Qed.

Lemma wfCache_empty : wfCache ∅.
Proof using Type. intros key entry Hk. now rewrite lookup_empty in Hk. Qed.

Lemma events_wf (events : list Event) st :
  wfState st -> wfState (fold_left (fun st event => onevent a event st) events st).
Proof using Type.
  revert st. induction events as [| event events IH]; intros st Hst; cbn [fold_left];
    [exact Hst |].
  apply IH, onevent_wf, Hst.
Qed.

Lemma planned_query (n : nat) ops l (filter : Filter) l' :
  planned n (ops, l) ->
  wfMap (l_chunksByIndex l') ->
  (forall events,
      incl (querySync pool (relays a) filter) events ->
      Runs.sourcedMap events (l_chunksByIndex l) ->
      Runs.sourcedMap events (l_chunksByIndex l')) ->
  planned (S n) (ops ++ [Query (relays a) filter], l').
Proof using Type.
  unfold planned. cbn [fst snd]. intros (Hwf & Hsrc & Hops & Hlen) Hwf' Hsrc'.
  split; [exact Hwf' |]. split; [| split].
  - apply Hsrc'; [apply answers_query |].
    apply (sourcedMap_more (NostrQuery.answers pool ops)); [| exact Hsrc].
    rewrite answers_app. apply incl_appl, incl_refl.
  - apply Forall_app. split; [exact Hops |]. constructor; [now exists filter | constructor].
  - rewrite length_app. cbn [length]. lia.
Qed.

Lemma queryBatch_planned (n : nat) (ibe : gmap string Z) st (batch : list string) :
  planned n st -> planned (S n) (NostrQuery.queryBatch pool a ibe st batch).
Proof using Type.
  destruct st as [ops l]. intros Hp. unfold NostrQuery.queryBatch.
  apply (planned_query n ops l); [exact Hp | |].
  - apply (fallbackEvents_wf a ibe _ (l, ∅)). split; [apply Hp | apply wfCache_empty].
  - intros events Hincl Hl.
    apply (fallbackEvents_sourced events a ibe _ l ∅ Hincl Hl (sourcedCache_empty events)).
Qed.

Lemma batches_planned (ibe : gmap string Z) (batches : list (list string)) (n : nat) st :
  planned n st ->
  planned (n + length batches) (fold_left (NostrQuery.queryBatch pool a ibe) batches st).
Proof using Type.
  revert n st. induction batches as [| batch batches IH]; intros n st Hp; cbn [fold_left length].
  - now rewrite Nat.add_0_r.
  - replace (n + S (length batches))%nat with (S n + length batches)%nat by lia.
    apply IH, queryBatch_planned, Hp.
Qed.

Lemma planned_start : planned 0 ([], noLocals).
Proof using Type.
  split; [apply wfMap_empty |]. split; [constructor |]. split; [constructor | reflexivity].
Qed.

Lemma fetchChunks_planned :
  exists n : nat,
    (n <= length (idBatches (NostrQuery.eventIds (chunkInfos a))) + 1)%nat
    /\ planned n (fst (NostrQuery.fetchChunks pool a))
    /\ snd (NostrQuery.fetchChunks pool a)
       = sortedChunks (l_chunksByIndex (snd (fst (NostrQuery.fetchChunks pool a)))).
Proof using Type.
  unfold NostrQuery.fetchChunks.
  set (ibe := buildIndexByEventId _). set (ids := NostrQuery.eventIds _).
  assert (H1 : exists n, (n <= length (idBatches ids))%nat
                         /\ planned n
                              (if (0 <? length ids)%nat
                               then fold_left (NostrQuery.queryBatch pool a ibe)
                                      (idBatches ids) ([], noLocals)
                               else ([], noLocals))).
  { destruct (0 <? length ids)%nat.
    - exists (0 + length (idBatches ids))%nat. split; [lia |].
      apply batches_planned, planned_start.
    - exists 0%nat. split; [lia |]. apply planned_start. }
  destruct H1 as (n & Hn & Hp).
  destruct (if (0 <? length ids)%nat then _ else _) as [ops l].
  destruct (JsMap.size _ <? _).
  - exists (S n). split; [lia |]. cbn [fst snd]. split; [| reflexivity].
    apply (planned_query n ops l); [exact Hp | |].
    + apply (events_wf _ (l, ∅)). split; [apply Hp | apply wfCache_empty].
    + intros events Hincl Hl.
      apply (events_sourced events a _ l ∅ Hincl Hl (sourcedCache_empty events)).
  - exists n. split; [lia |]. cbn [fst snd]. split; [exact Hp | reflexivity].
Qed.

End Queries.

(** X24: the older, cache-free [fetchChunks]: the chunks it returns are
    strictly ascending in the index, hence without duplicates; each was built
    from a record that one of its own queries was answered with; it only
    issues queries, all of them to the relays it was given; and it issues at
    most one per batch of ids plus one. *)
Theorem queried_chunks_ascending_and_received (pool : Nostr.Pool) (a : Nostr.Args) :
  let ops := fst (fst (NostrQuery.fetchChunks pool a)) in
  let chunks := snd (NostrQuery.fetchChunks pool a) in
  StronglySorted Collect.ascending chunks
  /\ NoDup (map Nostr.ChunkEvent.index chunks)
  /\ Forall (Runs.received (NostrQuery.answers pool ops)) chunks
  /\ Forall (fun op => exists filter, op = Nostr.Query (Nostr.relays a) filter) ops
  /\ (length ops
      <= length (Nostr.idBatches (NostrQuery.eventIds (Nostr.chunkInfos a))) + 1)%nat.
Proof.
  cbv zeta. destruct (fetchChunks_planned pool a) as (n & Hn & Hp & ->).
  destruct Hp as (Hwf & Hsrc & Hops & Hlen).
  pose proof (sortedChunks_ascending _ Hwf) as Hs.
  split; [exact Hs |]. split; [now apply ascending_NoDup |].
  split; [now apply sortedChunks_sourced |]. split; [exact Hops | lia].
Qed.
